(** * go-filecoin: chain syncer, message-queue policy and in-memory journal

    A shallow embedding of [chain/syncer.go] (the [Syncer] with [syncOne],
    [widen], [HandleNewTipSet], [ExceedsUntrustedChainLength]), of the
    outbound message-queue policy exercised by [message/policy_test.go], and
    of the in-memory journal ([MemoryJournal], [MemoryWriter]).

    Go values are modelled as follows: [uint64] as [N] with the wrap-around
    of addition written out; a Go [error] as the inductive [error]; a
    function returning [(T, error)] as [outcome T], which also has a case
    for a run-time panic; Go maps as stdpp's [gmap] and [gset]; the mutable
    syncer (its chain store and its bad-tipset cache) as a state threaded
    through a small state-and-error monad. *)

From Stdlib Require Import ZArith NArith String Ascii List Lia Bool.
From Stdlib Require Import DecimalString.
From stdpp Require Import base decidable option list gmap strings sets fin_maps.

Local Open Scope string_scope.
Local Open Scope N_scope.
Local Open Scope list_scope.

(** ** Results of Go calls *)

(** The package-level sentinel errors of [chain/syncer.go], the errors the
    modelled [types] and store operations raise, [errors.Wrapf], and errors
    that come out of a collaborator (fetcher, state evaluator, chain
    selector, message provider), which are foreign values. *)
Inductive error : Type :=
  | ErrChainHasBadTipSet
  | ErrNewChainTooLong
  | ErrUnexpectedStoreState
  | ErrUndefTipSet
  | ErrKeyNotFound (k : list N)
  | ErrInvalidTipSet (reason : string)
  | ErrNonceMismatch (got expected : N)
  | ErrNonceTooLow (nonce : N)
  | ErrWrapf (msg : string) (cause : error)
  | ErrExternal (msg : string).

Inductive outcome (A : Type) : Type :=
  | Ok (a : A)
  | Err (e : error)
  | Panic (msg : string).
Arguments Ok {A} a.
Arguments Err {A} e.
Arguments Panic {A} msg.

(** What a collaborator returns: a value or its own error. *)
Inductive ext (A : Type) : Type :=
  | ExtOk (a : A)
  | ExtErr (msg : string).
Arguments ExtOk {A} a.
Arguments ExtErr {A} msg.

Definition ofExt {A} (r : ext A) : outcome A :=
  match r with
  | ExtOk a => Ok a
  | ExtErr m => Err (ErrExternal m)
  end.

Definition obind {A B} (r : outcome A) (k : A -> outcome B) : outcome B :=
  match r with
  | Ok a => k a
  | Err e => Err e
  | Panic m => Panic m
  end.

Definition wrapf {A} (msg : string) (r : outcome A) : outcome A :=
  match r with
  | Err e => Err (ErrWrapf msg e)
  | other => other
  end.

(** ** The [types] package *)

Module Types.

(** Modelled from the spec: a CID is an opaque content identifier; it is the
    number its bytes spell, so that the order on CID bytes is the order on
    [N].  [cid.Undef] is the zero value. *)
Definition Cid : Type := N.
Definition cid_Undef : Cid := 0.

(** Modelled from the spec: a [TipSetKey] is the sorted set of block CIDs. *)
Definition TipSetKey : Type := list Cid.

Definition Address : Type := string.

Record SignedMessage : Type := mkMsg {
  From : Address;
  Nonce : N
}.

Record MessageReceipt : Type := mkReceipt {
  ExitCode : N
}.

(** Modelled from the spec: the fields of a [Block] the syncer and the
    policy read.  [Messages] and [MessageReceipts] are the CIDs of the
    lists kept by the message provider. *)
Record Block : Type := mkBlock {
  blockCid : Cid;
  Ticket : list N;
  Parents_ : TipSetKey;
  Height_ : N;
  ParentWeight_ : N;
  Messages : Cid;
  MessageReceipts : Cid;
  StateRoot : Cid
}.

#[global] Instance SignedMessage_eq_dec : EqDecision SignedMessage.
Proof. solve_decision. Defined.
#[global] Instance Block_eq_dec : EqDecision Block.
Proof. solve_decision. Defined.

(** Generic insertion sort, used for the canonical orders. *)
Fixpoint insertBy {A} (leb : A -> A -> bool) (x : A) (l : list A) : list A :=
  match l with
  | [] => [x]
  | y :: l' => if leb x y then x :: y :: l' else y :: insertBy leb x l'
  end.

Definition sortBy {A} (leb : A -> A -> bool) (l : list A) : list A :=
  foldr (insertBy leb) [] l.

(** [bytes.Compare]: lexicographic order on byte strings. *)
Fixpoint bytesCompare (a b : list N) : comparison :=
  match a, b with
  | [], [] => Eq
  | [], _ :: _ => Lt
  | _ :: _, [] => Gt
  | x :: a', y :: b' =>
      match N.compare x y with
      | Eq => bytesCompare a' b'
      | c => c
      end
  end.

(** Modelled from the spec: the canonical block order inside a tipset is
    lexicographic by ticket, tie-broken by CID bytes. *)
Definition blockLeb (a b : Block) : bool :=
  match bytesCompare (Ticket a) (Ticket b) with
  | Lt => true
  | Gt => false
  | Eq => N.leb (blockCid a) (blockCid b)
  end.

(** A tipset is its blocks in canonical order; [UndefTipSet] has none. *)
Definition TipSet : Type := list Block.
Definition UndefTipSet : TipSet := [].

Definition Defined (ts : TipSet) : bool :=
  match ts with [] => false | _ :: _ => true end.

Definition Len (ts : TipSet) : nat := length ts.

Definition NewTipSetKey (cids : list Cid) : TipSetKey := sortBy N.leb cids.

Definition Key (ts : TipSet) : TipSetKey := NewTipSetKey (map blockCid ts).

Definition Empty (k : TipSetKey) : bool :=
  match k with [] => true | _ :: _ => false end.

Definition Height (ts : TipSet) : outcome N :=
  match ts with
  | [] => Err ErrUndefTipSet
  | b :: _ => Ok (Height_ b)
  end.

Definition Parents (ts : TipSet) : outcome TipSetKey :=
  match ts with
  | [] => Err ErrUndefTipSet
  | b :: _ => Ok (Parents_ b)
  end.

Definition hasDuplicateCid (blocks : list Block) : bool :=
  negb (bool_decide (NoDup (map blockCid blocks))).

(** Modelled from the spec: construction fails when the input blocks are
    empty, contain duplicates, or disagree on height, parent key or
    parent weight; otherwise the blocks are put in canonical order. *)
Definition NewTipSet (blocks : list Block) : outcome TipSet :=
  match blocks with
  | [] => Err (ErrInvalidTipSet "no blocks for tipset")
  | b0 :: _ =>
      if negb (forallb (fun b => N.eqb (Height_ b) (Height_ b0)) blocks) then
        Err (ErrInvalidTipSet "inconsistent block heights")
      else if negb (forallb (fun b => bool_decide (Parents_ b = Parents_ b0)) blocks) then
        Err (ErrInvalidTipSet "inconsistent block parents")
      else if negb (forallb (fun b => N.eqb (ParentWeight_ b) (ParentWeight_ b0)) blocks) then
        Err (ErrInvalidTipSet "inconsistent block parent weights")
      else if hasDuplicateCid blocks then
        Err (ErrInvalidTipSet "duplicate block")
      else Ok (sortBy blockLeb blocks)
  end.

Record ChainInfo : Type := mkChainInfo {
  Peer : string;
  Head : TipSetKey;
  CIHeight : N
}.

End Types.

(** ** The chain store and the bad-tipset cache *)

Module Chain.
Import Types.

Record TipSetAndState : Type := mkTSAS {
  TipSetStateRoot : Cid;
  TipSetOf : TipSet
}.

(** Modelled from the spec: the chain store behind the interface
    [syncerChainReaderWriter] is a map from tipset key to the tipset and
    its post-state root, with the key of the head.  The index by parents
    and height lists the stored tipsets that have those parents and that
    height. *)
Record Store : Type := mkStore {
  tipSets : gmap TipSetKey TipSetAndState;
  head : TipSetKey
}.

Definition GetHead (s : Store) : TipSetKey := head s.

Definition GetTipSet (s : Store) (k : TipSetKey) : outcome TipSet :=
  match tipSets s !! k with
  | Some tsas => Ok (TipSetOf tsas)
  | None => Err (ErrKeyNotFound k)
  end.

Definition GetTipSetStateRoot (s : Store) (k : TipSetKey) : outcome Cid :=
  match tipSets s !! k with
  | Some tsas => Ok (TipSetStateRoot tsas)
  | None => Err (ErrKeyNotFound k)
  end.

Definition HasTipSetAndState (s : Store) (k : TipSetKey) : bool :=
  bool_decide (is_Some (tipSets s !! k)).

Definition PutTipSetAndState (s : Store) (tsas : TipSetAndState) : outcome Store :=
  Ok {| tipSets := <[Key (TipSetOf tsas) := tsas]> (tipSets s); head := head s |}.

Definition SetHead (s : Store) (ts : TipSet) : outcome Store :=
  if HasTipSetAndState s (Key ts)
  then Ok {| tipSets := tipSets s; head := Key ts |}
  else Err (ErrKeyNotFound (Key ts)).

Definition hasParentsAndHeight (pk : TipSetKey) (h : N) (tsas : TipSetAndState) : bool :=
  match Parents (TipSetOf tsas), Height (TipSetOf tsas) with
  | Ok pk', Ok h' => bool_decide (pk' = pk) && N.eqb h' h
  | _, _ => false
  end.

Definition GetTipSetAndStatesByParentsAndHeight (s : Store) (pk : TipSetKey) (h : N)
  : outcome (list TipSetAndState) :=
  Ok (List.filter (hasParentsAndHeight pk h) (map snd (map_to_list (tipSets s)))).

Definition HasTipSetAndStatesWithParentsAndHeight (s : Store) (pk : TipSetKey) (h : N) : bool :=
  existsb (hasParentsAndHeight pk h) (map snd (map_to_list (tipSets s))).

(** Modelled from the spec: the bad-tipset cache is a set of tipset keys;
    [AddChain] inserts the key of every tipset of the sequence. *)
Definition badTipSetCache : Type := gset TipSetKey.

Definition AddChain (bad : badTipSetCache) (chain : list TipSet) : badTipSetCache :=
  foldl (fun acc ts => {[Key ts]} ∪ acc) bad chain.

Definition BadHas (bad : badTipSetCache) (k : TipSetKey) : bool :=
  bool_decide (k ∈ bad).

(** [Reverse] turns the traversal order of the fetcher into height order. *)
Definition Reverse (chain : list TipSet) : list TipSet := rev chain.

(** ** The syncer *)

(** [UntrustedChainHeightLimit] and the comparison on [uint64]. *)
Definition UntrustedChainHeightLimit : N := 600.

Definition uint64_add (a b : N) : N := (a + b) mod 2 ^ 64.

Definition ExceedsUntrustedChainLength (curHeight newHeight : N) : bool :=
  let maxChainLength := uint64_add curHeight UntrustedChainHeightLimit in
  N.ltb maxChainLength newHeight.

(** The calls the syncer makes to the state evaluator and to the chain
    selector, in the order it makes them. *)
Inductive call : Type :=
  | CallRunStateTransition (ts : TipSet)
  | CallIsHeavier (a b : TipSet) (aStateID bStateID : Cid) (res : bool).

(** The mutable part of a [Syncer]. *)
Record Syncer : Type := mkSyncer {
  chainStore : Store;
  badTipSets : badTipSetCache;
  calls : list call
}.

(** A computation that reads and writes the syncer and may fail. *)
Definition M (A : Type) : Type := Syncer -> outcome A * Syncer.

Definition ret {A} (a : A) : M A := fun s => (Ok a, s).

Definition bind {A B} (m : M A) (k : A -> M B) : M B :=
  fun s =>
    match m s with
    | (Ok a, s') => k a s'
    | (Err e, s') => (Err e, s')
    | (Panic msg, s') => (Panic msg, s')
    end.

Definition lift {A} (r : outcome A) : M A := fun s => (r, s).

Definition fail {A} (e : error) : M A := lift (Err e).

Definition readStore {A} (f : Store -> outcome A) : M A :=
  fun s => (f (chainStore s), s).

Definition writeStore (f : Store -> outcome Store) : M unit :=
  fun s =>
    match f (chainStore s) with
    | Ok st => (Ok tt, {| chainStore := st; badTipSets := badTipSets s; calls := calls s |})
    | Err e => (Err e, s)
    | Panic msg => (Panic msg, s)
    end.

Definition record (c : call) : M unit :=
  fun s => (Ok tt, {| chainStore := chainStore s; badTipSets := badTipSets s;
                      calls := calls s ++ [c] |}).

Definition poison (chain : list TipSet) : M unit :=
  fun s => (Ok tt, {| chainStore := chainStore s;
                      badTipSets := AddChain (badTipSets s) chain;
                      calls := calls s |}).

Declare Scope syncer_scope.
Delimit Scope syncer_scope with syncer.
Notation "x <- m ;; k" := (bind m (fun x => k))
  (at level 100, m at next level, right associativity) : syncer_scope.
Notation "m ;;; k" := (bind m (fun _ => k))
  (at level 100, right associativity) : syncer_scope.
Local Open Scope syncer_scope.

(** The selection loop of [widen]: the candidate with the most blocks. *)
Definition widenMax (first : TipSetAndState) (candidates : list TipSetAndState) : TipSet :=
  foldl (fun max candidate =>
           if (Len max <? Len (TipSetOf candidate))%nat then TipSetOf candidate else max)
        (TipSetOf first) candidates.

(** The union loop of [widen]: the blocks of [ts], then those of [max]
    whose CID was not seen. *)
Definition unionBlocks (ts max : TipSet) : list Block :=
  let step (acc : list Block * gset Cid) (blk : Block) :=
    if bool_decide (blockCid blk ∈ acc.2) then acc
    else (acc.1 ++ [blk], {[blockCid blk]} ∪ acc.2) in
  let start : list Block * gset Cid :=
    foldl (fun acc blk => (acc.1 ++ [blk], {[blockCid blk]} ∪ acc.2)) ([], ∅) ts in
  (foldl step start max).1.

Section WithCollaborators.

(** The fetcher, the state evaluator, the chain selector and the message
    provider the syncer is built with, and the two helpers of the package
    it calls. *)
Variable FetchTipSets :
  TipSetKey -> string -> (TipSet -> outcome bool) -> ext (list TipSet).
Variable RunStateTransition :
  TipSet -> list (list SignedMessage) -> list (list MessageReceipt) ->
  list TipSet -> N -> Cid -> ext Cid.
Variable IsHeavier : TipSet -> TipSet -> Cid -> Cid -> ext bool.
Variable NewWeight : TipSet -> Cid -> ext N.
Variable LoadMessages : Cid -> ext (list SignedMessage).
Variable LoadReceipts : Cid -> ext (list MessageReceipt).
Variable GetRecentAncestors : TipSet -> Store -> Z -> ext (list TipSet).
Variable AncestorRoundsNeeded : Z.

Definition calculateParentWeight (parent grandParent : TipSet) : M N :=
  if bool_decide (Key grandParent = Key UndefTipSet) then
    lift (ofExt (NewWeight parent cid_Undef))
  else
    gpStRoot <- readStore (fun st => GetTipSetStateRoot st (Key grandParent));;
    lift (ofExt (NewWeight parent gpStRoot)).

(** The message-gathering loop of [syncOne]. *)
Fixpoint gatherMessages (blocks : list Block)
  : outcome (list (list SignedMessage) * list (list MessageReceipt)) :=
  match blocks with
  | [] => Ok ([], [])
  | blk :: rest =>
      obind (wrapf "failed loading message list" (ofExt (LoadMessages (Messages blk))))
        (fun msgs =>
      obind (wrapf "failed loading receipts list" (ofExt (LoadReceipts (MessageReceipts blk))))
        (fun rcpts =>
      obind (gatherMessages rest)
        (fun acc => Ok (msgs :: acc.1, rcpts :: acc.2))))
  end.

(** [syncOne].  The stopwatch, the log lines and [logReorg], which walks
    the ancestors of the two heads only to log and count a reorg, change
    neither the store nor the cache and are left out. *)
Definition syncOne (grandParent parent next : TipSet) : M unit :=
  priorHeadKey <- readStore (fun st => Ok (GetHead st));;
  if bool_decide (priorHeadKey = Key next) then ret tt else
  stateRoot <- readStore (fun st => GetTipSetStateRoot st (Key parent));;
  h <- lift (Height next);;
  let ancestorHeight := (Z.of_N h - AncestorRoundsNeeded)%Z in
  ancestors <- readStore (fun st => ofExt (GetRecentAncestors parent st ancestorHeight));;
  gathered <- lift (gatherMessages next);;
  parentWeight <- calculateParentWeight parent grandParent;;
  record (CallRunStateTransition next);;;
  root <- lift (ofExt (RunStateTransition next gathered.1 gathered.2
                         ancestors parentWeight stateRoot));;
  writeStore (fun st => PutTipSetAndState st
                          {| TipSetOf := next; TipSetStateRoot := root |});;;
  nextParentStateID <- readStore (fun st => GetTipSetStateRoot st (Key parent));;
  headTipSet <- readStore (fun st => GetTipSet st priorHeadKey);;
  headParentKey <- lift (Parents headTipSet);;
  headParentStateID <-
    (if negb (Empty headParentKey)
     then readStore (fun st => GetTipSetStateRoot st headParentKey)
     else ret cid_Undef);;
  heavier <- lift (ofExt (IsHeavier next headTipSet nextParentStateID headParentStateID));;
  record (CallIsHeavier next headTipSet nextParentStateID headParentStateID heavier);;;
  if heavier then writeStore (fun st => SetHead st next) else ret tt.

Definition ancestorsFromStore (ts : TipSet) : M (TipSet * TipSet) :=
  parentCids <- lift (Parents ts);;
  parent <- readStore (fun st => GetTipSet st parentCids);;
  grandParentCids <- lift (Parents parent);;
  if Empty grandParentCids then ret (parent, UndefTipSet) else
  grandParent <- readStore (fun st => GetTipSet st grandParentCids);;
  ret (parent, grandParent).

Definition widen (ts : TipSet) : M TipSet :=
  parentSet <- lift (Parents ts);;
  height <- lift (Height ts);;
  known <- readStore (fun st =>
             Ok (HasTipSetAndStatesWithParentsAndHeight st parentSet height));;
  if negb known then ret UndefTipSet else
  candidates <- readStore (fun st =>
                  GetTipSetAndStatesByParentsAndHeight st parentSet height);;
  match candidates with
  | [] => ret UndefTipSet
  | first :: _ =>
      let max := widenMax first candidates in
      wts <- lift (NewTipSet (unionBlocks ts max));;
      if bool_decide (Key wts = Key ts) || bool_decide (Key wts = Key max)
      then ret UndefTipSet
      else ret wts
  end.

(** One round of the loop of [HandleNewTipSet] over [chain], at index
    [i] and tipset [ts]. *)
Definition syncRound (chain : list TipSet) (i : nat) (ts : TipSet)
           (grandParent parent : TipSet) : M unit :=
  wts <- (if (i =? 0)%nat then
            wts <- widen ts;;
            if Defined wts
            then syncOne grandParent parent wts;;; ret wts
            else ret wts
          else ret UndefTipSet);;
  if negb (Defined wts) || (1 <? length chain)%nat then
    fun s =>
      match syncOne grandParent parent ts s with
      | (Err e, s') => (poison (drop i chain);;; fail e) s'
      | other => other
      end
  else ret tt.

Fixpoint syncLoop (chain : list TipSet) (i : nat) (rest : list TipSet)
         (grandParent parent : TipSet) : M unit :=
  match rest with
  | [] => ret tt
  | ts :: rest' =>
      syncRound chain i ts grandParent parent;;;
      syncLoop chain (S i) rest' parent ts
  end.

(** The predicate handed to the fetcher: stop at a tipset whose parents
    are in the store. *)
Definition stopAtKnownParents (st : Store) (t : TipSet) : outcome bool :=
  match Parents t with
  | Err e => Err e
  | Panic msg => Panic msg
  | Ok parents =>
      match Height t with
      | Err e => Err e
      | Panic msg => Panic msg
      | Ok _ => Ok (HasTipSetAndState st parents)
      end
  end.

(** [HandleNewTipSet].  The mutex, which makes the calls run one after the
    other, the tracing span and the updates of the status reporter are left
    out.  Indexing the empty chain is the run-time panic of Go. *)
Definition HandleNewTipSet (ci : ChainInfo) (trusted : bool) : M unit :=
  known <- readStore (fun st => Ok (HasTipSetAndState st (Head ci)));;
  if known then ret tt else
  curHead <- readStore (fun st => GetTipSet st (GetHead st));;
  curHeight <- lift (Height curHead);;
  if negb trusted && ExceedsUntrustedChainLength curHeight (CIHeight ci)
  then fail ErrNewChainTooLong else
  fetched <- readStore (fun st =>
               ofExt (FetchTipSets (Head ci) (Peer ci) (stopAtKnownParents st)));;
  let chain := Reverse fetched in
  match chain with
  | [] => lift (Panic "runtime error: index out of range")
  | first :: _ =>
      ancestors <- ancestorsFromStore first;;
      syncLoop chain 0 chain ancestors.2 ancestors.1
  end.

End WithCollaborators.

(** ** Notions used to state the properties of the syncer *)

(** A computation that never returns the error [e]. *)
Definition never (e : error) {A} (m : M A) : Prop :=
  forall s, (m s).1 <> Err e.

(** The sentinel errors of the package. *)
Definition sentinel (e : error) : Prop :=
  e = ErrChainHasBadTipSet \/ e = ErrNewChainTooLong \/ e = ErrUnexpectedStoreState.

(** A tipset key is stored, with its tipset and state root. *)
Definition stored (st : Store) (k : TipSetKey) : Prop := is_Some (tipSets st !! k).

(** Every entry of the store is filed under the key of its tipset. *)
Definition StoreConsistent (st : Store) : Prop :=
  forall k tsas, tipSets st !! k = Some tsas -> Key (TipSetOf tsas) = k.

(** The state of the syncer is sound when its store is consistent and
    holds its head. *)
Definition sound (s : Syncer) : Prop :=
  StoreConsistent (chainStore s) /\ stored (chainStore s) (head (chainStore s)).

(** A computation that leaves the syncer as it was. *)
Definition readonly {A} (m : M A) : Prop :=
  forall s, (m s).2 = s.

(** A computation that leaves the bad-tipset cache as it was. *)
Definition keepsBad {A} (m : M A) : Prop :=
  forall s, badTipSets (m s).2 = badTipSets s.

(** Two syncers that differ at most in their bad-tipset cache, and a
    computation whose result, store and calls do not depend on that cache. *)
Definition sameButBad (s1 s2 : Syncer) : Prop :=
  chainStore s1 = chainStore s2 /\ calls s1 = calls s2.

Definition blind {A} (m : M A) : Prop :=
  forall s1 s2, sameButBad s1 s2 ->
    (m s1).1 = (m s2).1 /\ sameButBad (m s1).2 (m s2).2.

(** [Selects IsHeavier h synced final]: starting from the head [h] and
    taking the tipsets of [synced] in turn, a tipset that is not the head
    is compared by the chain selector with the tipset [b] of the head and
    becomes the head when it is deemed heavier; [final] is the head at the
    end.  This is the trace of the heads only, used in the lemmas on what
    is stored: it leaves the state roots given to the selector open.
    [selectAll], below, determines them. *)
Inductive Selects (IsHeavier : TipSet -> TipSet -> Cid -> Cid -> ext bool)
  : TipSetKey -> list TipSet -> TipSetKey -> Prop :=
  | Selects_nil h : Selects IsHeavier h [] h
  | Selects_head h t rest final :
      Key t = h ->
      Selects IsHeavier h rest final ->
      Selects IsHeavier h (t :: rest) final
  | Selects_compare h t rest final b aStateID bStateID (r : bool) :
      Key t <> h ->
      Key b = h ->
      IsHeavier t b aStateID bStateID = ExtOk r ->
      Selects IsHeavier (if r then Key t else h) rest final ->
      Selects IsHeavier h (t :: rest) final.

(** The tipsets a call of [HandleNewTipSet] over [chain] syncs, in order,
    when widening the first tipset gives [wts]. *)
Definition syncedTipSets (chain : list TipSet) (wts : TipSet) : list TipSet :=
  (if Defined wts then [wts] else []) ++
  (if negb (Defined wts) || (1 <? length chain)%nat then chain else []).

(** ** The selection of the head, step by step

    What a successful call is said to make of the store, written on the
    store alone: each synced tipset is put in the store with the state root
    the state evaluator gives it, then compared by the chain selector with
    the tipset of the head at that moment, and made the head when it is
    deemed heavier.  Every argument of the two collaborators is spelled
    out, so the store at the end, and its head, are determined. *)

Definition okay {A} (r : outcome A) : option A :=
  match r with
  | Ok a => Some a
  | _ => None
  end.

Definition extOkay {A} (r : ext A) : option A :=
  match r with
  | ExtOk a => Some a
  | ExtErr _ => None
  end.

(** Each tipset of a chain with its grandparent and parent: those given
    for the first, then the chain itself. *)
Fixpoint withAncestors (grandParent parent : TipSet) (chain : list TipSet)
  : list (TipSet * TipSet * TipSet) :=
  match chain with
  | [] => []
  | ts :: rest => (grandParent, parent, ts) :: withAncestors parent ts rest
  end.

(** The tipsets a call over [chain] syncs, in order, each with the
    grandparent and parent it is synced with: the widened tipset, when
    there is one, has those of the first tipset of the chain. *)
Definition synced (chain : list TipSet) (wts grandParent parent : TipSet)
  : list (TipSet * TipSet * TipSet) :=
  (if Defined wts then [(grandParent, parent, wts)] else []) ++
  (if negb (Defined wts) || (1 <? length chain)%nat
   then withAncestors grandParent parent chain else []).

Section Selection.

Variable RunStateTransition :
  TipSet -> list (list SignedMessage) -> list (list MessageReceipt) ->
  list TipSet -> N -> Cid -> ext Cid.
Variable IsHeavier : TipSet -> TipSet -> Cid -> Cid -> ext bool.
Variable NewWeight : TipSet -> Cid -> ext N.
Variable LoadMessages : Cid -> ext (list SignedMessage).
Variable LoadReceipts : Cid -> ext (list MessageReceipt).
Variable GetRecentAncestors : TipSet -> Store -> Z -> ext (list TipSet).
Variable AncestorRoundsNeeded : Z.

(** The weight of [parent]: from the state root stored for [grandParent],
    or from the undefined CID when there is no grandparent. *)
Definition parentWeightIn (st : Store) (parent grandParent : TipSet) : option N :=
  if bool_decide (Key grandParent = Key UndefTipSet) then
    extOkay (NewWeight parent cid_Undef)
  else
    gpStRoot ← okay (GetTipSetStateRoot st (Key grandParent));
    extOkay (NewWeight parent gpStRoot).

(** The state root the state evaluator gives [next] over the store. *)
Definition evaluatedRoot (st : Store) (grandParent parent next : TipSet) : option Cid :=
  stateRoot ← okay (GetTipSetStateRoot st (Key parent));
  h ← okay (Height next);
  ancestors ← extOkay (GetRecentAncestors parent st (Z.of_N h - AncestorRoundsNeeded)%Z);
  gathered ← okay (gatherMessages LoadMessages LoadReceipts next);
  parentWeight ← parentWeightIn st parent grandParent;
  extOkay (RunStateTransition next gathered.1 gathered.2 ancestors parentWeight stateRoot).

(** The answer of the chain selector on [next] against the tipset of the
    head [h], with the state roots the store holds for the parents of the
    two (the undefined CID when the head has no parents). *)
Definition heavierThanHead (st : Store) (h : TipSetKey) (parent next : TipSet)
  : option bool :=
  nextParentStateID ← okay (GetTipSetStateRoot st (Key parent));
  headTipSet ← okay (GetTipSet st h);
  headParentKey ← okay (Parents headTipSet);
  headParentStateID ← (if Empty headParentKey then Some cid_Undef
                       else okay (GetTipSetStateRoot st headParentKey));
  extOkay (IsHeavier next headTipSet nextParentStateID headParentStateID).

(** One synced tipset: nothing when it is the head already. *)
Definition selectOne (st : Store) (syn : TipSet * TipSet * TipSet) : option Store :=
  let '(grandParent, parent, next) := syn in
  if bool_decide (head st = Key next) then Some st else
  root ← evaluatedRoot st grandParent parent next;
  st1 ← okay (PutTipSetAndState st {| TipSetStateRoot := root; TipSetOf := next |});
  heavierThanHead st1 (head st) parent next ≫= fun heavier : bool =>
  if heavier then okay (SetHead st1 next) else Some st1.

Fixpoint selectAll (st : Store) (syns : list (TipSet * TipSet * TipSet)) : option Store :=
  match syns with
  | [] => Some st
  | syn :: rest => st1 ← selectOne st syn; selectAll st1 rest
  end.

End Selection.

End Chain.

(** ** The outbound message queue and its policy *)

Module Message.
Import Types.

Record Queued : Type := mkQueued {
  Msg : SignedMessage;
  Stamp : N
}.

(** Modelled from the spec: [message.Queue] and its policy are not among
    the sources, only their test is.  The queue is partitioned by sender
    address; each partition is a FIFO of (message, stamp) in ascending
    nonce order. *)
Abbreviation Queue := (gmap Address (list Queued)).

Definition NewQueue : Queue := ∅.

Definition List (q : Queue) (sender : Address) : list Queued :=
  default [] (q !! sender).

(** Modelled from the spec: [Enqueue] appends to the queue of the sender
    and fails if the nonce is not above those already queued. *)
Definition Enqueue (q : Queue) (msg : SignedMessage) (stamp : N) : outcome Queue :=
  let cur := List q (From msg) in
  if existsb (fun e => N.leb (Nonce msg) (Nonce (Msg e))) cur
  then Err (ErrNonceTooLow (Nonce msg))
  else Ok (<[From msg := cur ++ [mkQueued msg stamp]]> q).

(** Modelled from the spec: [RemoveNext] removes the head of the sender's
    queue and fails with [NonceMismatch{got, expected}] if the nonce of the
    head differs from [expected]. *)
Definition RemoveNext (q : Queue) (sender : Address) (expected : N) : outcome Queue :=
  match List q sender with
  | [] => Ok q
  | hd :: tl =>
      if N.eqb (Nonce (Msg hd)) expected
      then Ok (<[sender := tl]> q)
      else Err (ErrNonceMismatch (Nonce (Msg hd)) expected)
  end.

Definition expired (threshold : Z) (e : Queued) : bool :=
  (Z.of_N (Stamp e) <? threshold)%Z.

(** Modelled from the spec: [ExpireBefore], under the convention that the
    scenario of the spec and the test "expires old messages" fix: an entry
    is expired when its stamp is strictly less than the threshold, and a
    sender with an expired entry loses its whole queue. *)
Definition ExpireBefore (q : Queue) (threshold : Z) : Queue :=
  (fun entries => if existsb (expired threshold) entries then [] else entries) <$> q.

(** Modelled from the spec: the text of an error, as [err.Error()] gives
    it.  The errors of the queue are not among the sources; the text of a
    nonce mismatch is the literal of the spec, "nonce N, expected M", with
    the nonce at the head of the queue for N and the expected nonce for M,
    the roles that the test "fails when messages out of nonce order"
    asserts. *)
Definition decimal (n : N) : string := NilZero.string_of_uint (N.to_uint n).

Definition errorText (e : error) : string :=
  match e with
  | ErrNonceMismatch got expected =>
      "nonce " ++ decimal got ++ ", expected " ++ decimal expected
  | ErrNonceTooLow n => "invalid nonce " ++ decimal n
  | _ => "error"
  end.

(** [strings.Contains]. *)
Fixpoint hasPrefix (p s : string) : bool :=
  match p, s with
  | EmptyString, _ => true
  | String a p', String b s' => Ascii.eqb a b && hasPrefix p' s'
  | String _ _, EmptyString => false
  end.

Fixpoint contains (s sub : string) : bool :=
  hasPrefix sub s ||
  match s with
  | EmptyString => false
  | String _ s' => contains s' sub
  end.

Section Policy.

(** The message provider of the policy, and its expiry window. *)
Variable LoadMessages : Cid -> ext (list SignedMessage).
Variable expiryWindow : N.

(** What the policy does with one mined message: look at the head of the
    sender's queue; if there is none the message is not ours. *)
Definition processMessage (q : Queue) (msg : SignedMessage) : outcome Queue :=
  match List q (From msg) with
  | [] => Ok q
  | _ :: _ => RemoveNext q (From msg) (Nonce msg)
  end.

Fixpoint processMessages (q : Queue) (msgs : list SignedMessage) : outcome Queue :=
  match msgs with
  | [] => Ok q
  | msg :: rest => obind (processMessage q msg) (fun q' => processMessages q' rest)
  end.

(** The blocks of a tipset are visited in canonical order, the order
    its block list has. *)
Fixpoint processBlocks (q : Queue) (blocks : list Block) : outcome Queue :=
  match blocks with
  | [] => Ok q
  | blk :: rest =>
      obind (ofExt (LoadMessages (Messages blk))) (fun msgs =>
      obind (processMessages q msgs) (fun q' => processBlocks q' rest))
  end.

Fixpoint processChain (q : Queue) (chain : list TipSet) : outcome Queue :=
  match chain with
  | [] => Ok q
  | ts :: rest => obind (processBlocks q ts) (fun q' => processChain q' rest)
  end.

Fixpoint maxHeight (chain : list TipSet) : outcome N :=
  match chain with
  | [] => Ok 0
  | ts :: rest =>
      obind (Height ts) (fun h => obind (maxHeight rest) (fun m => Ok (N.max h m)))
  end.

Definition allHeightZero (chain : list TipSet) : bool :=
  forallb (fun ts => match Height ts with Ok 0 => true | _ => false end) chain.

(** Modelled from the spec: [HandleNewHead(old_chain, new_chain)] with
    both chains in ascending height order. *)
Definition HandleNewHead (q : Queue) (oldChain newChain : list TipSet) : outcome Queue :=
  if allHeightZero newChain then Ok q else
  obind (processChain q newChain) (fun q' =>
  obind (maxHeight newChain) (fun h =>
  Ok (ExpireBefore q' (Z.of_N h - Z.of_N expiryWindow)%Z))).

(** What is left of [HandleNewHead] once the policy has come to the queue
    [q] with the messages [post] of the new chain still to process: these
    are processed, then the entries older than the window below the
    greatest height [h] are expired. *)
Definition finishFrom (q : Queue) (post : list SignedMessage) (h : N) : outcome Queue :=
  obind (processMessages q post) (fun q' =>
  Ok (ExpireBefore q' (Z.of_N h - Z.of_N expiryWindow)%Z)).

(** The messages of a chain in the order the policy meets them. *)
Fixpoint blocksMessages (blocks : list Block) : outcome (list SignedMessage) :=
  match blocks with
  | [] => Ok []
  | blk :: rest =>
      obind (ofExt (LoadMessages (Messages blk))) (fun msgs =>
      obind (blocksMessages rest) (fun more => Ok (msgs ++ more)))
  end.

Fixpoint chainMessages (chain : list TipSet) : outcome (list SignedMessage) :=
  match chain with
  | [] => Ok []
  | ts :: rest =>
      obind (blocksMessages ts) (fun msgs =>
      obind (chainMessages rest) (fun more => Ok (msgs ++ more)))
  end.

End Policy.

End Message.

(** ** The in-memory journal *)

Module Journal.

(** A value passed as [interface{}] to [Write]. *)
Inductive value : Type :=
  | VString (s : string)
  | VInt (z : Z)
  | VOther (tag : N).

Inductive extractError : Type :=
  | DanglingField (v : value)
  | KeyNotString.

(** The loop of [extractKeyValues], two elements at a time. *)
Fixpoint extractLoop (kvs : list value) (out : gmap string value)
  : extractError + gmap string value :=
  match kvs with
  | [] => inr out
  | [k] => inl (DanglingField k)
  | key :: v :: rest =>
      match key with
      | VString keyStr => extractLoop rest (<[keyStr := v]> out)
      | _ => inl KeyNotString
      end
  end.

Definition extractKeyValues (kvs : list value) : extractError + gmap string value :=
  match kvs with
  | [] => inr ∅
  | [k] => inl (DanglingField k)
  | _ => extractLoop kvs ∅
  end.

Record Clock : Type := mkClock { Now : Z }.

Record entry : Type := mkEntry {
  time : Z;
  event : string;
  kvs : gmap string value
}.

Record MemoryWriter : Type := mkWriter {
  wclock : Clock;
  topic : string;
  entries : list entry
}.

(** A [MemoryJournal].  Its [writers] slice holds pointers: the writers
    live in the list below and a [*MemoryWriter] is an index into it, so
    the [Writer] that [Topic] returns and the element of the slice are the
    same object. *)
Record MemoryJournal : Type := mkJournal {
  jclock : Clock;
  topics : gset string;
  writers : list MemoryWriter
}.

Definition NewInMemoryJournal (clk : Clock) : MemoryJournal :=
  {| jclock := clk; topics := ∅; writers := [] |}.

Definition Topic (mj : MemoryJournal) (t : string) : outcome nat * MemoryJournal :=
  if bool_decide (t ∈ topics mj) then
    (Panic "duplicate topics developer error", mj)
  else
    let mr := {| wclock := jclock mj; topic := t; entries := [] |} in
    (Ok (length (writers mj)),
     {| jclock := jclock mj; topics := topics mj; writers := writers mj ++ [mr] |}).

Definition Write (mj : MemoryJournal) (w : nat) (ev : string) (args : list value)
  : outcome unit * MemoryJournal :=
  match writers mj !! w with
  | None => (Panic "invalid memory address or nil pointer dereference", mj)
  | Some mw =>
      match extractKeyValues args with
      | inl _ => (Panic "extractKeyValues", mj)
      | inr extracted =>
          let ent := {| time := Now (wclock mw); event := ev; kvs := extracted |} in
          let mw' := {| wclock := wclock mw; topic := topic mw;
                        entries := entries mw ++ [ent] |} in
          (Ok tt, {| jclock := jclock mj; topics := topics mj;
                     writers := <[w := mw']> (writers mj) |})
      end
  end.

(** The journals a program can hold: made by [NewInMemoryJournal] and
    changed only through [Topic] and [Write]. *)
Inductive reachable : MemoryJournal -> Prop :=
  | reach_new clk : reachable (NewInMemoryJournal clk)
  | reach_topic mj t : reachable mj -> reachable (Topic mj t).2
  | reach_write mj w ev args : reachable mj -> reachable (Write mj w ev args).2.

End Journal.

(** ** The scenarios of [TestMessageQueuePolicy] *)

Module PolicyScenario.
Import Types Message.

Definition alice : Address := "alice".
Definition bob : Address := "bob".

Definition fromAlice (nonce : N) : SignedMessage := {| From := alice; Nonce := nonce |}.
Definition fromBob (nonce : N) : SignedMessage := {| From := bob; Nonce := nonce |}.

(** The builder as message provider: the message list behind each CID. *)
Definition messageLists : list (Cid * list SignedMessage) :=
  [ (0, []);
    (11, [fromAlice 1]);
    (12, [fromAlice 2]);
    (13, [fromAlice 3]);
    (14, [fromAlice 2; fromBob 1]) ].

Definition provider (c : Cid) : ext (list SignedMessage) :=
  match List.find (fun entry => N.eqb entry.1 c) messageLists with
  | Some entry => ExtOk entry.2
  | None => ExtErr "message list not found"
  end.

(** A block of the builder: its CID, ticket, height and message list. *)
Definition blockAt (c : Cid) (ticket : list N) (height : N) (msgs : Cid) : Block :=
  {| blockCid := c; Ticket := ticket; Parents_ := [1]; Height_ := height;
     ParentWeight_ := 0; Messages := msgs; MessageReceipts := 0; StateRoot := 0 |}.

Definition enqueueAll (entries : list (SignedMessage * N)) : outcome Queue :=
  foldl (fun acc entry => obind acc (fun q => Enqueue q entry.1 entry.2))
        (Ok NewQueue) entries.

Definition queueOf (entries : list (SignedMessage * N)) : Queue :=
  match enqueueAll entries with
  | Ok q => q
  | _ => NewQueue
  end.

(** The policy of the tests: [NewMessageQueuePolicy(blocks, 10)]. *)
Definition policy : Queue -> list TipSet -> list TipSet -> outcome Queue :=
  HandleNewHead provider 10.

Definition twoSenders : Queue :=
  queueOf [(fromAlice 1, 100); (fromBob 1, 200)].

Definition threeFromAlice : Queue :=
  queueOf [(fromAlice 1, 100); (fromAlice 2, 101); (fromAlice 3, 102)].

Definition aliceAndBob (bobStamp : N) : Queue :=
  queueOf [(fromAlice 1, 100); (fromAlice 2, 101); (fromAlice 3, 102);
           (fromBob 1, bobStamp)].

(** The two sibling blocks of "removes sequential messages in peer blocks":
    the block with the smaller ticket has the larger CID. *)
Definition peer1 (ticket : list N) : Block := blockAt 9 ticket 101 11.
Definition peer2 (ticket : list N) : Block := blockAt 8 ticket 101 12.

Definition tipsetOf (blocks : list Block) : TipSet :=
  match NewTipSet blocks with
  | Ok ts => ts
  | _ => UndefTipSet
  end.

End PolicyScenario.

(** ** A small chain, used to run the syncer *)

Module SyncerScenario.
Import Types Chain.

(** A genesis block and two sibling blocks [blockA] and [blockB] on it. *)
Definition genesisBlock : Block :=
  {| blockCid := 1; Ticket := [0]; Parents_ := []; Height_ := 0; ParentWeight_ := 0;
     Messages := 0; MessageReceipts := 0; StateRoot := 0 |}.

Definition blockA : Block :=
  {| blockCid := 2; Ticket := [1]; Parents_ := [1]; Height_ := 1; ParentWeight_ := 0;
     Messages := 0; MessageReceipts := 0; StateRoot := 0 |}.

Definition blockB : Block :=
  {| blockCid := 3; Ticket := [2]; Parents_ := [1]; Height_ := 1; ParentWeight_ := 0;
     Messages := 0; MessageReceipts := 0; StateRoot := 0 |}.

(** A store that holds only the genesis tipset, which is its head. *)
Definition storeGenesis : Store :=
  {| tipSets := {[ [1] := {| TipSetStateRoot := 100; TipSetOf := [genesisBlock] |} ]};
     head := [1] |}.

(** A store that also holds the tipset of [blockA], which is its head. *)
Definition storeWithA : Store :=
  {| tipSets := <[ [2] := {| TipSetStateRoot := 101; TipSetOf := [blockA] |} ]>
                  (tipSets storeGenesis);
     head := [2] |}.

(** A third sibling, and a store that holds the tipsets of [blockA] and of
    [blockC], two candidates of one block each for the parents and height
    of [blockB]. *)
Definition blockC : Block :=
  {| blockCid := 4; Ticket := [3]; Parents_ := [1]; Height_ := 1; ParentWeight_ := 0;
     Messages := 0; MessageReceipts := 0; StateRoot := 0 |}.

Definition storeWithAC : Store :=
  {| tipSets := <[ [4] := {| TipSetStateRoot := 102; TipSetOf := [blockC] |} ]>
                  (tipSets storeWithA);
     head := [2] |}.

Definition syncerWithAC : Syncer :=
  {| chainStore := storeWithAC; badTipSets := ∅; calls := [] |}.

Definition syncerGenesis : Syncer :=
  {| chainStore := storeGenesis; badTipSets := ∅; calls := [] |}.

Definition syncerWithA : Syncer :=
  {| chainStore := storeWithA; badTipSets := ∅; calls := [] |}.

(** A peer announces the tipset of [blockB]. *)
Definition announceB : ChainInfo :=
  {| Peer := "peer"; Head := [3]; CIHeight := 1 |}.

(** Collaborators: a fetcher that returns the one tipset of [blockB], one
    that returns nothing, a state evaluator that accepts every tipset, one
    that rejects tipsets of more than one block, one that rejects every
    tipset, and a chain selector that prefers the tipset with more blocks. *)
Definition fetchB (k : TipSetKey) (peer : string) (done : TipSet -> outcome bool)
  : ext (list TipSet) := ExtOk [[blockB]].

Definition fetchNothing (k : TipSetKey) (peer : string) (done : TipSet -> outcome bool)
  : ext (list TipSet) := ExtOk [].

Definition acceptAll (ts : TipSet) (msgs : list (list SignedMessage))
           (rcpts : list (list MessageReceipt)) (ancestors : list TipSet)
           (parentWeight : N) (stateID : Cid) : ext Cid :=
  ExtOk (200 + N.of_nat (Len ts)).

Definition rejectWide (ts : TipSet) (msgs : list (list SignedMessage))
           (rcpts : list (list MessageReceipt)) (ancestors : list TipSet)
           (parentWeight : N) (stateID : Cid) : ext Cid :=
  if (1 <? Len ts)%nat then ExtErr "invalid state transition"
  else ExtOk (200 + N.of_nat (Len ts)).

Definition rejectAll (ts : TipSet) (msgs : list (list SignedMessage))
           (rcpts : list (list MessageReceipt)) (ancestors : list TipSet)
           (parentWeight : N) (stateID : Cid) : ext Cid :=
  ExtErr "invalid state transition".

Definition moreBlocks (a b : TipSet) (aStateID bStateID : Cid) : ext bool :=
  ExtOk (Len b <? Len a)%nat.

Definition weightZero (ts : TipSet) (stRoot : Cid) : ext N := ExtOk 0.
Definition noMessages (c : Cid) : ext (list SignedMessage) := ExtOk [].
Definition noReceipts (c : Cid) : ext (list MessageReceipt) := ExtOk [].
Definition noAncestors (ts : TipSet) (st : Store) (h : Z) : ext (list TipSet) := ExtOk [].

(** The syncer over these collaborators, for a fetcher and an evaluator. *)
Definition handle fetcher evaluator : ChainInfo -> bool -> M unit :=
  HandleNewTipSet fetcher evaluator moreBlocks weightZero noMessages noReceipts
                  noAncestors 1%Z.

End SyncerScenario.

(** ** The chain builder of the tests *)

Module Builder.

(** The block of this version of the package: it carries its messages and
    receipts themselves. *)
Record Block : Type := mkBlock {
  Ticket : list N;
  Miner : Types.Address;
  ParentWeight : N;
  Parents : Types.TipSetKey;
  Height : N;
  Messages : list Types.SignedMessage;
  MessageReceipts : list Types.MessageReceipt;
  StateRoot : Types.Cid;
  Timestamp : N
}.

(** The operations [BuildToTip] applies to a tipset, which it reads as the
    sequence of its blocks. *)
Definition TipSet : Type := list Block.

Definition uint64 (n : N) : N := n mod 2 ^ 64.

(** [binary.BigEndian.PutUint64] into a buffer of [binary.Size(seq)] = 8
    bytes. *)
Definition PutUint64 (v : N) : list N :=
  [ N.land (N.shiftr v 56) 255; N.land (N.shiftr v 48) 255;
    N.land (N.shiftr v 40) 255; N.land (N.shiftr v 32) 255;
    N.land (N.shiftr v 24) 255; N.land (N.shiftr v 16) 255;
    N.land (N.shiftr v 8) 255; N.land v 255 ].

(** The methods of [BlockBuilder], as a [build] function calls them. *)
Inductive buildOp : Type :=
  | SetTicket (ticket : list N)
  | SetTimestamp (timestamp : N)
  | IncHeight (nullBlocks : N)
  | AddMessage (msg : Types.SignedMessage) (rcpt : Types.MessageReceipt).

Definition applyOp (b : Block) (op : buildOp) : Block :=
  match op with
  | SetTicket ticket =>
      {| Ticket := ticket; Miner := Miner b; ParentWeight := ParentWeight b;
         Parents := Parents b; Height := Height b; Messages := Messages b;
         MessageReceipts := MessageReceipts b; StateRoot := StateRoot b;
         Timestamp := Timestamp b |}
  | SetTimestamp timestamp =>
      {| Ticket := Ticket b; Miner := Miner b; ParentWeight := ParentWeight b;
         Parents := Parents b; Height := Height b; Messages := Messages b;
         MessageReceipts := MessageReceipts b; StateRoot := StateRoot b;
         Timestamp := timestamp |}
  | IncHeight nullBlocks =>
      {| Ticket := Ticket b; Miner := Miner b; ParentWeight := ParentWeight b;
         Parents := Parents b; Height := uint64 (Height b + nullBlocks);
         Messages := Messages b; MessageReceipts := MessageReceipts b;
         StateRoot := StateRoot b; Timestamp := Timestamp b |}
  | AddMessage msg rcpt =>
      {| Ticket := Ticket b; Miner := Miner b; ParentWeight := ParentWeight b;
         Parents := Parents b; Height := Height b; Messages := Messages b ++ [msg];
         MessageReceipts := MessageReceipts b ++ [rcpt]; StateRoot := StateRoot b;
         Timestamp := Timestamp b |}
  end.

(** The [Builder]: the miner address, the counter for unique tickets and
    the blocks built so far, by CID. *)
Record Builder : Type := mkBuilder {
  minerAddress : Types.Address;
  seq : N;
  blocks : gmap Types.Cid Block
}.

Definition NewBuilder (miner : Types.Address) : Builder :=
  {| minerAddress := miner; seq := 0; blocks := ∅ |}.

Section WithHashes.

(** [Block.Cid], a hash of the block, and the state builder of the
    [Builder], which may fail. *)
Variable Cid : Block -> Types.Cid.
Variable ComputeStateRoot : Block -> ext Types.Cid.

Definition Key (ts : TipSet) : Types.TipSetKey := Types.NewTipSetKey (map Cid ts).

(** The loop that sums the weight of the parents, on [types.Uint64]. *)
Definition sumParentWeight (parent : TipSet) : N :=
  foldl (fun parentWeight p => uint64 (parentWeight + uint64 (ParentWeight p + 1)))
        0 parent.

(** [BuildToTip].  [build] is [None] for a nil function.  The result is
    [None] when [require.NoError] stops the test. *)
Definition BuildToTip (f : Builder) (parent : TipSet) (build : option (list buildOp))
  : option (Block * Builder) :=
  let ticket := PutUint64 (seq f) in
  let seq' := uint64 (seq f + 1) in
  let parentWeight := sumParentWeight parent in
  let height :=
    match parent with
    | [] => 0
    | p0 :: _ => uint64 (Height p0 + 1)
    end in
  let b := {| Ticket := ticket; Miner := minerAddress f; ParentWeight := parentWeight;
              Parents := Key parent; Height := height; Messages := [];
              MessageReceipts := []; StateRoot := Types.cid_Undef; Timestamp := 0 |} in
  let b := match build with
           | Some ops => foldl applyOp b ops
           | None => b
           end in
  match ComputeStateRoot b with
  | ExtErr _ => None
  | ExtOk root =>
      let b := {| Ticket := Ticket b; Miner := Miner b; ParentWeight := ParentWeight b;
                  Parents := Parents b; Height := Height b; Messages := Messages b;
                  MessageReceipts := MessageReceipts b; StateRoot := root;
                  Timestamp := Timestamp b |} in
      Some (b, {| minerAddress := minerAddress f; seq := seq';
                  blocks := <[Cid b := b]> (blocks f) |})
  end.

(** [BuildTo]: a child of the singleton tipset of [parent], or of no
    tipset when [parent] is nil. *)
Definition BuildTo (f : Builder) (parent : option Block) (build : option (list buildOp))
  : option (Block * Builder) :=
  let tip := match parent with
             | Some p => [p]
             | None => []
             end in
  BuildToTip f tip build.

(** [GetBlocks]: the blocks of [cids] in order, or the first CID that is
    not known. *)
Fixpoint GetBlocks (f : Builder) (cids : list Types.Cid) : Types.Cid + list Block :=
  match cids with
  | [] => inr []
  | c :: rest =>
      match blocks f !! c with
      | Some block =>
          match GetBlocks f rest with
          | inr ret => inr (block :: ret)
          | inl missing => inl missing
          end
      | None => inl c
      end
  end.

(** Building a line of [n] blocks with [BuildTo], each on the one before,
    and building one block on each tipset of a list. *)
Fixpoint buildLine (f : Builder) (last : option Block) (n : nat)
  : option (list Block * Builder) :=
  match n with
  | O => Some ([], f)
  | S n' =>
      match BuildTo f last None with
      | None => None
      | Some (b, f') =>
          match buildLine f' (Some b) n' with
          | None => None
          | Some (bs, f'') => Some (b :: bs, f'')
          end
      end
  end.

Fixpoint buildEach (f : Builder) (parents : list TipSet) : option (list Block * Builder) :=
  match parents with
  | [] => Some ([], f)
  | parent :: rest =>
      match BuildToTip f parent None with
      | None => None
      | Some (b, f') =>
          match buildEach f' rest with
          | None => None
          | Some (bs, f'') => Some (b :: bs, f'')
          end
      end
  end.

End WithHashes.

(** The value big-endian bytes spell. *)
Definition beValue (bytes : list N) : N :=
  foldl (fun acc b => acc * 256 + b) 0 bytes.

End Builder.

(** * A run of the builder

    Stand-ins for the two hashes: the CID of a block is read off its
    ticket, the state root off the number of parents and messages. *)

Module BuilderScenario.
Import Builder.

Definition cidOf (b : Block) : Types.Cid := beValue (Ticket b) + 1.

Definition fakeRoot (b : Block) : ext Types.Cid :=
  ExtOk (1000 + N.of_nat (length (Parents b)) + N.of_nat (length (Messages b))).

Definition miner : Types.Address := "miner"%string.

Definition noBlock : Block :=
  {| Ticket := []; Miner := miner; ParentWeight := 0; Parents := []; Height := 0;
     Messages := []; MessageReceipts := []; StateRoot := Types.cid_Undef;
     Timestamp := 0 |}.

(** Two blocks without parents. *)
Definition siblings : option (list Block * Builder) :=
  buildEach cidOf fakeRoot (NewBuilder miner) [[]; []].

Definition siblingBlocks : list Block :=
  match siblings with Some (bs, _) => bs | None => [] end.

Definition siblingBuilder : Builder :=
  match siblings with Some (_, f) => f | None => NewBuilder miner end.

(** A block on the two, with a message and two null blocks before it. *)
Definition childOps : list buildOp :=
  [ AddMessage {| Types.From := miner; Types.Nonce := 0 |} {| Types.ExitCode := 0 |};
    IncHeight 2 ].

Definition child : option (Block * Builder) :=
  BuildToTip cidOf fakeRoot siblingBuilder siblingBlocks (Some childOps).

Definition childBlock : Block :=
  match child with Some (b, _) => b | None => noBlock end.

Definition childBuilder : Builder :=
  match child with Some (_, f) => f | None => siblingBuilder end.

(** A line of three blocks. *)
Definition line : option (list Block * Builder) :=
  buildLine cidOf fakeRoot (NewBuilder miner) None 3.

Definition lineBlocks : list Block :=
  match line with Some (bs, _) => bs | None => [] end.

Definition lineBuilder : Builder :=
  match line with Some (_, f) => f | None => NewBuilder miner end.

Definition lineThird : Block := default noBlock (lineBlocks !! 2%nat).

End BuilderScenario.

(** * Notions for the journal *)

Module JournalNotions.
Import Journal.

(** The arguments a caller passes to [Write] for a list of keys and
    values. *)
Definition keyValues (pairs : list (string * value)) : list value :=
  flat_map (fun p => [VString p.1; p.2]) pairs.

Definition isString (v : value) : bool :=
  match v with
  | VString _ => true
  | _ => false
  end.

(** A journal and what it has become after any number of calls of [Topic]
    and [Write]. *)
Inductive later : MemoryJournal -> MemoryJournal -> Prop :=
  | later_refl mj : later mj mj
  | later_topic mj mj' t : later mj mj' -> later mj (Topic mj' t).2
  | later_write mj mj' w ev args : later mj mj' -> later mj (Write mj' w ev args).2.

End JournalNotions.

(** ** Further notions on computations of the syncer *)

Module SyncerNotions.
Import Types Chain.

(** A computation that keeps the store sound and removes nothing from
    it, whatever it returns. *)
Definition preservesStore {A} (m : M A) : Prop :=
  forall s, sound s ->
    sound (m s).2 /\
    (forall k, stored (chainStore s) k -> stored (chainStore (m s).2) k).

(** The tipset a call to a collaborator is about. *)
Definition subject (c : call) : TipSet :=
  match c with
  | CallRunStateTransition ts => ts
  | CallIsHeavier a _ _ _ _ => a
  end.

(** A computation that only adds calls to the log, all of them about
    tipsets that satisfy [P]. *)
Definition asksOnly (P : TipSet -> Prop) {A} (m : M A) : Prop :=
  forall s, exists l, calls (m s).2 = calls s ++ l /\ Forall (fun c => P (subject c)) l.

(** The state of a syncer with its bad-tipset cache replaced. *)
Definition withBadTipSets (s : Syncer) (bad : badTipSetCache) : Syncer :=
  {| chainStore := chainStore s; badTipSets := bad; calls := calls s |}.

(** [Climbs IsHeavier asked h0 h]: the head [h] is reached from the head
    [h0] by moves, each from the head at that moment to the key of a tipset
    [next] that the chain selector, asked in one of the calls [asked],
    deemed heavier than a tipset [b] whose key is the head at that
    moment. *)
Inductive Climbs (IsHeavier : TipSet -> TipSet -> Cid -> Cid -> ext bool)
          (asked : list call) (h0 : TipSetKey) : TipSetKey -> Prop :=
  | Climbs_refl : Climbs IsHeavier asked h0 h0
  | Climbs_step h next b aStateID bStateID :
      Climbs IsHeavier asked h0 h ->
      Key b = h ->
      CallIsHeavier next b aStateID bStateID true ∈ asked ->
      IsHeavier next b aStateID bStateID = ExtOk true ->
      Climbs IsHeavier asked h0 (Key next).

(** A computation that, on a sound syncer, only adds calls to the log and
    moves the head only by such moves, asked among the calls it adds. *)
Definition climbs (IsHeavier : TipSet -> TipSet -> Cid -> Cid -> ext bool)
           {A} (m : M A) : Prop :=
  forall s, sound s ->
    exists l,
      calls (m s).2 = calls s ++ l /\
      Climbs IsHeavier l (head (chainStore s)) (head (chainStore (m s).2)).

End SyncerNotions.

(** * Properties of the syncer *)

Module SyncerFacts.
Import Types Chain.
Local Open Scope syncer_scope.

(** ** Reading a successful run backwards through the monad *)

Lemma bind_Ok {A B} (m : M A) (k : A -> M B) s b s' :
  bind m k s = (Ok b, s') ->
  exists a s1, m s = (Ok a, s1) /\ k a s1 = (Ok b, s').
Proof.
  unfold bind. destruct (m s) as [[a | e | msg] s1]; intros H; try discriminate.
  exists a, s1. split; [reflexivity | exact H].
Qed.

Lemma ret_Ok {A} (a b : A) s s' : ret a s = (Ok b, s') -> b = a /\ s' = s.
Proof. unfold ret. intros H. inversion H. auto. Qed.

Lemma lift_Ok {A} (r : outcome A) a s s' : lift r s = (Ok a, s') -> r = Ok a /\ s' = s.
Proof. unfold lift. intros H. inversion H. auto. Qed.

Lemma readStore_Ok {A} (f : Store -> outcome A) a s s' :
  readStore f s = (Ok a, s') -> f (chainStore s) = Ok a /\ s' = s.
Proof. unfold readStore. intros H. inversion H. auto. Qed.

Lemma writeStore_Ok (f : Store -> outcome Store) u s s' :
  writeStore f s = (Ok u, s') ->
  exists st, f (chainStore s) = Ok st /\
             s' = {| chainStore := st; badTipSets := badTipSets s; calls := calls s |}.
Proof.
  unfold writeStore. destruct (f (chainStore s)) as [st | e | msg]; intros H;
    try discriminate.
  inversion H. eauto.
Qed.

Lemma record_Ok c u s s' :
  record c s = (Ok u, s') ->
  s' = {| chainStore := chainStore s; badTipSets := badTipSets s;
          calls := calls s ++ [c] |}.
Proof. unfold record. intros H. inversion H. reflexivity. Qed.

(** Steps a hypothesis [H : m s = (Ok _, _)] through the binds of [m]. *)
Ltac leaf_ok H :=
  first
    [ apply readStore_Ok in H; destruct H as [H ?]; subst
    | apply lift_Ok in H; destruct H as [H ?]; subst
    | apply ret_Ok in H; destruct H as [? ?]; subst
    | apply record_Ok in H; subst ].

Ltac step_ok H :=
  let a := fresh "a" in
  let s1 := fresh "s" in
  let H1 := fresh "Hstep" in
  apply bind_Ok in H; destruct H as (a & s1 & H1 & H); try leaf_ok H1.

(** ** Computations that never return a given error *)

Lemma never_ret e {A} (a : A) : never e (ret a).
Proof. intros s. discriminate. Qed.

Lemma never_lift e {A} (r : outcome A) : r <> Err e -> never e (lift r).
Proof. intros H s. exact H. Qed.

Lemma never_bind e {A B} (m : M A) (k : A -> M B) :
  never e m -> (forall a, never e (k a)) -> never e (bind m k).
Proof.
  intros Hm Hk s. unfold bind. specialize (Hm s).
  destruct (m s) as [[a | e' | msg] s1]; simpl in *.
  - apply Hk.
  - intros E. apply Hm. inversion E. reflexivity.
  - discriminate.
Qed.

Lemma never_readStore e {A} (f : Store -> outcome A) :
  (forall st, f st <> Err e) -> never e (readStore f).
Proof. intros H s. apply H. Qed.

Lemma never_writeStore e (f : Store -> outcome Store) :
  (forall st, f st <> Err e) -> never e (writeStore f).
Proof.
  intros H s. unfold writeStore. specialize (H (chainStore s)).
  destruct (f (chainStore s)); simpl; congruence.
Qed.

Lemma never_record e c : never e (record c).
Proof. intros s. discriminate. Qed.

Lemma sentinel_not_external e m : sentinel e -> e <> ErrExternal m.
Proof. intros [-> | [-> | ->]]; discriminate. Qed.

Lemma ofExt_not_sentinel {A} (r : ext A) e : sentinel e -> ofExt r <> Err e.
Proof.
  intros He. destruct r; simpl; [discriminate |].
  intros E. inversion E. eapply sentinel_not_external; eauto.
Qed.

Lemma GetTipSet_not_sentinel e st k : sentinel e -> GetTipSet st k <> Err e.
Proof.
  intros [-> | [-> | ->]]; unfold GetTipSet; destruct (tipSets st !! k); discriminate.
Qed.

Lemma GetTipSetStateRoot_not_sentinel e st k :
  sentinel e -> GetTipSetStateRoot st k <> Err e.
Proof.
  intros [-> | [-> | ->]]; unfold GetTipSetStateRoot; destruct (tipSets st !! k);
    discriminate.
Qed.

Lemma Height_not_sentinel e ts : sentinel e -> Height ts <> Err e.
Proof. intros [-> | [-> | ->]]; destruct ts; discriminate. Qed.

Lemma Parents_not_sentinel e ts : sentinel e -> Parents ts <> Err e.
Proof. intros [-> | [-> | ->]]; destruct ts; discriminate. Qed.

Lemma NewTipSet_not_sentinel e blocks : sentinel e -> NewTipSet blocks <> Err e.
Proof.
  intros [-> | [-> | ->]]; unfold NewTipSet; (destruct blocks; [discriminate |]);
    repeat match goal with |- context [if ?c then _ else _] => destruct c end;
    discriminate.
Qed.

Lemma SetHead_not_sentinel e st ts : sentinel e -> SetHead st ts <> Err e.
Proof.
  intros [-> | [-> | ->]]; unfold SetHead; destruct (HasTipSetAndState st (Key ts));
    discriminate.
Qed.

Lemma wrapf_not_sentinel {A} e msg (r : outcome A) : sentinel e -> wrapf msg r <> Err e.
Proof. intros [-> | [-> | ->]]; destruct r; discriminate. Qed.

Create HintDb sentinels.

#[local] Hint Resolve ofExt_not_sentinel GetTipSet_not_sentinel
  GetTipSetStateRoot_not_sentinel Height_not_sentinel Parents_not_sentinel
  NewTipSet_not_sentinel SetHead_not_sentinel wrapf_not_sentinel : sentinels.

Section WithCollaborators.

Variable FetchTipSets :
  TipSetKey -> string -> (TipSet -> outcome bool) -> ext (list TipSet).
Variable RunStateTransition :
  TipSet -> list (list SignedMessage) -> list (list MessageReceipt) ->
  list TipSet -> N -> Cid -> ext Cid.
Variable IsHeavier : TipSet -> TipSet -> Cid -> Cid -> ext bool.
Variable NewWeight : TipSet -> Cid -> ext N.
Variable LoadMessages : Cid -> ext (list SignedMessage).
Variable LoadReceipts : Cid -> ext (list MessageReceipt).
Variable GetRecentAncestors : TipSet -> Store -> Z -> ext (list TipSet).
Variable AncestorRoundsNeeded : Z.

Local Abbreviation syncOne :=
  (syncOne RunStateTransition IsHeavier NewWeight LoadMessages LoadReceipts
           GetRecentAncestors AncestorRoundsNeeded).
Local Abbreviation syncRound :=
  (syncRound RunStateTransition IsHeavier NewWeight LoadMessages LoadReceipts
             GetRecentAncestors AncestorRoundsNeeded).
Local Abbreviation syncLoop :=
  (syncLoop RunStateTransition IsHeavier NewWeight LoadMessages LoadReceipts
            GetRecentAncestors AncestorRoundsNeeded).
Local Abbreviation HandleNewTipSet :=
  (HandleNewTipSet FetchTipSets RunStateTransition IsHeavier NewWeight LoadMessages
                   LoadReceipts GetRecentAncestors AncestorRoundsNeeded).
Local Abbreviation gatherMessages := (gatherMessages LoadMessages LoadReceipts).
Local Abbreviation calculateParentWeight := (calculateParentWeight NewWeight).

Ltac never_tac :=
  repeat first
    [ apply never_ret
    | apply never_record
    | apply never_bind; [| intros ?]
    | apply never_readStore; intros ?
    | apply never_writeStore; intros ?
    | apply never_lift
    | solve [auto with sentinels]
    | discriminate
    | match goal with
      | |- never _ (if ?c then _ else _) => destruct c
      | |- never _ (match ?c with _ => _ end) => destruct c
      end ].

Lemma gatherMessages_not_sentinel e blocks :
  sentinel e -> gatherMessages blocks <> Err e.
Proof.
  intros He. induction blocks as [| blk rest IH]; simpl; [discriminate |].
  destruct (LoadMessages (Messages blk)) eqn:Em; simpl.
  - destruct (LoadReceipts (MessageReceipts blk)) eqn:Er; simpl.
    + destruct (gatherMessages rest); simpl; congruence.
    + destruct He as [-> | [-> | ->]]; discriminate.
  - destruct He as [-> | [-> | ->]]; discriminate.
Qed.

Lemma syncOne_never e gp p next : sentinel e -> never e (syncOne gp p next).
Proof.
  intros He. unfold Chain.syncOne, Chain.calculateParentWeight.
  never_tac; apply gatherMessages_not_sentinel; exact He.
Qed.

Lemma widen_never e ts : sentinel e -> never e (widen ts).
Proof.
  intros He. unfold widen, GetTipSetAndStatesByParentsAndHeight. never_tac.
Qed.

Lemma ancestorsFromStore_never e ts : sentinel e -> never e (ancestorsFromStore ts).
Proof. intros He. unfold ancestorsFromStore. never_tac. Qed.

Lemma syncRound_never e chain i ts gp p :
  sentinel e -> never e (syncRound chain i ts gp p).
Proof.
  intros He. unfold Chain.syncRound.
  apply never_bind.
  - destruct (i =? 0)%nat; [| apply never_ret].
    apply never_bind; [apply widen_never; exact He |].
    intros wts. destruct (Defined wts); [| apply never_ret].
    apply never_bind; [apply syncOne_never; exact He | intros; apply never_ret].
  - intros wts. destruct (negb (Defined wts) || (1 <? length chain)%nat);
      [| apply never_ret].
    intros s. pose proof (syncOne_never e gp p ts He s) as H.
    destruct (syncOne gp p ts s) as [[u | e' | msg] s1]; simpl in *;
      try discriminate.
    congruence.
Qed.

Lemma syncLoop_never e chain rest : sentinel e -> forall i gp p,
  never e (syncLoop chain i rest gp p).
Proof.
  intros He. induction rest as [| ts rest IH]; intros i gp p; simpl.
  - apply never_ret.
  - apply never_bind; [apply syncRound_never; exact He | intros _; apply IH].
Qed.

(** ** The length limit on untrusted chains *)

Lemma afterLengthCheck_never e ci :
  sentinel e ->
  never e
      (fetched <- readStore (fun st =>
                    ofExt (FetchTipSets (Head ci) (Peer ci) (stopAtKnownParents st)));;
       let chain := Reverse fetched in
       match chain with
       | [] => lift (Panic "runtime error: index out of range")
       | first :: _ =>
           ancestors <- ancestorsFromStore first;;
           syncLoop chain 0 chain ancestors.2 ancestors.1
       end).
Proof.
  intros He. apply never_bind.
  - apply never_readStore. intros st. apply ofExt_not_sentinel. exact He.
  - intros fetched. simpl. destruct (Reverse fetched) as [| first rest].
    + apply never_lift. discriminate.
    + apply never_bind; [apply ancestorsFromStore_never; exact He |].
      intros a. apply syncLoop_never. exact He.
Qed.

(** What [HandleNewTipSet] does once the head of the store is read. *)
Lemma HandleNewTipSet_unfold ci trusted s curHead curHeight :
  HasTipSetAndState (chainStore s) (Head ci) = false ->
  GetTipSet (chainStore s) (GetHead (chainStore s)) = Ok curHead ->
  Height curHead = Ok curHeight ->
  HandleNewTipSet ci trusted s =
  (if negb trusted && ExceedsUntrustedChainLength curHeight (CIHeight ci)
   then fail ErrNewChainTooLong else
   fetched <- readStore (fun st =>
                ofExt (FetchTipSets (Head ci) (Peer ci) (stopAtKnownParents st)));;
   let chain := Reverse fetched in
   match chain with
   | [] => lift (Panic "runtime error: index out of range")
   | first :: _ =>
       ancestors <- ancestorsFromStore first;;
       syncLoop chain 0 chain ancestors.2 ancestors.1
   end) s.
Proof.
  intros Hknown Hhead Hheight.
  unfold Chain.HandleNewTipSet, bind at 1, readStore at 1. rewrite Hknown.
  unfold bind at 1, readStore at 1. rewrite Hhead.
  unfold bind at 1, lift at 1. rewrite Hheight. reflexivity.
Qed.

Lemma ExceedsUntrustedChainLength_spec curHeight newHeight :
  ExceedsUntrustedChainLength curHeight newHeight = true <->
  uint64_add curHeight UntrustedChainHeightLimit < newHeight.
Proof. unfold ExceedsUntrustedChainLength. simpl. apply N.ltb_lt. Qed.

Lemma uint64_add_small a b : a + b < 2 ^ 64 -> uint64_add a b = a + b.
Proof. intros H. unfold uint64_add. apply N.mod_small. exact H. Qed.

(** C7. An untrusted call whose head is not in the store fails with
    [ErrNewChainTooLong] exactly when [ci.Height] is above
    [curHeight + 600], the sum being the one on [uint64]; where that sum
    does not leave [uint64] this is the comparison on numbers, a height
    of exactly [curHeight + 600] is not rejected, and a trusted call is
    never rejected for length. *)
Theorem untrusted_chain_length_limit ci s curHead curHeight :
  HasTipSetAndState (chainStore s) (Head ci) = false ->
  GetTipSet (chainStore s) (GetHead (chainStore s)) = Ok curHead ->
  Height curHead = Ok curHeight ->
  ((HandleNewTipSet ci false s).1 = Err ErrNewChainTooLong <->
   uint64_add curHeight 600 < CIHeight ci) /\
  (curHeight + 600 < 2 ^ 64 ->
   ((HandleNewTipSet ci false s).1 = Err ErrNewChainTooLong <->
    curHeight + 600 < CIHeight ci) /\
   (CIHeight ci = curHeight + 600 ->
    (HandleNewTipSet ci false s).1 <> Err ErrNewChainTooLong)) /\
  (HandleNewTipSet ci true s).1 <> Err ErrNewChainTooLong.
Proof.
  intros Hknown Hhead Hheight.
  assert (Hiff : (HandleNewTipSet ci false s).1 = Err ErrNewChainTooLong <->
                 uint64_add curHeight 600 < CIHeight ci).
  { rewrite (HandleNewTipSet_unfold ci false s curHead curHeight Hknown Hhead Hheight).
    simpl negb. rewrite andb_true_l.
    destruct (ExceedsUntrustedChainLength curHeight (CIHeight ci)) eqn:E.
    - apply ExceedsUntrustedChainLength_spec in E. split; [intros _; exact E | reflexivity].
    - split.
      + intros H. exfalso. refine (afterLengthCheck_never _ ci _ s H). right. left. reflexivity.
      + intros H. apply ExceedsUntrustedChainLength_spec in H. congruence. }
  split; [exact Hiff |]. split.
  - intros Hsmall. rewrite <- (uint64_add_small curHeight 600 Hsmall).
    split; [exact Hiff |].
    intros Heq H. apply Hiff in H. rewrite Heq in H. lia.
  - rewrite (HandleNewTipSet_unfold ci true s curHead curHeight Hknown Hhead Hheight).
    simpl negb. rewrite andb_false_l.
    apply afterLengthCheck_never. right. left. reflexivity.
Qed.

(** ** An empty fetch *)

(** C8. When the fetcher returns successfully with no tipset, the call
    reaches [chain[0]] and panics with an index out of range: no
    error is returned and the syncer is left as it was. *)
Theorem empty_fetch_panics ci trusted s curHead curHeight :
  HasTipSetAndState (chainStore s) (Head ci) = false ->
  GetTipSet (chainStore s) (GetHead (chainStore s)) = Ok curHead ->
  Height curHead = Ok curHeight ->
  negb trusted && ExceedsUntrustedChainLength curHeight (CIHeight ci) = false ->
  FetchTipSets (Head ci) (Peer ci) (stopAtKnownParents (chainStore s)) = ExtOk [] ->
  HandleNewTipSet ci trusted s = (Panic "runtime error: index out of range", s).
Proof.
  intros Hknown Hhead Hheight Hlen Hfetch.
  rewrite (HandleNewTipSet_unfold ci trusted s curHead curHeight Hknown Hhead Hheight).
  rewrite Hlen. unfold bind, readStore. rewrite Hfetch. reflexivity.
Qed.

(** ** The candidate [widen] merges with *)

Lemma widenMax_loop (l : list TipSetAndState) : forall init : TipSet,
  let step := fun (max : TipSet) (candidate : TipSetAndState) =>
    if (Len max <? Len (TipSetOf candidate))%nat then TipSetOf candidate else max in
  let m := foldl step init l in
  (Len init <= Len m)%nat /\
  (forall c, c ∈ l -> (Len (TipSetOf c) <= Len m)%nat) /\
  ((m = init /\ forall c, c ∈ l -> (Len (TipSetOf c) <= Len init)%nat) \/
   (exists i c, l !! i = Some c /\ TipSetOf c = m /\ (Len init < Len m)%nat /\
      forall j c', (j < i)%nat -> l !! j = Some c' -> (Len (TipSetOf c') < Len m)%nat)).
Proof.
  induction l as [| x l IH]; intros init; simpl.
  - split; [lia |]. split; [intros c Hc; inversion Hc |].
    left. split; [reflexivity | intros c Hc; inversion Hc].
  - destruct (Nat.ltb_spec (Len init) (Len (TipSetOf x))) as [Hlt | Hge].
    + destruct (IH (TipSetOf x)) as (Hle & Hall & Hcase). simpl in *.
      split; [lia |]. split.
      { intros c Hc. apply elem_of_cons in Hc as [-> | Hc]; auto. }
      right. destruct Hcase as [[Hm Hrest] | (i & c & Hi & Hc & Hlt' & Hbefore)].
      * exists 0%nat, x. repeat split; auto; [congruence | intros; lia].
      * exists (S i), c. repeat split; auto; [lia |].
        intros [| j] c' Hj Hc'; simpl in Hc'.
        -- inversion Hc'; subst. lia.
        -- apply (Hbefore j); [lia | exact Hc'].
    + destruct (IH init) as (Hle & Hall & Hcase). simpl in *.
      split; [lia |]. split.
      { intros c Hc. apply elem_of_cons in Hc as [-> | Hc]; auto. lia. }
      destruct Hcase as [[Hm Hrest] | (i & c & Hi & Hc & Hlt' & Hbefore)].
      * left. split; [exact Hm |].
        intros c Hc. apply elem_of_cons in Hc as [-> | Hc]; auto.
      * right. exists (S i), c. repeat split; auto.
        intros [| j] c' Hj Hc'; simpl in Hc'.
        -- inversion Hc'; subst. lia.
        -- apply (Hbefore j); [lia | exact Hc'].
Qed.

Lemma has_candidates st pk h :
  HasTipSetAndStatesWithParentsAndHeight st pk h = false ->
  GetTipSetAndStatesByParentsAndHeight st pk h = Ok [].
Proof.
  unfold HasTipSetAndStatesWithParentsAndHeight, GetTipSetAndStatesByParentsAndHeight.
  generalize (map snd (map_to_list (tipSets st))). intros l H. f_equal.
  induction l as [| x l IH]; simpl in *; [reflexivity |].
  apply orb_false_iff in H as [Hx Hl]. rewrite Hx. auto.
Qed.

(** C9. Among the candidates the store returns for the parents and height
    of [ts], [widen] merges [ts] with the first one, in the order of that
    list, whose number of blocks is the largest: no candidate has more
    blocks and every earlier candidate has strictly fewer. *)
Theorem widen_takes_first_largest ts s pk h first rest :
  Parents ts = Ok pk ->
  Height ts = Ok h ->
  GetTipSetAndStatesByParentsAndHeight (chainStore s) pk h = Ok (first :: rest) ->
  exists i c,
    (first :: rest) !! i = Some c /\
    (forall c', c' ∈ first :: rest -> (Len (TipSetOf c') <= Len (TipSetOf c))%nat) /\
    (forall j c', (j < i)%nat -> (first :: rest) !! j = Some c' ->
                  (Len (TipSetOf c') < Len (TipSetOf c))%nat) /\
    widenMax first (first :: rest) = TipSetOf c /\
    widen ts s =
    (obind (NewTipSet (unionBlocks ts (TipSetOf c))) (fun wts =>
       if bool_decide (Key wts = Key ts) || bool_decide (Key wts = Key (TipSetOf c))
       then Ok UndefTipSet else Ok wts), s).
Proof.
  intros Hp Hh Hcands.
  assert (Hsel : exists i c,
    (first :: rest) !! i = Some c /\
    (forall c', c' ∈ first :: rest -> (Len (TipSetOf c') <= Len (TipSetOf c))%nat) /\
    (forall j c', (j < i)%nat -> (first :: rest) !! j = Some c' ->
                  (Len (TipSetOf c') < Len (TipSetOf c))%nat) /\
    widenMax first (first :: rest) = TipSetOf c).
  { destruct (widenMax_loop (first :: rest) (TipSetOf first)) as (Hle & Hall & Hcase).
    fold (widenMax first (first :: rest)) in *.
    destruct Hcase as [[Hm Hrest] | (i & c & Hi & Hc & Hlt & Hbefore)].
    - exists 0%nat, first. rewrite Hm. repeat split; auto. intros; lia.
    - exists i, c. rewrite Hc. repeat split; auto. }
  destruct Hsel as (i & c & Hi & Hmax & Hbefore & Hm).
  exists i, c. repeat split; auto.
  unfold widen, bind, lift, readStore, ret. rewrite Hp, Hh.
  destruct (HasTipSetAndStatesWithParentsAndHeight (chainStore s) pk h) eqn:Hhas.
  - cbn [negb]. rewrite Hcands. cbn iota. rewrite Hm.
    destruct (NewTipSet (unionBlocks ts (TipSetOf c))) as [wts | e | msg]; simpl;
      try reflexivity.
    destruct (bool_decide (Key wts = Key ts) || bool_decide (Key wts = Key (TipSetOf c)));
      reflexivity.
  - apply has_candidates in Hhas. congruence.
Qed.

(** ** What a successful sync leaves in the store *)

Lemma stored_Has st k : HasTipSetAndState st k = true <-> stored st k.
Proof. unfold HasTipSetAndState, stored. apply bool_decide_eq_true. Qed.

Lemma stored_state_root st k :
  stored st k -> exists root, GetTipSetStateRoot st k = Ok root.
Proof.
  intros [tsas H]. unfold GetTipSetStateRoot. rewrite H. eauto.
Qed.

Lemma GetTipSet_stored st k ts : GetTipSet st k = Ok ts -> stored st k.
Proof.
  unfold GetTipSet, stored. destruct (tipSets st !! k); [eauto | discriminate].
Qed.

Lemma GetTipSet_Key st k ts :
  StoreConsistent st -> GetTipSet st k = Ok ts -> Key ts = k.
Proof.
  unfold GetTipSet. intros Hc H.
  destruct (tipSets st !! k) as [tsas |] eqn:E; [| discriminate].
  inversion H; subst. exact (Hc k tsas E).
Qed.

Lemma Put_stored st tsas st' :
  PutTipSetAndState st tsas = Ok st' ->
  head st' = head st /\
  stored st' (Key (TipSetOf tsas)) /\
  (forall k, stored st k -> stored st' k) /\
  (StoreConsistent st -> StoreConsistent st').
Proof.
  unfold PutTipSetAndState. intros H. inversion H; subst; clear H. simpl.
  unfold stored. simpl. repeat split.
  - rewrite lookup_insert_eq. eauto.
  - intros k Hk. destruct (decide (Key (TipSetOf tsas) = k)) as [Heq | Hne].
    + rewrite <- Heq, lookup_insert_eq. eauto.
    + rewrite lookup_insert_ne; auto.
  - intros Hc k t. unfold StoreConsistent in *. simpl.
    destruct (decide (Key (TipSetOf tsas) = k)) as [Heq | Hne].
    + rewrite <- Heq, lookup_insert_eq. intros E. inversion E; subst. reflexivity.
    + rewrite lookup_insert_ne; auto.
Qed.

Lemma SetHead_Ok st ts st' :
  SetHead st ts = Ok st' -> tipSets st' = tipSets st /\ head st' = Key ts.
Proof.
  unfold SetHead. destruct (HasTipSetAndState st (Key ts)); intros H;
    inversion H; auto.
Qed.

Lemma Selects_app h1 l1 h2 l2 h3 :
  Selects IsHeavier h1 l1 h2 -> Selects IsHeavier h2 l2 h3 ->
  Selects IsHeavier h1 (l1 ++ l2) h3.
Proof.
  induction 1; intros Hrest; simpl; auto.
  - apply Selects_head; auto.
  - eapply Selects_compare; eauto.
Qed.

Lemma calculateParentWeight_Ok p gp s w s' :
  calculateParentWeight p gp s = (Ok w, s') -> s' = s.
Proof.
  unfold Chain.calculateParentWeight.
  destruct (bool_decide (Key gp = Key UndefTipSet)); intros H.
  - leaf_ok H. reflexivity.
  - step_ok H. leaf_ok H. reflexivity.
Qed.

Lemma syncOne_Ok gp p next s u s' :
  syncOne gp p next s = (Ok u, s') ->
  sound s ->
  sound s' /\
  (forall k, stored (chainStore s) k -> stored (chainStore s') k) /\
  stored (chainStore s') (Key next) /\
  badTipSets s' = badTipSets s /\
  Selects IsHeavier (head (chainStore s)) [next] (head (chainStore s')).
Proof.
  intros H [Hcons Hhead]. unfold Chain.syncOne in H.
  step_ok H. inversion Hstep; subst; clear Hstep.
  unfold GetHead in H.
  destruct (bool_decide (head (chainStore s) = Key next)) eqn:Esame.
  - apply bool_decide_eq_true in Esame. leaf_ok H.
    repeat split; auto; [congruence |].
    apply Selects_head; [auto | constructor].
  - apply bool_decide_eq_false in Esame.
    do 4 step_ok H.
    step_ok H. apply calculateParentWeight_Ok in Hstep3. subst.
    do 2 step_ok H.
    step_ok H. simpl in H.
    do 3 step_ok H.
    step_ok H.
    assert (s0 = {| chainStore :=
                      {| tipSets := <[Key next := {| TipSetStateRoot := a5; TipSetOf := next |}]>
                                      (tipSets (chainStore s));
                         head := head (chainStore s) |};
                    badTipSets := badTipSets s;
                    calls := calls s ++ [CallRunStateTransition next] |}) as ->.
    { destruct (negb (Empty a9)); leaf_ok Hstep9; reflexivity. }
    clear Hstep9.
    do 2 step_ok H. simpl in H, Hstep7.
    set (st1 := {| tipSets := <[Key next := {| TipSetStateRoot := a5; TipSetOf := next |}]>
                                (tipSets (chainStore s));
                   head := head (chainStore s) |}) in *.
    assert (Hput : PutTipSetAndState (chainStore s)
                     {| TipSetStateRoot := a5; TipSetOf := next |} = Ok st1)
      by reflexivity.
    apply Put_stored in Hput. simpl in Hput.
    destruct Hput as (_ & Hnext1 & Hmono1 & Hcons1). specialize (Hcons1 Hcons).
    pose proof (GetTipSet_Key _ _ _ Hcons1 Hstep7) as Hkey.
    assert (Hheavy : IsHeavier next a8 a7 a10 = ExtOk a11).
    { destruct (IsHeavier next a8 a7 a10); simpl in Hstep9; congruence. }
    assert (Hne : Key next <> head (chainStore s)) by congruence.
    destruct a11.
    + apply writeStore_Ok in H. destruct H as (st2 & Hset & ->).
      simpl in Hset. apply SetHead_Ok in Hset as [Hts Hhd2]. simpl.
      unfold sound, stored, StoreConsistent. simpl. rewrite Hts, Hhd2.
      repeat split; auto.
      eapply Selects_compare with (r := true); eauto. constructor.
    + leaf_ok H. unfold sound. simpl.
      split; [split; [exact Hcons1 | apply Hmono1, Hhead] |].
      split; [exact Hmono1 |]. split; [exact Hnext1 |]. split; [reflexivity |].
      eapply Selects_compare with (r := false); eauto. constructor.
Qed.

Lemma readonly_ret {A} (a : A) : readonly (ret a).
Proof. intros s. reflexivity. Qed.

Lemma readonly_lift {A} (r : outcome A) : readonly (lift r).
Proof. intros s. reflexivity. Qed.

Lemma readonly_readStore {A} (f : Store -> outcome A) : readonly (readStore f).
Proof. intros s. reflexivity. Qed.

Lemma readonly_bind {A B} (m : M A) (k : A -> M B) :
  readonly m -> (forall a, readonly (k a)) -> readonly (bind m k).
Proof.
  intros Hm Hk s. unfold bind. specialize (Hm s).
  destruct (m s) as [[a | e | msg] s1]; simpl in *; subst; auto.
  apply Hk.
Qed.

Ltac readonly_tac :=
  repeat first
    [ apply readonly_ret
    | apply readonly_lift
    | apply readonly_readStore
    | apply readonly_bind; [| intros ?]
    | match goal with
      | |- readonly (if ?c then _ else _) => destruct c
      | |- readonly (match ?c with _ => _ end) => destruct c
      end ].

Lemma widen_readonly ts : readonly (widen ts).
Proof. unfold widen. readonly_tac. Qed.

Lemma ancestorsFromStore_readonly ts : readonly (ancestorsFromStore ts).
Proof. unfold ancestorsFromStore. readonly_tac. Qed.

Lemma readonly_Ok {A} (m : M A) s a s' :
  readonly m -> m s = (Ok a, s') -> s' = s /\ (m s).1 = Ok a.
Proof. intros Hm H. specialize (Hm s). rewrite H in *. simpl in *. auto. Qed.

(** A round of the loop that returns was a successful [syncOne], when
    widening did not apply or gave nothing. *)
Lemma syncOne_or_poison_Ok chain i gp p ts s u s' :
  (match syncOne gp p ts s with
   | (Err e, s1) => (poison (drop i chain);;; fail e) s1
   | other => other
   end) = (Ok u, s') ->
  syncOne gp p ts s = (Ok u, s').
Proof.
  destruct (syncOne gp p ts s) as [[u' | e | msg] s1]; auto; discriminate.
Qed.

Lemma syncRound_later_Ok chain i ts gp p s u s' :
  i <> 0%nat ->
  syncRound chain i ts gp p s = (Ok u, s') ->
  syncOne gp p ts s = (Ok u, s').
Proof.
  intros Hi H. unfold Chain.syncRound in H.
  destruct (Nat.eqb_spec i 0) as [? | _]; [contradiction |].
  step_ok H. inversion Hstep; subst a. simpl in H.
  eapply syncOne_or_poison_Ok; exact H.
Qed.

Lemma syncLoop_later_Ok chain rest : forall i gp p s u s',
  i <> 0%nat ->
  syncLoop chain i rest gp p s = (Ok u, s') ->
  sound s ->
  sound s' /\
  (forall k, stored (chainStore s) k -> stored (chainStore s') k) /\
  (forall t, t ∈ rest -> stored (chainStore s') (Key t)) /\
  Selects IsHeavier (head (chainStore s)) rest (head (chainStore s')).
Proof.
  induction rest as [| ts rest IH]; intros i gp p s u s' Hi H Hsound; simpl in H.
  - leaf_ok H. repeat split; auto; [apply Hsound | apply Hsound | | constructor].
    intros t Ht. inversion Ht.
  - step_ok H. apply syncRound_later_Ok in Hstep; [| exact Hi].
    apply syncOne_Ok in Hstep; [| exact Hsound].
    destruct Hstep as (Hsound1 & Hmono1 & Hts & _ & Hsel1).
    apply IH in H; [| lia | exact Hsound1].
    destruct H as (Hsound2 & Hmono2 & Hrest & Hsel2).
    split; [exact Hsound2 |]. split; [auto |]. split.
    + intros t Ht. apply elem_of_cons in Ht as [-> | Ht]; auto.
    + apply (Selects_app _ [ts] _ rest _ Hsel1 Hsel2).
Qed.

(** The first round and the rest of the loop, for a chain [first :: rest]
    whose first tipset widens to [wts]. *)
Lemma syncLoop_first_Ok first rest gp p wts s u s' :
  (widen first s).1 = Ok wts ->
  syncLoop (first :: rest) 0 (first :: rest) gp p s = (Ok u, s') ->
  sound s ->
  sound s' /\
  (forall k, stored (chainStore s) k -> stored (chainStore s') k) /\
  (forall t, t ∈ syncedTipSets (first :: rest) wts -> stored (chainStore s') (Key t)) /\
  Selects IsHeavier (head (chainStore s)) (syncedTipSets (first :: rest) wts)
          (head (chainStore s')).
Proof.
  intros Hw H Hsound. simpl in H.
  apply bind_Ok in H as (u1 & s3 & Hround & H).
  unfold Chain.syncRound in Hround. simpl in Hround.
  apply bind_Ok in Hround as (w & s2 & Hwiden & Hround).
  apply bind_Ok in Hwiden as (w0 & s0 & Hw0 & Hwiden).
  destruct (readonly_Ok _ _ _ _ (widen_readonly first) Hw0) as [-> Hw'].
  rewrite Hw in Hw'. inversion Hw'; subst w0; clear Hw' Hw0.
  unfold syncedTipSets.
  assert (Hwide : sound s2 /\
             (forall k, stored (chainStore s) k -> stored (chainStore s2) k) /\
             (forall t, t ∈ (if Defined wts then [wts] else []) ->
                        stored (chainStore s2) (Key t)) /\
             Selects IsHeavier (head (chainStore s))
                     (if Defined wts then [wts] else []) (head (chainStore s2)) /\
             w = wts).
  { destruct (Defined wts).
    - apply bind_Ok in Hwiden as (u0 & s1 & Hone & Hwiden).
      apply ret_Ok in Hwiden as [-> ->].
      apply syncOne_Ok in Hone; [| exact Hsound].
      destruct Hone as (Hs1 & Hm1 & Hk1 & _ & Hsel1).
      repeat split; auto; try apply Hs1.
      intros t Ht. apply list_elem_of_singleton in Ht as ->. exact Hk1.
    - apply ret_Ok in Hwiden as [-> ->].
      repeat split; auto; try apply Hsound; [| constructor].
      intros t Ht. inversion Ht. }
  destruct Hwide as (Hsound1 & Hmono1 & Hstored1 & Hsel1 & ->).
  clear Hwiden. simpl length.
  destruct (negb (Defined wts) || (1 <? S (length rest))%nat) eqn:Hcond.
  - apply (syncOne_or_poison_Ok (first :: rest) 0) in Hround.
    apply syncOne_Ok in Hround; [| exact Hsound1].
    destruct Hround as (Hsound2 & Hmono2 & Hfirst & _ & Hsel2).
    apply syncLoop_later_Ok in H; [| lia | exact Hsound2].
    destruct H as (Hsound3 & Hmono3 & Hrest & Hsel3).
    split; [exact Hsound3 |]. split; [auto |]. split.
    + intros t Ht. apply elem_of_app in Ht as [Ht | Ht]; [auto |].
      apply elem_of_cons in Ht as [-> | Ht]; auto.
    + eapply Selects_app; [exact Hsel1 |].
      apply (Selects_app _ [first] _ rest _ Hsel2 Hsel3).
  - apply ret_Ok in Hround as [_ ->].
    apply syncLoop_later_Ok in H; [| lia | exact Hsound1].
    destruct H as (Hsound3 & Hmono3 & Hrest & Hsel3).
    assert (rest = []) as ->.
    { apply orb_false_iff in Hcond as [_ Hlen]. apply Nat.ltb_ge in Hlen.
      destruct rest; [reflexivity | simpl in Hlen; lia]. }
    inversion Hsel3 as [h Hh Hnil Hfinal | |]. rewrite app_nil_r.
    split; [exact Hsound3 |]. split; [auto |]. split; [auto |].
    exact Hsel1.
Qed.

Lemma syncLoop_first_widens first rest gp p s u s' :
  syncLoop (first :: rest) 0 (first :: rest) gp p s = (Ok u, s') ->
  exists wts, (widen first s).1 = Ok wts.
Proof.
  intros H. simpl in H.
  apply bind_Ok in H as (u1 & s3 & Hround & _).
  unfold Chain.syncRound in Hround. simpl in Hround.
  apply bind_Ok in Hround as (w & s2 & Hwiden & _).
  apply bind_Ok in Hwiden as (w0 & s0 & Hw0 & _).
  exists w0. rewrite Hw0. reflexivity.
Qed.

(** ** A successful run, step by step on the store *)

Local Abbreviation selectOne :=
  (selectOne RunStateTransition IsHeavier NewWeight LoadMessages LoadReceipts
             GetRecentAncestors AncestorRoundsNeeded).
Local Abbreviation selectAll :=
  (selectAll RunStateTransition IsHeavier NewWeight LoadMessages LoadReceipts
             GetRecentAncestors AncestorRoundsNeeded).

Lemma ofExt_Ok {A} (r : ext A) a : ofExt r = Ok a -> extOkay r = Some a.
Proof. destruct r; simpl; intros H; inversion H; reflexivity. Qed.

Lemma ofExt_ExtOk {A} (r : ext A) a : ofExt r = Ok a -> r = ExtOk a.
Proof. destruct r; simpl; intros H; inversion H; reflexivity. Qed.

Lemma calculateParentWeight_value p gp s w s' :
  calculateParentWeight p gp s = (Ok w, s') ->
  parentWeightIn NewWeight (chainStore s) p gp = Some w /\ s' = s.
Proof.
  unfold Chain.calculateParentWeight, parentWeightIn.
  destruct (bool_decide (Key gp = Key UndefTipSet)); intros H.
  - apply lift_Ok in H as [H ->]. split; [apply ofExt_Ok; exact H | reflexivity].
  - apply bind_Ok in H as (gpStRoot & s0 & Hgp & H).
    apply readStore_Ok in Hgp as [Hgp ->].
    apply lift_Ok in H as [H ->]. rewrite Hgp. simpl.
    split; [apply ofExt_Ok; exact H | reflexivity].
Qed.

Lemma calculateParentWeight_explicit p gp s w s' :
  calculateParentWeight p gp s = (Ok w, s') ->
  s' = s /\
  if bool_decide (Key gp = Key UndefTipSet)
  then NewWeight p cid_Undef = ExtOk w
  else exists gpStRoot,
         GetTipSetStateRoot (chainStore s) (Key gp) = Ok gpStRoot /\
         NewWeight p gpStRoot = ExtOk w.
Proof.
  unfold Chain.calculateParentWeight.
  destruct (bool_decide (Key gp = Key UndefTipSet)); intros H.
  - apply lift_Ok in H as [H ->]. split; [reflexivity | apply ofExt_ExtOk; exact H].
  - apply bind_Ok in H as (gpStRoot & s0 & Hgp & H).
    apply readStore_Ok in Hgp as [Hgp ->].
    apply lift_Ok in H as [H ->]. split; [reflexivity |].
    exists gpStRoot. split; [exact Hgp | apply ofExt_ExtOk; exact H].
Qed.

(** What a successful [syncOne] read, asked and wrote. *)
Lemma syncOne_steps gp p next s u s' :
  syncOne gp p next s = (Ok u, s') ->
  head (chainStore s) <> Key next ->
  exists root st1 nextParentStateID headTipSet headParentStateID heavier,
    evaluatedRoot RunStateTransition NewWeight LoadMessages LoadReceipts
                  GetRecentAncestors AncestorRoundsNeeded (chainStore s) gp p next
    = Some root /\
    PutTipSetAndState (chainStore s) {| TipSetStateRoot := root; TipSetOf := next |}
    = Ok st1 /\
    GetTipSet st1 (head (chainStore s)) = Ok headTipSet /\
    IsHeavier next headTipSet nextParentStateID headParentStateID = ExtOk heavier /\
    heavierThanHead IsHeavier st1 (head (chainStore s)) p next = Some heavier /\
    (if heavier then SetHead st1 next else Ok st1) = Ok (chainStore s') /\
    calls s' = calls s ++
               [CallRunStateTransition next;
                CallIsHeavier next headTipSet nextParentStateID headParentStateID
                              heavier] /\
    badTipSets s' = badTipSets s.
Proof.
  intros H Hne. unfold Chain.syncOne in H.
  apply bind_Ok in H as (priorHeadKey & s0 & Hprior & H).
  apply readStore_Ok in Hprior as [Hprior ->].
  inversion Hprior; subst priorHeadKey; clear Hprior. unfold GetHead in H.
  rewrite bool_decide_eq_false_2 in H by exact Hne.
  apply bind_Ok in H as (stateRoot & s0 & Hroot & H).
  apply readStore_Ok in Hroot as [Hroot ->].
  apply bind_Ok in H as (h & s0 & Hh & H). apply lift_Ok in Hh as [Hh ->].
  apply bind_Ok in H as (ancestors & s0 & Hanc & H).
  apply readStore_Ok in Hanc as [Hanc ->]. apply ofExt_Ok in Hanc.
  apply bind_Ok in H as (gathered & s0 & Hg & H). apply lift_Ok in Hg as [Hg ->].
  apply bind_Ok in H as (parentWeight & s0 & Hpw & H).
  apply calculateParentWeight_value in Hpw as [Hpw ->].
  apply bind_Ok in H as (u0 & s0 & Hrec & H). apply record_Ok in Hrec. subst s0.
  apply bind_Ok in H as (root & s0 & Hrun & H). apply lift_Ok in Hrun as [Hrun ->].
  apply ofExt_Ok in Hrun.
  apply bind_Ok in H as (u1 & s0 & Hput & H).
  apply writeStore_Ok in Hput as (st1 & Hput & ->). cbn [chainStore] in Hput.
  apply bind_Ok in H as (nextParentStateID & s0 & Hnp & H).
  apply readStore_Ok in Hnp as [Hnp ->]. cbn [chainStore] in Hnp.
  apply bind_Ok in H as (headTipSet & s0 & Hht & H).
  apply readStore_Ok in Hht as [Hht ->]. cbn [chainStore] in Hht.
  apply bind_Ok in H as (headParentKey & s0 & Hhp & H). apply lift_Ok in Hhp as [Hhp ->].
  apply bind_Ok in H as (headParentStateID & s0 & Hhs & H).
  assert (Hhs' : (if Empty headParentKey then Some cid_Undef
                  else okay (GetTipSetStateRoot st1 headParentKey))
                 = Some headParentStateID /\
                 s0 = {| chainStore := st1; badTipSets := badTipSets s;
                         calls := calls s ++ [CallRunStateTransition next] |}).
  { destruct (Empty headParentKey); simpl in Hhs.
    - apply ret_Ok in Hhs as [-> ->]. auto.
    - apply readStore_Ok in Hhs as [Hhs ->]. cbn [chainStore] in Hhs.
      rewrite Hhs. auto. }
  destruct Hhs' as [Hhs' ->]. clear Hhs.
  apply bind_Ok in H as (heavier & s0 & Hheavier & H).
  apply lift_Ok in Hheavier as [Hheavier ->].
  pose proof (ofExt_ExtOk _ _ Hheavier) as Hasked. apply ofExt_Ok in Hheavier.
  apply bind_Ok in H as (u2 & s0 & Hrec & H). apply record_Ok in Hrec. subst s0.
  cbn [chainStore badTipSets calls] in H.
  exists root, st1, nextParentStateID, headTipSet, headParentStateID, heavier.
  split; [| split; [exact Hput | split; [exact Hht | split; [exact Hasked | split]]]].
  - unfold evaluatedRoot. rewrite Hroot, Hh. simpl. rewrite Hanc, Hg. simpl.
    rewrite Hpw. simpl. exact Hrun.
  - unfold heavierThanHead. rewrite Hnp, Hht. simpl. rewrite Hhp. simpl.
    rewrite Hhs'. simpl. exact Hheavier.
  - destruct heavier.
    + apply writeStore_Ok in H as (st2 & Hset & ->). cbn [chainStore badTipSets calls] in *.
      rewrite <- app_assoc. auto.
    + apply ret_Ok in H as [_ ->]. cbn [chainStore badTipSets calls].
      rewrite <- app_assoc. auto.
Qed.

Lemma calculateParentWeight_readonly p gp : readonly (calculateParentWeight p gp).
Proof. unfold Chain.calculateParentWeight. readonly_tac. Qed.

(** Takes the branches of [syncOne] one after the other. *)
Ltac walk_syncOne :=
  repeat (first
    [ match goal with
      | |- context [Chain.calculateParentWeight ?w ?p ?gp ?s] =>
          let H := fresh "Hro" in
          pose proof (calculateParentWeight_readonly p gp s) as H;
          destruct (Chain.calculateParentWeight w p gp s) as [? ?];
          cbn [snd] in H; subst
      end
    | match goal with
      | |- context [if ?c then _ else _] => destruct c eqn:?
      end
    | match goal with
      | |- context [match ?x with _ => _ end] => destruct x eqn:?
      end ];
    cbv beta iota; cbn [fst snd chainStore head tipSets];
    try (right; reflexivity); try (left; eexists; reflexivity)).

(** A [syncOne] that does not succeed leaves the head where it was. *)
Lemma syncOne_failure_keeps_head gp p next s :
  (exists u, (syncOne gp p next s).1 = Ok u) \/
  head (chainStore (syncOne gp p next s).2) = head (chainStore s).
Proof.
  unfold Chain.syncOne, bind, readStore, lift, ret,
    record, writeStore, GetHead, SetHead, PutTipSetAndState.
  cbv beta iota. cbn [fst snd chainStore head tipSets].
  walk_syncOne.
Qed.

Lemma syncOne_on_head gp p next s :
  head (chainStore s) = Key next -> syncOne gp p next s = (Ok tt, s).
Proof.
  intros H. unfold Chain.syncOne, bind, readStore, GetHead. cbv beta iota.
  rewrite bool_decide_eq_true_2 by exact H. reflexivity.
Qed.

Lemma syncOne_selectOne gp p next s u s' :
  syncOne gp p next s = (Ok u, s') ->
  selectOne (chainStore s) (gp, p, next) = Some (chainStore s').
Proof.
  intros H. unfold Chain.selectOne.
  destruct (bool_decide (head (chainStore s) = Key next)) eqn:Esame.
  - unfold Chain.syncOne in H.
    apply bind_Ok in H as (priorHeadKey & s0 & Hprior & H).
    apply readStore_Ok in Hprior as [Hprior ->].
    inversion Hprior; subst priorHeadKey; clear Hprior. unfold GetHead in H.
    rewrite Esame in H. apply ret_Ok in H as [_ ->]. reflexivity.
  - apply bool_decide_eq_false in Esame.
    destruct (syncOne_steps _ _ _ _ _ _ H Esame)
      as (root & st1 & a & b & bs & heavier & Hroot & Hput & _ & _ & Hheavier & Hfinal & _).
    rewrite Hroot. cbn [mbind option_bind]. rewrite Hput. cbn [mbind option_bind okay].
    rewrite Hheavier. cbn [mbind option_bind].
    destruct heavier; [rewrite Hfinal; reflexivity | inversion Hfinal; reflexivity].
Qed.

Lemma selectAll_cons st syn rest :
  selectAll st (syn :: rest) = selectOne st syn ≫= fun st1 => selectAll st1 rest.
Proof. reflexivity. Qed.

Lemma selectAll_app st l1 st1 l2 :
  selectAll st l1 = Some st1 -> selectAll st (l1 ++ l2) = selectAll st1 l2.
Proof.
  revert st. induction l1 as [| syn l1 IH]; intros st H; simpl in *.
  - inversion H. reflexivity.
  - destruct (selectOne st syn) as [st0 |]; simpl in *; [| discriminate].
    apply IH. exact H.
Qed.

Lemma syncLoop_later_selects chain rest : forall i gp p s u s',
  i <> 0%nat ->
  syncLoop chain i rest gp p s = (Ok u, s') ->
  selectAll (chainStore s) (withAncestors gp p rest) = Some (chainStore s').
Proof.
  induction rest as [| ts rest IH]; intros i gp p s u s' Hi H; simpl in H.
  - apply ret_Ok in H as [_ ->]. reflexivity.
  - apply bind_Ok in H as (u1 & s1 & Hround & H).
    apply syncRound_later_Ok in Hround; [| exact Hi].
    apply syncOne_selectOne in Hround. cbn [withAncestors].
    rewrite selectAll_cons, Hround. cbn [mbind option_bind].
    apply (IH (S i) p ts s1 u s'); [lia | exact H].
Qed.

(** The first round and the rest of the loop, for a chain [first :: rest]
    whose first tipset widens to [wts]. *)
Lemma syncLoop_first_selects first rest gp p wts s u s' :
  (widen first s).1 = Ok wts ->
  syncLoop (first :: rest) 0 (first :: rest) gp p s = (Ok u, s') ->
  selectAll (chainStore s) (synced (first :: rest) wts gp p) = Some (chainStore s').
Proof.
  intros Hw H. simpl in H.
  apply bind_Ok in H as (u1 & s3 & Hround & H).
  unfold Chain.syncRound in Hround. simpl in Hround.
  apply bind_Ok in Hround as (w & s2 & Hwiden & Hround).
  apply bind_Ok in Hwiden as (w0 & s0 & Hw0 & Hwiden).
  destruct (readonly_Ok _ _ _ _ (widen_readonly first) Hw0) as [-> Hw'].
  rewrite Hw in Hw'. inversion Hw'; subst w0; clear Hw' Hw0.
  unfold synced.
  assert (Hwide : selectAll (chainStore s)
                    (if Defined wts then [(gp, p, wts)] else [])
                  = Some (chainStore s2) /\ w = wts).
  { destruct (Defined wts).
    - apply bind_Ok in Hwiden as (u0 & s1 & Hone & Hwiden).
      apply ret_Ok in Hwiden as [-> ->].
      apply syncOne_selectOne in Hone. rewrite selectAll_cons, Hone. auto.
    - apply ret_Ok in Hwiden as [-> ->]. auto. }
  destruct Hwide as [Hsel1 ->]. clear Hwiden.
  rewrite (selectAll_app _ _ _ _ Hsel1). simpl length.
  destruct (negb (Defined wts) || (1 <? S (length rest))%nat) eqn:Hcond.
  - apply (syncOne_or_poison_Ok (first :: rest) 0) in Hround.
    apply syncOne_selectOne in Hround. cbn [withAncestors].
    rewrite selectAll_cons, Hround. cbn [mbind option_bind].
    apply (syncLoop_later_selects (first :: rest) rest 1 p first s3 u s'); [lia | exact H].
  - apply ret_Ok in Hround as [_ ->].
    assert (rest = []) as ->.
    { apply orb_false_iff in Hcond as [_ Hlen]. apply Nat.ltb_ge in Hlen.
      destruct rest; [reflexivity | simpl in Hlen; lia]. }
    simpl in H. apply ret_Ok in H as [_ ->]. reflexivity.
Qed.

(** A synced tipset changes the entry of no other key. *)
Lemma selectOne_frame st gp p t st' :
  selectOne st (gp, p, t) = Some st' ->
  forall k, k <> Key t -> tipSets st' !! k = tipSets st !! k.
Proof.
  unfold Chain.selectOne. intros H k Hk.
  destruct (bool_decide (head st = Key t)); [inversion H; reflexivity |].
  destruct (evaluatedRoot _ _ _ _ _ _ st gp p t) as [root |]; simpl in H;
    [| discriminate].
  destruct (heavierThanHead _ _ _ _ _) as [[|] |]; simpl in H; try discriminate.
  - unfold SetHead in H. destruct (HasTipSetAndState _ _); simpl in H; [| discriminate].
    inversion H; subst st'. simpl. apply lookup_insert_ne. congruence.
  - inversion H; subst st'. simpl. apply lookup_insert_ne. congruence.
Qed.

(** A tipset that [widen] returns differs in key from its input. *)
Lemma widen_key_differs ts s wts :
  (widen ts s).1 = Ok wts -> Defined wts = true -> Key wts <> Key ts.
Proof.
  intros Hw Hdef.
  assert (Hundef : forall x : TipSet, Ok UndefTipSet = Ok x -> Defined x = true -> False).
  { intros x Hx Hd. inversion Hx; subst x. discriminate Hd. }
  unfold widen, bind, lift, readStore, ret in Hw.
  destruct (Parents ts) as [pk | e | msg]; cbv beta iota in Hw; try discriminate.
  destruct (Height ts) as [h | e | msg]; cbv beta iota in Hw; try discriminate.
  destruct (HasTipSetAndStatesWithParentsAndHeight (chainStore s) pk h);
    cbn [negb fst snd] in Hw; [| exfalso; eapply Hundef; eauto].
  destruct (GetTipSetAndStatesByParentsAndHeight (chainStore s) pk h)
    as [candidates | e | msg]; cbn [fst snd] in Hw; try discriminate.
  destruct candidates as [| first rest]; cbn [fst snd] in Hw;
    [exfalso; eapply Hundef; eauto |].
  destruct (NewTipSet _) as [w | e | msg]; cbn [fst snd] in Hw; try discriminate.
  destruct (bool_decide (Key w = Key ts)) eqn:Hk1; cbn [orb fst snd] in Hw;
    [exfalso; eapply Hundef; eauto |].
  match type of Hw with
  | context [bool_decide ?P] => destruct (bool_decide P)
  end; cbn [orb fst snd] in Hw; [exfalso; eapply Hundef; eauto |].
  cbn [fst] in Hw. injection Hw as <-. apply bool_decide_eq_false in Hk1. exact Hk1.
Qed.

(** C1, as the code has it.  After a call of [HandleNewTipSet] that fetched
    a chain and returned success, the widened tipset, when there is one, is
    in the store with a state root; so is every tipset of the fetched chain,
    unless the chain has a single tipset and widening gave a tipset: then
    the original is skipped, and the call changes the entry of no key but
    that of the widened tipset.  The store at the end, and so its head, is
    what the store at the start becomes when the synced tipsets are taken
    in order, the widened one first with the ancestors of the first tipset
    of the chain: each one that is not the head at that moment is put in
    the store with the state root the state evaluator gives it, is compared
    by the chain selector with the tipset stored under the head at that
    moment, with the state roots stored for the parents of the two, and is
    made the head exactly when the selector deems it heavier. *)
Theorem successful_sync_stores_and_selects ci trusted s s' fetched :
  HandleNewTipSet ci trusted s = (Ok tt, s') ->
  HasTipSetAndState (chainStore s) (Head ci) = false ->
  StoreConsistent (chainStore s) ->
  FetchTipSets (Head ci) (Peer ci) (stopAtKnownParents (chainStore s)) = ExtOk fetched ->
  exists first rest wts parent grandParent,
    Reverse fetched = first :: rest /\
    (widen first s).1 = Ok wts /\
    (ancestorsFromStore first s).1 = Ok (parent, grandParent) /\
    (Defined wts = true ->
     HasTipSetAndState (chainStore s') (Key wts) = true /\
     exists root, GetTipSetStateRoot (chainStore s') (Key wts) = Ok root) /\
    (Defined wts = false \/ rest <> [] ->
     forall t, t ∈ Reverse fetched ->
       HasTipSetAndState (chainStore s') (Key t) = true /\
       exists root, GetTipSetStateRoot (chainStore s') (Key t) = Ok root) /\
    (Defined wts = true -> rest = [] ->
     Key first <> Key wts /\
     forall k, k <> Key wts ->
       tipSets (chainStore s') !! k = tipSets (chainStore s) !! k) /\
    selectAll (chainStore s) (synced (Reverse fetched) wts grandParent parent)
    = Some (chainStore s').
Proof.
  intros H Hknown Hcons Hfetch.
  unfold Chain.HandleNewTipSet in H.
  apply bind_Ok in H as (known & s0 & Hk & H).
  apply readStore_Ok in Hk as [Hk ->]. inversion Hk; subst known; clear Hk.
  rewrite Hknown in H.
  apply bind_Ok in H as (curHead & s0 & Hhead & H).
  apply readStore_Ok in Hhead as [Hhead ->].
  assert (Hsound : sound s).
  { split; [exact Hcons |]. exact (GetTipSet_stored _ _ _ Hhead). }
  apply bind_Ok in H as (curHeight & s0 & Hheight & H).
  apply lift_Ok in Hheight as [Hheight ->].
  destruct (negb trusted && ExceedsUntrustedChainLength curHeight (CIHeight ci));
    [discriminate |].
  apply bind_Ok in H as (fetched' & s0 & Hf & H).
  apply readStore_Ok in Hf as [Hf ->]. rewrite Hfetch in Hf.
  inversion Hf; subst fetched'; clear Hf.
  simpl in H. destruct (Reverse fetched) as [| first rest] eqn:Hchain;
    [discriminate |].
  apply bind_Ok in H as (anc & s0 & Hanc & H).
  destruct (readonly_Ok _ _ _ _ (ancestorsFromStore_readonly first) Hanc) as [-> Hanc'].
  destruct (syncLoop_first_widens _ _ _ _ _ _ _ H) as [wts Hw].
  destruct (syncLoop_first_Ok _ _ _ _ wts _ _ _ Hw H Hsound)
    as (_ & _ & Hstored & _).
  pose proof (syncLoop_first_selects _ _ _ _ wts _ _ _ Hw H) as Hsel.
  exists first, rest, wts, anc.1, anc.2.
  split; [reflexivity |]. split; [exact Hw |].
  split; [rewrite Hanc'; destruct anc; reflexivity |].
  unfold syncedTipSets in Hstored. simpl length in Hstored.
  split; [| split; [| split; [| exact Hsel]]].
  - intros Hdef. rewrite Hdef in Hstored.
    assert (Hin : stored (chainStore s') (Key wts)).
    { apply Hstored. apply elem_of_app. left. apply list_elem_of_singleton. reflexivity. }
    split; [apply stored_Has; exact Hin | apply stored_state_root; exact Hin].
  - intros Hall t Ht.
    assert (Hcond : negb (Defined wts) || (1 <? S (length rest))%nat = true).
    { destruct Hall as [Hundef | Hrest].
      - rewrite Hundef. reflexivity.
      - apply orb_true_iff. right. apply Nat.ltb_lt.
        destruct rest; [contradiction | simpl; lia]. }
    rewrite Hcond in Hstored.
    assert (Hin : stored (chainStore s') (Key t)).
    { apply Hstored. apply elem_of_app. right. exact Ht. }
    split; [apply stored_Has; exact Hin | apply stored_state_root; exact Hin].
  - intros Hdef ->. split.
    + apply not_eq_sym. exact (widen_key_differs first s wts Hw Hdef).
    + unfold synced in Hsel. rewrite Hdef in Hsel.
      cbn [length Nat.ltb Nat.leb negb orb app] in Hsel.
      rewrite selectAll_cons in Hsel.
      destruct (selectOne (chainStore s) (anc.2, anc.1, wts)) as [st1 |] eqn:Hone;
        simpl in Hsel; [| discriminate].
      inversion Hsel; subst st1. exact (selectOne_frame _ _ _ _ _ Hone).
Qed.


(** ** The bad-tipset cache is written and never read *)

Lemma keepsBad_ret {A} (a : A) : keepsBad (ret a).
Proof. intros s. reflexivity. Qed.

Lemma keepsBad_lift {A} (r : outcome A) : keepsBad (lift r).
Proof. intros s. reflexivity. Qed.

Lemma keepsBad_readStore {A} (f : Store -> outcome A) : keepsBad (readStore f).
Proof. intros s. reflexivity. Qed.

Lemma keepsBad_writeStore (f : Store -> outcome Store) : keepsBad (writeStore f).
Proof. intros s. unfold writeStore. destruct (f (chainStore s)); reflexivity. Qed.

Lemma keepsBad_record c : keepsBad (record c).
Proof. intros s. reflexivity. Qed.

Lemma keepsBad_bind {A B} (m : M A) (k : A -> M B) :
  keepsBad m -> (forall a, keepsBad (k a)) -> keepsBad (bind m k).
Proof.
  intros Hm Hk s. unfold bind. specialize (Hm s).
  destruct (m s) as [[a | e | msg] s1]; simpl in *; auto.
  rewrite Hk. exact Hm.
Qed.

Ltac keepsBad_tac :=
  repeat first
    [ apply keepsBad_ret
    | apply keepsBad_lift
    | apply keepsBad_readStore
    | apply keepsBad_writeStore
    | apply keepsBad_record
    | apply keepsBad_bind; [| intros ?]
    | match goal with
      | |- keepsBad (if ?c then _ else _) => destruct c
      | |- keepsBad (match ?c with _ => _ end) => destruct c
      end ].

Lemma syncOne_keepsBad gp p next : keepsBad (syncOne gp p next).
Proof. unfold Chain.syncOne, Chain.calculateParentWeight. keepsBad_tac. Qed.

Lemma blind_ret {A} (a : A) : blind (ret a).
Proof. intros s1 s2 H. split; [reflexivity | exact H]. Qed.

Lemma blind_lift {A} (r : outcome A) : blind (lift r).
Proof. intros s1 s2 H. split; [reflexivity | exact H]. Qed.

Lemma blind_readStore {A} (f : Store -> outcome A) : blind (readStore f).
Proof.
  intros s1 s2 [Hst Hc]. unfold readStore. simpl. rewrite Hst.
  split; [reflexivity | split; assumption].
Qed.

Lemma blind_writeStore (f : Store -> outcome Store) : blind (writeStore f).
Proof.
  intros s1 s2 [Hst Hc]. unfold writeStore. rewrite Hst.
  destruct (f (chainStore s2)); simpl; (split; [reflexivity |]); split; auto.
Qed.

Lemma blind_record c : blind (record c).
Proof.
  intros s1 s2 [Hst Hc]. unfold record, sameButBad. simpl. rewrite Hst, Hc. auto.
Qed.

Lemma blind_poison chain : blind (poison chain).
Proof. intros s1 s2 [Hst Hc]. unfold poison, sameButBad. simpl. auto. Qed.

Lemma blind_bind {A B} (m : M A) (k : A -> M B) :
  blind m -> (forall a, blind (k a)) -> blind (bind m k).
Proof.
  intros Hm Hk s1 s2 H. unfold bind. destruct (Hm s1 s2 H) as [Hr Hs].
  destruct (m s1) as [r1 t1], (m s2) as [r2 t2]. simpl in *. subst r2.
  destruct r1 as [a | e | msg]; simpl; auto.
  apply Hk. exact Hs.
Qed.

Ltac blind_tac :=
  repeat first
    [ apply blind_ret
    | apply blind_lift
    | apply blind_readStore
    | apply blind_writeStore
    | apply blind_record
    | apply blind_poison
    | apply blind_bind; [| intros ?]
    | match goal with
      | |- blind (if ?c then _ else _) => destruct c
      | |- blind (match ?c with _ => _ end) => destruct c
      end ].

Lemma syncOne_blind gp p next : blind (syncOne gp p next).
Proof. unfold Chain.syncOne, Chain.calculateParentWeight. blind_tac. Qed.

Lemma widen_blind ts : blind (widen ts).
Proof. unfold widen. blind_tac. Qed.

Lemma syncRound_blind chain i ts gp p : blind (syncRound chain i ts gp p).
Proof.
  unfold Chain.syncRound. apply blind_bind.
  - destruct (i =? 0)%nat; [| apply blind_ret].
    apply blind_bind; [apply widen_blind |].
    intros wts. destruct (Defined wts); [| apply blind_ret].
    apply blind_bind; [apply syncOne_blind | intros; apply blind_ret].
  - intros wts. destruct (negb (Defined wts) || (1 <? length chain)%nat);
      [| apply blind_ret].
    intros s1 s2 H. destruct (syncOne_blind gp p ts s1 s2 H) as [Hr Hs].
    destruct (syncOne gp p ts s1) as [r1 t1], (syncOne gp p ts s2) as [r2 t2].
    simpl in *. subst r2. destruct r1 as [u | e | msg]; simpl; auto.
Qed.

Lemma syncLoop_blind chain rest : forall i gp p, blind (syncLoop chain i rest gp p).
Proof.
  induction rest as [| ts rest IH]; intros i gp p; simpl.
  - apply blind_ret.
  - apply blind_bind; [apply syncRound_blind | intros _; apply IH].
Qed.

(** What [HandleNewTipSet] returns, stores and asks of its collaborators
    does not depend on the bad-tipset cache. *)
Lemma HandleNewTipSet_blind ci trusted : blind (HandleNewTipSet ci trusted).
Proof.
  unfold Chain.HandleNewTipSet.
  apply blind_bind; [apply blind_readStore |]. intros known.
  destruct known; [apply blind_ret |].
  apply blind_bind; [apply blind_readStore |]. intros curHead.
  apply blind_bind; [apply blind_lift |]. intros curHeight.
  destruct (negb trusted && ExceedsUntrustedChainLength curHeight (CIHeight ci));
    [apply blind_lift |].
  apply blind_bind; [apply blind_readStore |]. intros fetched. simpl.
  destruct (Reverse fetched) as [| first rest]; [apply blind_lift |].
  apply blind_bind; [unfold ancestorsFromStore; blind_tac |].
  intros anc. apply syncLoop_blind.
Qed.

(** [HandleNewTipSet] never returns [ErrChainHasBadTipSet]. *)
Lemma HandleNewTipSet_never_bad ci trusted :
  never ErrChainHasBadTipSet (HandleNewTipSet ci trusted).
Proof.
  assert (He : sentinel ErrChainHasBadTipSet) by (left; reflexivity).
  unfold Chain.HandleNewTipSet.
  apply never_bind; [apply never_readStore; discriminate |]. intros known.
  destruct known; [apply never_ret |].
  apply never_bind; [apply never_readStore; auto with sentinels |]. intros curHead.
  apply never_bind; [apply never_lift; auto with sentinels |]. intros curHeight.
  destruct (negb trusted && ExceedsUntrustedChainLength curHeight (CIHeight ci));
    [apply never_lift; discriminate |].
  apply afterLengthCheck_never. exact He.
Qed.

(** When [syncOne] fails on the widened tipset, the round returns that
    error and the bad-tipset cache is what it was. *)
Lemma syncRound_widened_failure chain ts gp p wts e s s1 :
  (widen ts s).1 = Ok wts ->
  Defined wts = true ->
  syncOne gp p wts s = (Err e, s1) ->
  syncRound chain 0 ts gp p s = (Err e, s1) /\ badTipSets s1 = badTipSets s.
Proof.
  intros Hw Hdef Hone. split.
  - unfold Chain.syncRound. simpl. unfold bind at 1. unfold bind at 1. unfold bind at 1.
    pose proof (widen_readonly ts s) as Hro.
    destruct (widen ts s) as [r s0]. simpl in *. subst s0 r.
    rewrite Hdef, Hone. reflexivity.
  - pose proof (syncOne_keepsBad gp p wts s) as H. rewrite Hone in H. exact H.
Qed.

End WithCollaborators.

(** ** The syncer on the small chain *)

Import SyncerScenario.

Lemma run_pair {A} (m : M A) s r : (m s).1 = r -> m s = (r, (m s).2).
Proof. intros <-. apply surjective_pairing. Qed.

Lemma storeGenesis_consistent : StoreConsistent storeGenesis.
Proof.
  intros k tsas H. unfold storeGenesis in H. simpl in H.
  apply lookup_singleton_Some in H as [<- <-]. reflexivity.
Qed.

Lemma storeWithA_consistent : StoreConsistent storeWithA.
Proof.
  intros k tsas H. unfold storeWithA in H. simpl in H.
  apply lookup_insert_Some in H as [[<- <-] | [_ H]]; [reflexivity |].
  exact (storeGenesis_consistent k tsas H).
Qed.

(** C1 as stated fails: a call that returns success can leave a tipset of
    the fetched chain out of the store.  On a store whose head is the
    tipset of [blockA], the announced one-tipset chain of [blockB] is widened
    to the tipset of both blocks; only the widened tipset is synced. *)
Lemma fetched_tipset_not_stored :
  ~ (forall FetchTipSets RunStateTransition IsHeavier NewWeight LoadMessages
            LoadReceipts GetRecentAncestors AncestorRoundsNeeded
            ci trusted s s' fetched,
        HandleNewTipSet FetchTipSets RunStateTransition IsHeavier NewWeight
          LoadMessages LoadReceipts GetRecentAncestors AncestorRoundsNeeded
          ci trusted s = (Ok tt, s') ->
        HasTipSetAndState (chainStore s) (Head ci) = false ->
        StoreConsistent (chainStore s) ->
        FetchTipSets (Head ci) (Peer ci) (stopAtKnownParents (chainStore s))
          = ExtOk fetched ->
        forall t, t ∈ fetched ->
          HasTipSetAndState (chainStore s') (Key t) = true).
Proof.
  intros claim.
  specialize (claim fetchB acceptAll moreBlocks weightZero noMessages noReceipts
                    noAncestors 1%Z announceB true syncerWithA
                    (handle fetchB acceptAll announceB true syncerWithA).2
                    [[blockB]]).
  assert (H : HasTipSetAndState
                (chainStore (handle fetchB acceptAll announceB true syncerWithA).2)
                (Key [blockB]) = true).
  { apply claim.
    - apply (run_pair (handle fetchB acceptAll announceB true)). vm_compute. reflexivity.
    - vm_compute. reflexivity.
    - exact storeWithA_consistent.
    - reflexivity.
    - apply list_elem_of_singleton. reflexivity. }
  vm_compute in H. discriminate H.
Qed.

(** The same call, as the amended C1 describes it. *)
Lemma successful_sync_stores_and_selects_witness :
  exists first rest wts parent grandParent,
    Reverse [[blockB]] = first :: rest /\
    (widen first syncerWithA).1 = Ok wts /\
    (ancestorsFromStore first syncerWithA).1 = Ok (parent, grandParent) /\
    (Defined wts = true ->
     HasTipSetAndState
       (chainStore (handle fetchB acceptAll announceB true syncerWithA).2)
       (Key wts) = true /\
     exists root,
       GetTipSetStateRoot
         (chainStore (handle fetchB acceptAll announceB true syncerWithA).2)
         (Key wts) = Ok root) /\
    (Defined wts = false \/ rest <> [] ->
     forall t, t ∈ Reverse [[blockB]] ->
       HasTipSetAndState
         (chainStore (handle fetchB acceptAll announceB true syncerWithA).2)
         (Key t) = true /\
       exists root,
         GetTipSetStateRoot
           (chainStore (handle fetchB acceptAll announceB true syncerWithA).2)
           (Key t) = Ok root) /\
    (Defined wts = true -> rest = [] ->
     Key first <> Key wts /\
     forall k, k <> Key wts ->
       tipSets (chainStore (handle fetchB acceptAll announceB true syncerWithA).2) !! k
       = tipSets (chainStore syncerWithA) !! k) /\
    selectAll acceptAll moreBlocks weightZero noMessages noReceipts noAncestors 1%Z
              (chainStore syncerWithA)
              (synced (Reverse [[blockB]]) wts grandParent parent)
    = Some (chainStore (handle fetchB acceptAll announceB true syncerWithA).2).
Proof.
  apply (successful_sync_stores_and_selects fetchB acceptAll moreBlocks weightZero
           noMessages noReceipts noAncestors 1%Z announceB true syncerWithA).
  - apply (run_pair (handle fetchB acceptAll announceB true)). vm_compute. reflexivity.
  - vm_compute. reflexivity.
  - exact storeWithA_consistent.
  - reflexivity.
Defined.

(** C2 on the code.  The state evaluator rejects the widened tipset of
    [blockA] and [blockB]: the call returns that error and the tipset of
    [blockB], the whole of [chain[0:]], is not in the bad-tipset cache. *)
Theorem widened_failure_poisons_nothing :
  (widen [blockB] syncerWithA).1 = Ok [blockA; blockB] /\
  (handle fetchB rejectWide announceB true syncerWithA).1
    = Err (ErrExternal "invalid state transition") /\
  BadHas (badTipSets (handle fetchB rejectWide announceB true syncerWithA).2)
         (Key [blockB]) = false /\
  calls (handle fetchB rejectWide announceB true syncerWithA).2
    = [CallRunStateTransition [blockA; blockB]].
Proof. vm_compute. repeat split; reflexivity. Qed.

(** The sibling path: when [syncOne] fails on a tipset of the chain itself,
    the rest of the chain is poisoned. *)
Lemma chain_failure_poisons :
  (widen [blockB] syncerGenesis).1 = Ok UndefTipSet /\
  (handle fetchB rejectAll announceB true syncerGenesis).1
    = Err (ErrExternal "invalid state transition") /\
  BadHas (badTipSets (handle fetchB rejectAll announceB true syncerGenesis).2)
         (Key [blockB]) = true.
Proof. vm_compute. repeat split; reflexivity. Qed.

(** C3 on the code.  A first call fails to validate the tipset of [blockB]
    and puts its key in the bad-tipset cache; a second call over the same
    chain runs the state transition on that tipset again and returns the
    evaluator's error, not [ErrChainHasBadTipSet]. *)
Theorem cached_bad_tipset_is_revalidated :
  let first := handle fetchB rejectAll announceB true syncerGenesis in
  let second := handle fetchB rejectAll announceB true first.2 in
  first.1 = Err (ErrExternal "invalid state transition") /\
  BadHas (badTipSets first.2) (Key [blockB]) = true /\
  calls first.2 = [CallRunStateTransition [blockB]] /\
  second.1 = Err (ErrExternal "invalid state transition") /\
  second.1 <> Err ErrChainHasBadTipSet /\
  calls second.2 = [CallRunStateTransition [blockB]; CallRunStateTransition [blockB]].
Proof. vm_compute. repeat split; try reflexivity. discriminate. Qed.

(** The cached bad tipset is even accepted, and put in the store, by a
    later call whose state evaluator accepts it. *)
Lemma cached_bad_tipset_can_be_stored :
  let first := handle fetchB rejectAll announceB true syncerGenesis in
  let second := handle fetchB acceptAll announceB true first.2 in
  BadHas (badTipSets first.2) (Key [blockB]) = true /\
  second.1 = Ok tt /\
  HasTipSetAndState (chainStore second.2) (Key [blockB]) = true.
Proof. vm_compute. repeat split; reflexivity. Qed.

(** An untrusted announcement 601 above the head is rejected, one exactly
    600 above is not. *)
Lemma untrusted_chain_length_limit_witness :
  ((handle fetchB acceptAll {| Peer := "peer"; Head := [3]; CIHeight := 601 |}
           false syncerWithA).1 = Err ErrNewChainTooLong <->
   uint64_add 1 600 < 601) /\
  (1 + 600 < 2 ^ 64 ->
   ((handle fetchB acceptAll {| Peer := "peer"; Head := [3]; CIHeight := 601 |}
            false syncerWithA).1 = Err ErrNewChainTooLong <->
    1 + 600 < 601) /\
   (601 = 1 + 600 ->
    (handle fetchB acceptAll {| Peer := "peer"; Head := [3]; CIHeight := 601 |}
            false syncerWithA).1 <> Err ErrNewChainTooLong)) /\
  (handle fetchB acceptAll {| Peer := "peer"; Head := [3]; CIHeight := 601 |}
          true syncerWithA).1 <> Err ErrNewChainTooLong.
Proof.
  apply (untrusted_chain_length_limit fetchB acceptAll moreBlocks weightZero
           noMessages noReceipts noAncestors 1%Z
           {| Peer := "peer"; Head := [3]; CIHeight := 601 |} syncerWithA [blockA] 1).
  - vm_compute. reflexivity.
  - vm_compute. reflexivity.
  - reflexivity.
Defined.

Lemma empty_fetch_panics_witness :
  handle fetchNothing acceptAll announceB true syncerWithA
  = (Panic "runtime error: index out of range", syncerWithA).
Proof.
  apply (empty_fetch_panics fetchNothing acceptAll moreBlocks weightZero
           noMessages noReceipts noAncestors 1%Z announceB true syncerWithA [blockA] 1).
  - vm_compute. reflexivity.
  - vm_compute. reflexivity.
  - reflexivity.
  - reflexivity.
  - reflexivity.
Defined.

(** Two stored candidates of one block each: the first of the list is
    taken. *)
Lemma widen_takes_first_largest_witness :
  exists i c,
    [ {| TipSetStateRoot := 101; TipSetOf := [blockA] |};
      {| TipSetStateRoot := 102; TipSetOf := [blockC] |} ] !! i = Some c /\
    (forall c', c' ∈ [ {| TipSetStateRoot := 101; TipSetOf := [blockA] |};
                       {| TipSetStateRoot := 102; TipSetOf := [blockC] |} ] ->
                (Len (TipSetOf c') <= Len (TipSetOf c))%nat) /\
    (forall j c', (j < i)%nat ->
       [ {| TipSetStateRoot := 101; TipSetOf := [blockA] |};
         {| TipSetStateRoot := 102; TipSetOf := [blockC] |} ] !! j = Some c' ->
       (Len (TipSetOf c') < Len (TipSetOf c))%nat) /\
    widenMax {| TipSetStateRoot := 101; TipSetOf := [blockA] |}
             [ {| TipSetStateRoot := 101; TipSetOf := [blockA] |};
               {| TipSetStateRoot := 102; TipSetOf := [blockC] |} ] = TipSetOf c /\
    widen [blockB] syncerWithAC =
    (obind (NewTipSet (unionBlocks [blockB] (TipSetOf c))) (fun wts =>
       if bool_decide (Key wts = Key [blockB]) || bool_decide (Key wts = Key (TipSetOf c))
       then Ok UndefTipSet else Ok wts), syncerWithAC).
Proof.
  apply (widen_takes_first_largest [blockB] syncerWithAC [1] 1).
  - reflexivity.
  - reflexivity.
  - vm_compute. reflexivity.
Defined.

Example widen_tie_takes_blockA :
  (widen [blockB] syncerWithAC).1 = Ok [blockA; blockB].
Proof. vm_compute. reflexivity. Qed.

End SyncerFacts.

(** * Properties of the message-queue policy *)

Module PolicyFacts.
Import Types Message PolicyScenario.

(** ** The scenarios of the test, run on the model *)

Example old_block_does_nothing :
  policy twoSenders [] [[blockAt 2 [0] 1 0]] = Ok twoSenders.
Proof. vm_compute. reflexivity. Qed.

Example chain_truncation_does_nothing :
  policy twoSenders [[blockAt 2 [0] 1 0]] [] = Ok twoSenders.
Proof. reflexivity. Qed.

Example removes_mined_messages :
  exists q1 q2 q3 q4,
    policy (aliceAndBob 100) [] [[blockAt 2 [0] 104 11]] = Ok q1 /\
    List q1 alice = [mkQueued (fromAlice 2) 101; mkQueued (fromAlice 3) 102] /\
    List q1 bob = [mkQueued (fromBob 1) 100] /\
    policy q1 [] [[blockAt 3 [0] 105 0]] = Ok q2 /\
    List q2 alice = List q1 alice /\ List q2 bob = List q1 bob /\
    policy q2 [] [[blockAt 4 [0] 106 14]] = Ok q3 /\
    List q3 alice = [mkQueued (fromAlice 3) 102] /\ List q3 bob = [] /\
    policy q3 [] [[blockAt 5 [0] 107 13]] = Ok q4 /\
    List q4 alice = [].
Proof.
  eexists _, _, _, _.
  split; [vm_compute; reflexivity |].
  repeat (split; [vm_compute; reflexivity |]).
  vm_compute; reflexivity.
Qed.

Example expires_old_messages :
  exists q1 q2,
    policy (aliceAndBob 200) [] [[blockAt 2 [0] 110 0]] = Ok q1 /\
    List q1 alice = List (aliceAndBob 200) alice /\
    List q1 bob = [mkQueued (fromBob 1) 200] /\
    policy q1 [] [[blockAt 3 [0] 111 0]] = Ok q2 /\
    List q2 alice = [] /\
    List q2 bob = [mkQueued (fromBob 1) 200].
Proof.
  eexists _, _.
  split; [vm_compute; reflexivity |].
  repeat (split; [vm_compute; reflexivity |]).
  vm_compute; reflexivity.
Qed.

Example fails_when_out_of_nonce_order :
  exists e,
    policy threeFromAlice [] [[blockAt 2 [0] 101 12]] = Err e /\
    contains (errorText e) "nonce 1, expected 2" = true.
Proof. eexists. split; vm_compute; reflexivity. Qed.

Example removes_sequential_messages_in_peer_blocks :
  (blockCid (peer2 [2]) <? blockCid (peer1 [1])) = true /\
  tipsetOf [peer1 [1]; peer2 [2]] = [peer1 [1]; peer2 [2]] /\
  (exists q1,
     policy (queueOf [(fromAlice 1, 100); (fromAlice 2, 101)]) []
            [tipsetOf [peer1 [1]; peer2 [2]]] = Ok q1 /\
     List q1 alice = []) /\
  tipsetOf [peer1 [1]; peer2 [0]] = [peer2 [0]; peer1 [1]] /\
  (exists e,
     policy (queueOf [(fromAlice 1, 200); (fromAlice 2, 201)]) []
            [tipsetOf [peer1 [1]; peer2 [0]]] = Err e /\
     contains (errorText e) "nonce 1, expected 2" = true).
Proof.
  split; [reflexivity |]. split; [vm_compute; reflexivity |].
  split; [eexists; split; vm_compute; reflexivity |].
  split; [vm_compute; reflexivity |].
  eexists; split; vm_compute; reflexivity.
Qed.

(** ** Expiry *)

Section Policy.

Variable LoadMessages : Cid -> ext (list SignedMessage).
Variable expiryWindow : N.

Local Abbreviation HandleNewHead := (HandleNewHead LoadMessages expiryWindow).
Local Abbreviation processBlocks := (processBlocks LoadMessages).
Local Abbreviation processChain := (processChain LoadMessages).
Local Abbreviation blocksMessages := (blocksMessages LoadMessages).
Local Abbreviation chainMessages := (chainMessages LoadMessages).

Lemma List_ExpireBefore q threshold sender :
  List (ExpireBefore q threshold) sender =
  if existsb (expired threshold) (List q sender) then [] else List q sender.
Proof.
  unfold List, ExpireBefore. rewrite lookup_fmap.
  destruct (q !! sender) as [entries |]; reflexivity.
Qed.

Lemma ExpireBefore_leaves_recent q threshold sender e :
  e ∈ List (ExpireBefore q threshold) sender ->
  (threshold <= Z.of_N (Stamp e))%Z.
Proof.
  rewrite List_ExpireBefore.
  destruct (existsb (expired threshold) (List q sender)) eqn:Hex; intros He.
  - inversion He.
  - assert (Hf : expired threshold e = false).
    { destruct (expired threshold e) eqn:Hexp; [| reflexivity].
      assert (existsb (expired threshold) (List q sender) = true); [| congruence].
      apply existsb_exists. exists e. split; [| exact Hexp].
      apply list_elem_of_In. exact He. }
    unfold expired in Hf. apply Z.ltb_ge in Hf. exact Hf.
Qed.

Lemma allHeightZero_maxHeight chain :
  allHeightZero chain = true -> maxHeight chain = Ok 0.
Proof.
  induction chain as [| ts rest IH]; simpl; [reflexivity |].
  intros H. apply andb_true_iff in H as [Hts Hrest].
  destruct (Height ts) as [[| p] | e | msg]; try discriminate.
  simpl. rewrite (IH Hrest). reflexivity.
Qed.

Lemma ExpireBefore_keeps_recent q threshold sender :
  (forall e, e ∈ List q sender -> (threshold <= Z.of_N (Stamp e))%Z) ->
  List (ExpireBefore q threshold) sender = List q sender.
Proof.
  intros Hall. rewrite List_ExpireBefore.
  destruct (existsb (expired threshold) (List q sender)) eqn:Hex; [| reflexivity].
  apply existsb_exists in Hex as (e & Hin & Hexp).
  apply list_elem_of_In in Hin. specialize (Hall e Hin).
  unfold expired in Hexp. apply Z.ltb_lt in Hexp. lia.
Qed.

Lemma ExpireBefore_purges_sender q threshold sender e :
  e ∈ List q sender -> (Z.of_N (Stamp e) < threshold)%Z ->
  List (ExpireBefore q threshold) sender = [].
Proof.
  intros Hin Hold. rewrite List_ExpireBefore.
  assert (Hex : existsb (expired threshold) (List q sender) = true).
  { apply existsb_exists. exists e. split; [apply list_elem_of_In; exact Hin |].
    unfold expired. apply Z.ltb_lt. exact Hold. }
  rewrite Hex. reflexivity.
Qed.

(** C4, as the model has it.  Let [q1] be the queue once the messages of
    the new chain are processed, and [h] the greatest height of the chain.
    After a successful [HandleNewHead] no queue holds an entry whose stamp
    is strictly less than [h - expiryWindow]; a sender all of whose entries
    in [q1] have a stamp of [h - expiryWindow] or more, so also one with an
    entry at exactly that stamp and none older, keeps its whole queue; a
    sender with an entry of a smaller stamp loses its whole queue. *)
Theorem no_entry_older_than_window q oldChain newChain q' h :
  HandleNewHead q oldChain newChain = Ok q' ->
  newChain <> [] ->
  maxHeight newChain = Ok h ->
  exists q1,
    (if allHeightZero newChain then q1 = q else processChain q newChain = Ok q1) /\
    forall sender,
      (forall e, e ∈ List q' sender ->
                 (Z.of_N h - Z.of_N expiryWindow <= Z.of_N (Stamp e))%Z) /\
      ((forall e, e ∈ List q1 sender ->
                  (Z.of_N h - Z.of_N expiryWindow <= Z.of_N (Stamp e))%Z) ->
       List q' sender = List q1 sender) /\
      ((exists e, e ∈ List q1 sender /\
                  (Z.of_N (Stamp e) < Z.of_N h - Z.of_N expiryWindow)%Z) ->
       List q' sender = []).
Proof.
  intros H _ Hmax. unfold Message.HandleNewHead in H.
  destruct (allHeightZero newChain) eqn:Hzero.
  - apply allHeightZero_maxHeight in Hzero. rewrite Hzero in Hmax.
    inversion Hmax; subst h. inversion H; subst q'.
    exists q. split; [reflexivity |]. intros sender. split; [| split].
    + intros e _. lia.
    + reflexivity.
    + intros (e & _ & Hold). lia.
  - destruct (processChain q newChain) as [q1 | err | msg]; try discriminate.
    simpl in H. rewrite Hmax in H. simpl in H. inversion H; subst q'.
    exists q1. split; [reflexivity |]. intros sender. split; [| split].
    + intros e He. apply ExpireBefore_leaves_recent in He. exact He.
    + apply ExpireBefore_keeps_recent.
    + intros (e & Hin & Hold). exact (ExpireBefore_purges_sender _ _ _ e Hin Hold).
Qed.

(** ** The order of sibling blocks *)




Lemma processMessage_head q msg hd tl :
  List q (From msg) = hd :: tl ->
  processMessage q msg =
  if N.eqb (Nonce (Msg hd)) (Nonce msg)
  then Ok (<[From msg := tl]> q)
  else Err (ErrNonceMismatch (Nonce (Msg hd)) (Nonce msg)).
Proof.
  intros H. unfold processMessage, RemoveNext. rewrite H. reflexivity.
Qed.



(** ** What the policy does with one mined message *)

Lemma processMessages_app q a b :
  processMessages q (a ++ b) = obind (processMessages q a) (fun q' => processMessages q' b).
Proof.
  revert q. induction a as [| m a IH]; intros q; simpl; [reflexivity |].
  destruct (processMessage q m); simpl; auto.
Qed.

Lemma processBlocks_messages blocks : forall q msgs,
  blocksMessages blocks = Ok msgs ->
  processBlocks q blocks = processMessages q msgs.
Proof.
  induction blocks as [| blk rest IH]; intros q msgs H; simpl in *.
  - inversion H. reflexivity.
  - destruct (LoadMessages (Messages blk)) as [ms | err]; simpl in *; [| discriminate].
    destruct (blocksMessages rest) as [more | err | pm] eqn:Hrest; simpl in *;
      try discriminate.
    inversion H; subst msgs. rewrite processMessages_app.
    destruct (processMessages q ms); simpl; auto.
Qed.

Lemma processChain_messages chain : forall q msgs,
  chainMessages chain = Ok msgs ->
  processChain q chain = processMessages q msgs.
Proof.
  induction chain as [| ts rest IH]; intros q msgs H; simpl in *.
  - inversion H. reflexivity.
  - destruct (blocksMessages ts) as [ms | err | pm] eqn:Hts; simpl in *;
      try discriminate.
    destruct (chainMessages rest) as [more | err | pm] eqn:Hrest; simpl in *;
      try discriminate.
    inversion H; subst msgs. rewrite processMessages_app.
    rewrite (processBlocks_messages ts q ms Hts).
    destruct (processMessages q ms); simpl; auto.
Qed.

Lemma hasPrefix_refl s : hasPrefix s s = true.
Proof. induction s as [| a s IH]; simpl; [reflexivity |]. rewrite Ascii.eqb_refl. exact IH. Qed.

Lemma contains_refl s : contains s s = true.
Proof. destruct s; simpl; [reflexivity |]. rewrite Ascii.eqb_refl, hasPrefix_refl. reflexivity. Qed.

Lemma HandleNewHead_messages q oldChain newChain msgs h :
  chainMessages newChain = Ok msgs ->
  allHeightZero newChain = false ->
  maxHeight newChain = Ok h ->
  HandleNewHead q oldChain newChain
  = obind (processMessages q msgs) (fun q' =>
    Ok (ExpireBefore q' (Z.of_N h - Z.of_N expiryWindow)%Z)).
Proof.
  intros Hmsgs Hzero Hmax. unfold Message.HandleNewHead. rewrite Hzero.
  rewrite (processChain_messages newChain q _ Hmsgs).
  destruct (processMessages q msgs); simpl; [| reflexivity | reflexivity].
  rewrite Hmax. reflexivity.
Qed.

(** C6, as the model has it.  The policy comes to the message [msg] of the
    new chain with the queue [q1], the messages [post] still to come.  If
    the sender's queue is empty the message is skipped: [HandleNewHead]
    goes on from [q1].  If the nonce at the head of the sender's queue is
    that of [msg], the head is removed: [HandleNewHead] goes on from the
    queue without it.  Otherwise [HandleNewHead] fails with a nonce
    mismatch that carries the nonce at the head of the queue, then the
    nonce of the mined message, and its text holds "nonce N, expected M"
    with N the former and M the latter. *)
Theorem mined_message_against_queue_head q oldChain newChain pre msg post q1 h :
  chainMessages newChain = Ok (pre ++ msg :: post) ->
  processMessages q pre = Ok q1 ->
  allHeightZero newChain = false ->
  maxHeight newChain = Ok h ->
  (List q1 (From msg) = [] ->
   HandleNewHead q oldChain newChain = finishFrom expiryWindow q1 post h) /\
  (forall hd tl, List q1 (From msg) = hd :: tl ->
     (Nonce (Msg hd) = Nonce msg ->
      HandleNewHead q oldChain newChain
      = finishFrom expiryWindow (<[From msg := tl]> q1) post h) /\
     (Nonce (Msg hd) <> Nonce msg ->
      exists e,
        HandleNewHead q oldChain newChain = Err e /\
        e = ErrNonceMismatch (Nonce (Msg hd)) (Nonce msg) /\
        contains (errorText e)
                 ("nonce " ++ decimal (Nonce (Msg hd)) ++ ", expected "
                           ++ decimal (Nonce msg))%string = true)).
Proof.
  intros Hmsgs Hpre Hzero Hmax.
  rewrite (HandleNewHead_messages q oldChain newChain _ h Hmsgs Hzero Hmax).
  rewrite processMessages_app, Hpre. unfold finishFrom. simpl. split.
  - intros Hempty. unfold processMessage. rewrite Hempty. reflexivity.
  - intros hd tl Hq. rewrite (processMessage_head q1 msg hd tl Hq). split.
    + intros Heq. rewrite Heq, N.eqb_refl. reflexivity.
    + intros Hne.
      destruct (N.eqb_spec (Nonce (Msg hd)) (Nonce msg)) as [Heq | _];
        [contradiction |].
      eexists. split; [reflexivity |]. split; [reflexivity |]. apply contains_refl.
Qed.

End Policy.

(** ** The claims on the scenarios of the test *)

(** C4 as stated fails: in the scenario "expires old messages" the new
    head has height 110 and the window is 10; Alice's entry of stamp 100,
    which is exactly [110 - 10], is still queued after the call. *)
Lemma entry_at_threshold_is_kept :
  ~ (forall LoadMessages expiryWindow (q : Queue) oldChain newChain q' h sender e,
        HandleNewHead LoadMessages expiryWindow q oldChain newChain = Ok q' ->
        newChain <> [] ->
        maxHeight newChain = Ok h ->
        e ∈ List q' sender ->
        ~ (Z.of_N (Stamp e) <= Z.of_N h - Z.of_N expiryWindow)%Z).
Proof.
  intros claim.
  apply (claim provider 10 (aliceAndBob 200) [] [[blockAt 2 [0] 110 0]]
               (aliceAndBob 200) 110 alice (mkQueued (fromAlice 1) 100)).
  - vm_compute. reflexivity.
  - discriminate.
  - reflexivity.
  - assert (H : List (aliceAndBob 200) alice
                = [mkQueued (fromAlice 1) 100; mkQueued (fromAlice 2) 101;
                   mkQueued (fromAlice 3) 102]) by (vm_compute; reflexivity).
    rewrite H. apply list_elem_of_here.
  - simpl. lia.
Qed.

(** The same call, as the amended C4 describes it: every entry of Alice
    has a stamp of [110 - 10] or more, and she keeps her queue. *)
Lemma no_entry_older_than_window_witness :
  exists q1,
    (if allHeightZero [[blockAt 2 [0] 110 0]] then q1 = aliceAndBob 200
     else processChain provider (aliceAndBob 200) [[blockAt 2 [0] 110 0]] = Ok q1) /\
    forall sender,
      (forall e, e ∈ List (aliceAndBob 200) sender ->
                 (Z.sub (Z.of_N 110) (Z.of_N 10) <= Z.of_N (Stamp e))%Z) /\
      ((forall e, e ∈ List q1 sender ->
                  (Z.sub (Z.of_N 110) (Z.of_N 10) <= Z.of_N (Stamp e))%Z) ->
       List (aliceAndBob 200) sender = List q1 sender) /\
      ((exists e, e ∈ List q1 sender /\
                  (Z.of_N (Stamp e) < Z.sub (Z.of_N 110) (Z.of_N 10))%Z) ->
       List (aliceAndBob 200) sender = []).
Proof.
  apply (no_entry_older_than_window provider 10 (aliceAndBob 200) []
           [[blockAt 2 [0] 110 0]] (aliceAndBob 200) 110).
  - vm_compute. reflexivity.
  - discriminate.
  - reflexivity.
Defined.


(** C6 as stated fails on the roles of the two nonces: in the scenario
    "fails when messages out of nonce order" the mined message has nonce 2
    and the head of the queue has nonce 1; the text of the error is
    "nonce 1, expected 2" and does not contain "nonce 2, expected 1". *)
Lemma mismatch_text_names_queue_head_first :
  ~ (forall LoadMessages expiryWindow (q : Queue) oldChain newChain pre msg post q1 hd tl,
        chainMessages LoadMessages newChain = Ok (pre ++ msg :: post) ->
        processMessages q pre = Ok q1 ->
        List q1 (From msg) = hd :: tl ->
        Nonce (Msg hd) <> Nonce msg ->
        allHeightZero newChain = false ->
        exists e,
          HandleNewHead LoadMessages expiryWindow q oldChain newChain = Err e /\
          contains (errorText e)
                   ("nonce " ++ decimal (Nonce msg) ++ ", expected "
                             ++ decimal (Nonce (Msg hd)))%string = true).
Proof.
  intros claim.
  destruct (claim provider 10 threeFromAlice [] [[blockAt 2 [0] 101 12]]
                  [] (fromAlice 2) [] threeFromAlice
                  (mkQueued (fromAlice 1) 100)
                  [mkQueued (fromAlice 2) 101; mkQueued (fromAlice 3) 102])
    as (e & Herr & Htext).
  - reflexivity.
  - reflexivity.
  - vm_compute. reflexivity.
  - vm_compute. discriminate.
  - reflexivity.
  - assert (He : HandleNewHead provider 10 threeFromAlice [] [[blockAt 2 [0] 101 12]]
                 = Err (ErrNonceMismatch 1 2)) by (vm_compute; reflexivity).
    rewrite He in Herr. inversion Herr; subst e.
    vm_compute in Htext. discriminate Htext.
Qed.

Lemma mined_message_against_queue_head_witness :
  (List threeFromAlice (From (fromAlice 2)) = [] ->
   policy threeFromAlice [] [[blockAt 2 [0] 101 12]]
   = finishFrom 10 threeFromAlice [] 101) /\
  (forall hd tl, List threeFromAlice (From (fromAlice 2)) = hd :: tl ->
     (Nonce (Msg hd) = Nonce (fromAlice 2) ->
      policy threeFromAlice [] [[blockAt 2 [0] 101 12]]
      = finishFrom 10 (<[From (fromAlice 2) := tl]> threeFromAlice) [] 101) /\
     (Nonce (Msg hd) <> Nonce (fromAlice 2) ->
      exists e,
        policy threeFromAlice [] [[blockAt 2 [0] 101 12]] = Err e /\
        e = ErrNonceMismatch (Nonce (Msg hd)) (Nonce (fromAlice 2)) /\
        contains (errorText e)
                 ("nonce " ++ decimal (Nonce (Msg hd)) ++ ", expected "
                           ++ decimal (Nonce (fromAlice 2)))%string = true)).
Proof.
  apply (mined_message_against_queue_head provider 10 threeFromAlice []
           [[blockAt 2 [0] 101 12]] [] (fromAlice 2) [] threeFromAlice 101).
  - reflexivity.
  - reflexivity.
  - reflexivity.
  - reflexivity.
Defined.

End PolicyFacts.

(** * Properties of the in-memory journal *)

Module JournalFacts.
Import Journal.

Lemma Topic_topics mj t : topics (Topic mj t).2 = topics mj.
Proof. unfold Topic. destruct (bool_decide (t ∈ topics mj)); reflexivity. Qed.

Lemma Write_topics mj w ev args : topics (Write mj w ev args).2 = topics mj.
Proof.
  unfold Write. destruct (writers mj !! w); [| reflexivity].
  destruct (extractKeyValues args); reflexivity.
Qed.

(** No journal a program can hold has a topic in its [topics] map: nothing
    inserts into it. *)
Lemma reachable_topics_empty mj : reachable mj -> topics mj = ∅.
Proof.
  induction 1 as [clk | mj t _ IH | mj w ev args _ IH].
  - reflexivity.
  - rewrite Topic_topics. exact IH.
  - rewrite Write_topics. exact IH.
Qed.

Lemma Topic_fresh mj t :
  topics mj = ∅ ->
  Topic mj t =
  (Ok (length (writers mj)),
   {| jclock := jclock mj; topics := topics mj;
      writers := writers mj ++ [{| wclock := jclock mj; topic := t; entries := [] |}] |}).
Proof.
  intros H. unfold Topic. rewrite H.
  rewrite bool_decide_eq_false_2 by set_solver. reflexivity.
Qed.

Lemma Write_records mj w mw ev args extracted :
  writers mj !! w = Some mw ->
  extractKeyValues args = inr extracted ->
  Write mj w ev args =
  (Ok tt,
   {| jclock := jclock mj; topics := topics mj;
      writers := <[w := {| wclock := wclock mw; topic := topic mw;
                           entries := entries mw ++
                             [{| time := Now (wclock mw); event := ev;
                                 kvs := extracted |}] |}]> (writers mj) |}).
Proof. intros Hw He. unfold Write. rewrite Hw, He. reflexivity. Qed.

(** C10.  On a journal made by [NewInMemoryJournal] and used through
    [Topic] and [Write], the [topics] map is empty, so [Topic] does not
    panic; two calls with the same topic return two distinct writers, both
    held by the journal under that topic, and each of them records the
    entries written to it. *)
Theorem Topic_never_panics_on_duplicate mj t ev args extracted :
  reachable mj ->
  extractKeyValues args = inr extracted ->
  let w1 := length (writers mj) in
  let w2 := S (length (writers mj)) in
  let mj1 := (Topic mj t).2 in
  let mj2 := (Topic mj1 t).2 in
  let mj3 := (Write mj2 w1 ev args).2 in
  let mj4 := (Write mj3 w2 ev args).2 in
  let ent := {| time := Now (jclock mj); event := ev; kvs := extracted |} in
  topics mj = ∅ /\
  (Topic mj t).1 = Ok w1 /\
  (Topic mj1 t).1 = Ok w2 /\
  w1 <> w2 /\
  writers mj2 !! w1 = Some {| wclock := jclock mj; topic := t; entries := [] |} /\
  writers mj2 !! w2 = Some {| wclock := jclock mj; topic := t; entries := [] |} /\
  (Write mj2 w1 ev args).1 = Ok tt /\
  writers mj3 !! w1 = Some {| wclock := jclock mj; topic := t; entries := [ent] |} /\
  writers mj3 !! w2 = Some {| wclock := jclock mj; topic := t; entries := [] |} /\
  (Write mj3 w2 ev args).1 = Ok tt /\
  writers mj4 !! w1 = Some {| wclock := jclock mj; topic := t; entries := [ent] |} /\
  writers mj4 !! w2 = Some {| wclock := jclock mj; topic := t; entries := [ent] |}.
Proof.
  intros Hreach Hargs w1 w2 mj1 mj2 mj3 mj4 ent.
  pose proof (reachable_topics_empty mj Hreach) as Hempty.
  assert (H1 : Topic mj t = (Ok w1, mj1)).
  { unfold mj1. rewrite (Topic_fresh mj t Hempty). reflexivity. }
  assert (Hmj1 : mj1 = {| jclock := jclock mj; topics := topics mj;
                          writers := writers mj ++
                            [{| wclock := jclock mj; topic := t; entries := [] |}] |}).
  { unfold mj1. rewrite (Topic_fresh mj t Hempty). reflexivity. }
  assert (Hempty1 : topics mj1 = ∅) by (rewrite Hmj1; exact Hempty).
  assert (Hmj2 : mj2 = {| jclock := jclock mj; topics := topics mj;
                          writers := (writers mj ++
                            [{| wclock := jclock mj; topic := t; entries := [] |}]) ++
                            [{| wclock := jclock mj; topic := t; entries := [] |}] |}).
  { unfold mj2. rewrite (Topic_fresh mj1 t Hempty1), Hmj1. reflexivity. }
  assert (Hw2 : (Topic mj1 t).1 = Ok w2).
  { rewrite (Topic_fresh mj1 t Hempty1), Hmj1. simpl.
    rewrite length_app. simpl. unfold w2. f_equal. lia. }
  assert (L1 : writers mj2 !! w1
               = Some {| wclock := jclock mj; topic := t; entries := [] |}).
  { rewrite Hmj2. simpl. rewrite lookup_app_l by (rewrite length_app; simpl; unfold w1; lia).
    apply list_lookup_middle. reflexivity. }
  assert (L2 : writers mj2 !! w2
               = Some {| wclock := jclock mj; topic := t; entries := [] |}).
  { rewrite Hmj2. simpl. apply list_lookup_middle.
    rewrite length_app. simpl. unfold w2. lia. }
  assert (Hneq : w1 <> w2) by (unfold w1, w2; lia).
  assert (Hwr3 : Write mj2 w1 ev args = (Ok tt, mj3)).
  { unfold mj3. rewrite (Write_records mj2 w1 _ ev args extracted L1 Hargs). reflexivity. }
  assert (W3 : writers mj3
               = <[w1 := {| wclock := jclock mj; topic := t; entries := [ent] |}]>
                   (writers mj2)).
  { unfold mj3. rewrite (Write_records mj2 w1 _ ev args extracted L1 Hargs). reflexivity. }
  assert (L31 : writers mj3 !! w1
                = Some {| wclock := jclock mj; topic := t; entries := [ent] |}).
  { rewrite W3. apply list_lookup_insert_eq. apply lookup_lt_Some in L1. exact L1. }
  assert (L32 : writers mj3 !! w2
                = Some {| wclock := jclock mj; topic := t; entries := [] |}).
  { rewrite W3. rewrite list_lookup_insert_ne by exact Hneq. exact L2. }
  assert (W4 : writers mj4
               = <[w2 := {| wclock := jclock mj; topic := t; entries := [ent] |}]>
                   (writers mj3)).
  { unfold mj4. rewrite (Write_records mj3 w2 _ ev args extracted L32 Hargs). reflexivity. }
  repeat split.
  - exact Hempty.
  - rewrite H1. reflexivity.
  - exact Hw2.
  - exact Hneq.
  - exact L1.
  - exact L2.
  - rewrite Hwr3. reflexivity.
  - exact L31.
  - exact L32.
  - rewrite (Write_records mj3 w2 _ ev args extracted L32 Hargs). reflexivity.
  - rewrite W4. rewrite list_lookup_insert_ne by (intros E; apply Hneq; symmetry; exact E).
    exact L31.
  - rewrite W4. apply list_lookup_insert_eq. apply lookup_lt_Some in L32. exact L32.
Qed.

(** The journal of the test, with the topic "testing" taken twice. *)
Lemma Topic_never_panics_on_duplicate_witness :
  let mj := NewInMemoryJournal {| Now := 1234567890 |} in
  let mj2 := (Topic (Topic mj "testing").2 "testing").2 in
  (Topic mj "testing").1 = Ok 0%nat /\
  (Topic (Topic mj "testing").2 "testing").1 = Ok 1%nat /\
  (Write mj2 0 "event1" [VString "foo"; VString "bar"]).1 = Ok tt.
Proof.
  pose proof (Topic_never_panics_on_duplicate
                (NewInMemoryJournal {| Now := 1234567890 |}) "testing" "event1"
                [VString "foo"; VString "bar"] {[ "foo" := VString "bar" ]}
                (reach_new _) eq_refl) as H.
  simpl in H. destruct H as (_ & H1 & H2 & _ & _ & _ & H3 & _).
  repeat split; assumption.
Defined.

End JournalFacts.

(** * Further properties of the syncer *)

Module SyncerMore.
Import Types Chain SyncerNotions SyncerScenario.
Local Open Scope syncer_scope.

(** ** The store only grows *)

Lemma preservesStore_ret {A} (a : A) : preservesStore (ret a).
Proof. intros s Hs. split; [exact Hs | auto]. Qed.

Lemma preservesStore_lift {A} (r : outcome A) : preservesStore (lift r).
Proof. intros s Hs. split; [exact Hs | auto]. Qed.

Lemma preservesStore_readStore {A} (f : Store -> outcome A) :
  preservesStore (readStore f).
Proof. intros s Hs. split; [exact Hs | auto]. Qed.

Lemma preservesStore_record c : preservesStore (record c).
Proof. intros s Hs. split; [exact Hs | auto]. Qed.

Lemma preservesStore_poison chain : preservesStore (poison chain).
Proof. intros s Hs. split; [exact Hs | auto]. Qed.

Lemma preservesStore_bind {A B} (m : M A) (k : A -> M B) :
  preservesStore m -> (forall a, preservesStore (k a)) -> preservesStore (bind m k).
Proof.
  intros Hm Hk s Hs. unfold bind. destruct (Hm s Hs) as [Hs1 Hmono1].
  destruct (m s) as [[a | e | msg] s1]; simpl in *; auto.
  destruct (Hk a s1 Hs1) as [Hs2 Hmono2]. split; auto.
Qed.

Lemma preservesStore_Put tsas :
  preservesStore (writeStore (fun st => PutTipSetAndState st tsas)).
Proof.
  intros s [Hcons Hhead]. unfold writeStore, PutTipSetAndState, sound, stored,
    StoreConsistent. simpl.
  assert (Hmono : forall k, is_Some (tipSets (chainStore s) !! k) ->
                            is_Some (<[Key (TipSetOf tsas) := tsas]>
                                       (tipSets (chainStore s)) !! k)).
  { intros k Hk. destruct (decide (Key (TipSetOf tsas) = k)) as [Heq | Hne].
    - rewrite <- Heq, lookup_insert_eq. eauto.
    - rewrite lookup_insert_ne by exact Hne. exact Hk. }
  split; [split |]; auto.
  intros k t. destruct (decide (Key (TipSetOf tsas) = k)) as [Heq | Hne].
  - rewrite <- Heq, lookup_insert_eq. intros E. inversion E; subst. reflexivity.
  - rewrite lookup_insert_ne by exact Hne. apply Hcons.
Qed.

Lemma preservesStore_SetHead ts :
  preservesStore (writeStore (fun st => SetHead st ts)).
Proof.
  intros s [Hcons Hhead]. unfold writeStore, SetHead.
  destruct (HasTipSetAndState (chainStore s) (Key ts)) eqn:Hhas; simpl.
  - unfold sound, stored. simpl. split; [split |]; auto.
    apply bool_decide_eq_true in Hhas. exact Hhas.
  - split; [split |]; auto.
Qed.

(** ** The union that [widen] forms *)

Lemma unionBlocks_first_loop ts : forall (l : list Block) (seen : gset Cid),
  foldl (fun acc blk => (acc.1 ++ [blk], {[blockCid blk]} ∪ acc.2)) (l, seen) ts
  = (l ++ ts, list_to_set (map blockCid ts) ∪ seen).
Proof.
  induction ts as [| b ts IH]; intros l seen; simpl.
  - rewrite app_nil_r. f_equal. symmetry. apply (left_id_L ∅ (∪)).
  - rewrite IH. rewrite <- app_assoc. simpl. f_equal.
    rewrite (comm_L (∪) {[blockCid b]} (list_to_set (map blockCid ts))).
    rewrite (assoc_L (∪)). reflexivity.
Qed.

Lemma unionBlocks_second_loop max : forall (acc : list Block * gset Cid),
  (forall c, c ∈ acc.2 <-> c ∈ map blockCid acc.1) ->
  let step := fun (acc : list Block * gset Cid) (blk : Block) =>
    if bool_decide (blockCid blk ∈ acc.2) then acc
    else (acc.1 ++ [blk], {[blockCid blk]} ∪ acc.2) in
  let r := foldl step acc max in
  (exists added, r.1 = acc.1 ++ added /\ forall b, b ∈ added -> b ∈ max) /\
  (forall c, c ∈ map blockCid r.1 <-> c ∈ map blockCid acc.1 \/ c ∈ map blockCid max) /\
  (NoDup (map blockCid acc.1) -> NoDup (map blockCid r.1)).
Proof.
  induction max as [| blk max IH]; intros acc Hinv; simpl.
  - split; [exists []; rewrite app_nil_r; split; [reflexivity | intros b Hb; inversion Hb] |].
    split; [| auto]. intros c. split; [auto |]. intros [H | H]; [exact H | inversion H].
  - destruct (bool_decide (blockCid blk ∈ acc.2)) eqn:Hseen.
    + apply bool_decide_eq_true in Hseen. apply Hinv in Hseen.
      destruct (IH acc Hinv) as ((added & Hadded & Hsub) & Hcids & Hnd).
      split; [exists added; split; [exact Hadded | intros b Hb; right; auto] |].
      split; [| exact Hnd].
      intros c. rewrite Hcids. split.
      * intros [H | H]; [auto | right; right; exact H].
      * intros [H | H]; [auto |]. apply elem_of_cons in H as [-> | H]; auto.
    + apply bool_decide_eq_false in Hseen.
      assert (Hfresh : blockCid blk ∉ map blockCid acc.1).
      { intros H. apply Hseen. apply Hinv. exact H. }
      assert (Hinv' : forall c,
                 c ∈ (acc.1 ++ [blk], {[blockCid blk]} ∪ acc.2).2 <->
                 c ∈ map blockCid (acc.1 ++ [blk], {[blockCid blk]} ∪ acc.2).1).
      { intros c. simpl. rewrite map_app. simpl. rewrite elem_of_app, elem_of_union.
        rewrite Hinv, elem_of_singleton, list_elem_of_singleton. tauto. }
      destruct (IH _ Hinv') as ((added & Hadded & Hsub) & Hcids & Hnd).
      simpl in *.
      split.
      { exists (blk :: added). split.
        - rewrite Hadded, <- app_assoc. reflexivity.
        - intros b Hb. apply elem_of_cons in Hb as [-> | Hb]; [left | right; auto]. }
      split.
      { intros c. rewrite Hcids, map_app. simpl.
        rewrite elem_of_app, list_elem_of_singleton, elem_of_cons. tauto. }
      intros Hnd0. apply Hnd. rewrite map_app. simpl.
      apply NoDup_app. split; [exact Hnd0 |]. split.
      * intros c Hc Hc'. apply list_elem_of_singleton in Hc'. subst c. contradiction.
      * apply NoDup_singleton.
Qed.

Lemma unionBlocks_loops ts max :
  (exists added, unionBlocks ts max = ts ++ added /\ forall b, b ∈ added -> b ∈ max) /\
  (forall c, c ∈ map blockCid (unionBlocks ts max) <->
             c ∈ map blockCid ts \/ c ∈ map blockCid max) /\
  (NoDup (map blockCid ts) -> NoDup (map blockCid (unionBlocks ts max))).
Proof.
  unfold unionBlocks. rewrite unionBlocks_first_loop. simpl.
  apply (unionBlocks_second_loop max (ts, list_to_set (map blockCid ts) ∪ ∅)).
  intros c. simpl. rewrite elem_of_union, elem_of_list_to_set.
  split; [intros [H | H]; [exact H | inversion H] | auto].
Qed.

(** X9.  The union that [widen] forms of a tipset [ts] and a stored
    tipset [max] starts with the blocks of [ts], takes every other block
    from [max], holds exactly the CIDs of the two, and has no CID twice
    when [ts] has none. *)
Theorem unionBlocks_is_a_deduplicated_union ts max :
  (exists added, unionBlocks ts max = ts ++ added /\ forall b, b ∈ added -> b ∈ max) /\
  (forall c, c ∈ map blockCid (unionBlocks ts max) <->
             c ∈ map blockCid ts \/ c ∈ map blockCid max) /\
  (NoDup (map blockCid ts) -> NoDup (map blockCid (unionBlocks ts max))).
Proof.
  exact (unionBlocks_loops ts max).
Qed.

Lemma insertBy_Permutation {A} (leb : A -> A -> bool) x l :
  insertBy leb x l ≡ₚ x :: l.
Proof.
  induction l as [| y l IH]; simpl; [reflexivity |].
  destruct (leb x y); [reflexivity |].
  rewrite IH. apply Permutation_swap.
Qed.

Lemma sortBy_Permutation {A} (leb : A -> A -> bool) l : sortBy leb l ≡ₚ l.
Proof.
  unfold sortBy. induction l as [| x l IH]; simpl; [reflexivity |].
  rewrite insertBy_Permutation, IH. reflexivity.
Qed.

Lemma NewTipSet_Permutation blocks ts : NewTipSet blocks = Ok ts -> ts ≡ₚ blocks.
Proof.
  unfold NewTipSet. destruct blocks as [| b0 rest]; [discriminate |].
  repeat match goal with |- context [if ?c then _ else _] => destruct c end;
    try discriminate.
  intros H. injection H as <-. exact (sortBy_Permutation blockLeb (b0 :: rest)).
Qed.

Lemma candidates_are_stored st pk h candidates c :
  GetTipSetAndStatesByParentsAndHeight st pk h = Ok candidates ->
  c ∈ candidates ->
  hasParentsAndHeight pk h c = true /\ exists k, tipSets st !! k = Some c.
Proof.
  unfold GetTipSetAndStatesByParentsAndHeight. intros H Hc. inversion H; subst; clear H.
  apply list_elem_of_In in Hc. apply filter_In in Hc as [Hin Hf]. split; [exact Hf |].
  apply in_map_iff in Hin as ([k c'] & Heq & Hin). simpl in Heq. subst c'.
  exists k. apply elem_of_map_to_list. apply list_elem_of_In. exact Hin.
Qed.

Lemma widenMax_is_a_candidate first rest :
  exists c, c ∈ first :: rest /\ TipSetOf c = widenMax first (first :: rest).
Proof.
  destruct (SyncerFacts.widenMax_loop (first :: rest) (TipSetOf first))
    as (_ & _ & Hcase).
  fold (widenMax first (first :: rest)) in Hcase.
  destruct Hcase as [[Hm _] | (i & c & Hi & Hc & _)].
  - exists first. split; [left | congruence].
  - exists c. split; [| exact Hc]. apply list_elem_of_lookup_2 in Hi. exact Hi.
Qed.

(** X10.  [widen] leaves the syncer as it was.  A tipset it returns, when
    defined, differs in key from the input, holds every block of the input,
    and holds besides only blocks of one tipset that the store has for the
    same parents and height. *)
Theorem widen_adds_only_stored_siblings ts s wts :
  (widen ts s).1 = Ok wts ->
  Defined wts = true ->
  (widen ts s).2 = s /\
  Key wts <> Key ts /\
  (forall b, b ∈ ts -> b ∈ wts) /\
  (Len ts <= Len wts)%nat /\
  exists pk h k c,
    Parents ts = Ok pk /\ Height ts = Ok h /\
    tipSets (chainStore s) !! k = Some c /\
    hasParentsAndHeight pk h c = true /\
    Key wts <> Key (TipSetOf c) /\
    forall b, b ∈ wts -> b ∈ ts \/ b ∈ TipSetOf c.
Proof.
  intros Hw Hdef. split; [apply SyncerFacts.widen_readonly |].
  assert (Hundef : forall x : TipSet, Ok UndefTipSet = Ok x -> Defined x = true -> False).
  { intros x Hx Hd. inversion Hx; subst x. discriminate Hd. }
  unfold widen, bind, lift, readStore, ret in Hw.
  destruct (Parents ts) as [pk | e | msg] eqn:Hp; cbv beta iota in Hw;
    try discriminate.
  destruct (Height ts) as [h | e | msg] eqn:Hh; cbv beta iota in Hw; try discriminate.
  destruct (HasTipSetAndStatesWithParentsAndHeight (chainStore s) pk h);
    cbn [negb fst snd] in Hw; [| exfalso; eapply Hundef; eauto].
  destruct (GetTipSetAndStatesByParentsAndHeight (chainStore s) pk h)
    as [candidates | e | msg] eqn:Hcands; cbn [fst snd] in Hw; try discriminate.
  destruct candidates as [| first rest]; cbn [fst snd] in Hw;
    [exfalso; eapply Hundef; eauto |].
  destruct (widenMax_is_a_candidate first rest) as (c & Hc & Hmax).
  rewrite <- Hmax in Hw.
  destruct (NewTipSet (unionBlocks ts (TipSetOf c))) as [w | e | msg] eqn:Hnew;
    cbn [fst snd] in Hw; try discriminate.
  destruct (bool_decide (Key w = Key ts)) eqn:Hk1; cbn [orb fst snd] in Hw;
    [exfalso; eapply Hundef; eauto |].
  destruct (bool_decide (Key w = Key (TipSetOf c))) eqn:Hk2; cbn [orb fst snd] in Hw;
    [exfalso; eapply Hundef; eauto |].
  inversion Hw; subst w; clear Hw.
  apply bool_decide_eq_false in Hk1, Hk2.
  apply NewTipSet_Permutation in Hnew.
  destruct (unionBlocks_loops ts (TipSetOf c))
    as ((added & Hadded & Hsub) & _ & _).
  destruct (candidates_are_stored _ _ _ _ c Hcands Hc) as (Hf & k & Hk).
  split; [exact Hk1 |]. split.
  { intros b Hb. rewrite Hnew, Hadded. apply elem_of_app. auto. }
  split.
  { unfold Len. rewrite Hnew, Hadded, length_app. lia. }
  exists pk, h, k, c. repeat split; auto.
  intros b Hb. rewrite Hnew, Hadded in Hb. apply elem_of_app in Hb as [Hb | Hb]; auto.
Qed.


(** ** The ancestors of a tipset *)

(** X21.  [ancestorsFromStore] leaves the syncer as it was.  On a store
    that files every tipset under its key, the parent it returns is the
    tipset the store holds for the parents of the input; the grandparent is
    the undefined tipset when that parent has no parents, and otherwise the
    tipset the store holds for the parents of the parent. *)
Theorem ancestorsFromStore_returns_stored_ancestors ts s parent grandParent :
  StoreConsistent (chainStore s) ->
  (ancestorsFromStore ts s).1 = Ok (parent, grandParent) ->
  (ancestorsFromStore ts s).2 = s /\
  Parents ts = Ok (Key parent) /\
  GetTipSet (chainStore s) (Key parent) = Ok parent /\
  exists gpk,
    Parents parent = Ok gpk /\
    if Empty gpk then grandParent = UndefTipSet
    else Key grandParent = gpk /\ GetTipSet (chainStore s) gpk = Ok grandParent.
Proof.
  intros Hc H. split; [apply SyncerFacts.ancestorsFromStore_readonly |].
  unfold ancestorsFromStore, bind, lift, readStore, ret in H.
  destruct (Parents ts) as [pk | e | msg] eqn:Hp; cbv beta iota in H; try discriminate.
  destruct (GetTipSet (chainStore s) pk) as [p | e | msg] eqn:Hparent;
    cbv beta iota in H; try discriminate.
  destruct (Parents p) as [gpk | e | msg] eqn:Hgp; cbv beta iota in H; try discriminate.
  pose proof (SyncerFacts.GetTipSet_Key _ _ _ Hc Hparent) as Hkey.
  destruct (Empty gpk) eqn:Hempty; cbn [fst snd] in H.
  - inversion H; subst p grandParent. rewrite Hkey. repeat split; auto.
    exists gpk. rewrite Hempty. auto.
  - destruct (GetTipSet (chainStore s) gpk) as [gp | e | msg] eqn:Hgrand;
      cbn [fst snd] in H; try discriminate.
    inversion H; subst p gp. rewrite Hkey. repeat split; auto.
    exists gpk. rewrite Hempty.
    split; [| split; [| exact Hgrand]]; auto.
    exact (SyncerFacts.GetTipSet_Key _ _ _ Hc Hgrand).
Qed.


Section WithCollaborators.

Variable FetchTipSets :
  TipSetKey -> string -> (TipSet -> outcome bool) -> ext (list TipSet).
Variable RunStateTransition :
  TipSet -> list (list SignedMessage) -> list (list MessageReceipt) ->
  list TipSet -> N -> Cid -> ext Cid.
Variable IsHeavier : TipSet -> TipSet -> Cid -> Cid -> ext bool.
Variable NewWeight : TipSet -> Cid -> ext N.
Variable LoadMessages : Cid -> ext (list SignedMessage).
Variable LoadReceipts : Cid -> ext (list MessageReceipt).
Variable GetRecentAncestors : TipSet -> Store -> Z -> ext (list TipSet).
Variable AncestorRoundsNeeded : Z.

Local Abbreviation syncOne :=
  (syncOne RunStateTransition IsHeavier NewWeight LoadMessages LoadReceipts
           GetRecentAncestors AncestorRoundsNeeded).
Local Abbreviation syncRound :=
  (syncRound RunStateTransition IsHeavier NewWeight LoadMessages LoadReceipts
             GetRecentAncestors AncestorRoundsNeeded).
Local Abbreviation syncLoop :=
  (syncLoop RunStateTransition IsHeavier NewWeight LoadMessages LoadReceipts
            GetRecentAncestors AncestorRoundsNeeded).
Local Abbreviation HandleNewTipSet :=
  (HandleNewTipSet FetchTipSets RunStateTransition IsHeavier NewWeight LoadMessages
                   LoadReceipts GetRecentAncestors AncestorRoundsNeeded).
Local Abbreviation gatherMessages := (gatherMessages LoadMessages LoadReceipts).
Local Abbreviation calculateParentWeight := (calculateParentWeight NewWeight).

Ltac preservesStore_tac :=
  repeat first
    [ apply preservesStore_ret
    | apply preservesStore_lift
    | apply preservesStore_readStore
    | apply preservesStore_record
    | apply preservesStore_poison
    | apply preservesStore_Put
    | apply preservesStore_SetHead
    | apply preservesStore_bind; [| intros ?]
    | match goal with
      | |- preservesStore (if ?c then _ else _) => destruct c
      | |- preservesStore (match ?c with _ => _ end) => destruct c
      end ].

Lemma syncOne_preservesStore gp p next : preservesStore (syncOne gp p next).
Proof. unfold Chain.syncOne, Chain.calculateParentWeight. preservesStore_tac. Qed.

Lemma widen_preservesStore ts : preservesStore (widen ts).
Proof. unfold widen. preservesStore_tac. Qed.

Lemma syncRound_preservesStore chain i ts gp p :
  preservesStore (syncRound chain i ts gp p).
Proof.
  unfold Chain.syncRound. apply preservesStore_bind.
  - destruct (i =? 0)%nat; [| apply preservesStore_ret].
    apply preservesStore_bind; [apply widen_preservesStore |].
    intros wts. destruct (Defined wts); [| apply preservesStore_ret].
    apply preservesStore_bind; [apply syncOne_preservesStore |].
    intros; apply preservesStore_ret.
  - intros wts. destruct (negb (Defined wts) || (1 <? length chain)%nat);
      [| apply preservesStore_ret].
    intros s Hs. destruct (syncOne_preservesStore gp p ts s Hs) as [Hs1 Hmono].
    destruct (syncOne gp p ts s) as [[u | e | msg] s1]; simpl in *; auto.
Qed.

Lemma syncLoop_preservesStore chain rest : forall i gp p,
  preservesStore (syncLoop chain i rest gp p).
Proof.
  induction rest as [| ts rest IH]; intros i gp p; simpl.
  - apply preservesStore_ret.
  - apply preservesStore_bind; [apply syncRound_preservesStore | intros _; apply IH].
Qed.

(** X1.  Whatever [HandleNewTipSet] returns, success, error or panic, a
    store that was consistent and held its head still is and does, and
    every tipset that was stored before the call is stored after it. *)
Theorem HandleNewTipSet_store_only_grows ci trusted s :
  sound s ->
  sound (HandleNewTipSet ci trusted s).2 /\
  (forall k, HasTipSetAndState (chainStore s) k = true ->
             HasTipSetAndState (chainStore (HandleNewTipSet ci trusted s).2) k = true).
Proof.
  intros Hs.
  assert (H : preservesStore (HandleNewTipSet ci trusted)).
  { unfold Chain.HandleNewTipSet.
    apply preservesStore_bind; [apply preservesStore_readStore |]. intros known.
    destruct known; [apply preservesStore_ret |].
    apply preservesStore_bind; [apply preservesStore_readStore |]. intros curHead.
    apply preservesStore_bind; [apply preservesStore_lift |]. intros curHeight.
    destruct (negb trusted && ExceedsUntrustedChainLength curHeight (CIHeight ci));
      [apply preservesStore_lift |].
    apply preservesStore_bind; [apply preservesStore_readStore |]. intros fetched.
    simpl. destruct (Reverse fetched) as [| first rest]; [apply preservesStore_lift |].
    apply preservesStore_bind; [unfold ancestorsFromStore; preservesStore_tac |].
    intros anc. apply syncLoop_preservesStore. }
  destruct (H s Hs) as [Hsound Hmono]. split; [exact Hsound |].
  intros k Hk. apply SyncerFacts.stored_Has. apply Hmono.
  apply SyncerFacts.stored_Has. exact Hk.
Qed.

(** ** What reaches the bad-tipset cache *)

Lemma AddChain_elem chain : forall (bad : badTipSetCache) k,
  k ∈ AddChain bad chain <-> k ∈ bad \/ exists ts, ts ∈ chain /\ Key ts = k.
Proof.
  unfold AddChain. induction chain as [| t chain IH]; intros bad k; simpl.
  - split; [auto |]. intros [H | (ts & Hts & _)]; [exact H | inversion Hts].
  - rewrite IH. split.
    + intros [H | (ts & Hts & Hk)].
      * apply elem_of_union in H as [H | H]; [| auto].
        apply elem_of_singleton in H. right. exists t. split; [left | auto].
      * right. exists ts. split; [right; exact Hts | exact Hk].
    + intros [H | (ts & Hts & Hk)].
      * left. apply elem_of_union. auto.
      * apply elem_of_cons in Hts as [-> | Hts].
        -- left. apply elem_of_union. left. apply elem_of_singleton. auto.
        -- right. eauto.
Qed.

Lemma widen_keepsBad ts : keepsBad (widen ts).
Proof. intros s. rewrite (SyncerFacts.widen_readonly ts s). reflexivity. Qed.

Lemma syncRound_bad chain i ts gp p s r s' :
  syncRound chain i ts gp p s = (r, s') ->
  badTipSets s' = badTipSets s \/
  exists e, r = Err e /\ badTipSets s' = AddChain (badTipSets s) (drop i chain).
Proof.
  unfold Chain.syncRound.
  set (m1 := if (i =? 0)%nat
             then wts <- widen ts;;
                  (if Defined wts then syncOne gp p wts;;; ret wts else ret wts)
             else ret UndefTipSet).
  assert (Hm1 : keepsBad m1).
  { unfold m1. destruct (i =? 0)%nat; [| apply SyncerFacts.keepsBad_ret].
    apply SyncerFacts.keepsBad_bind; [apply widen_keepsBad |].
    intros wts. destruct (Defined wts); [| apply SyncerFacts.keepsBad_ret].
    apply SyncerFacts.keepsBad_bind; [apply SyncerFacts.syncOne_keepsBad |].
    intros; apply SyncerFacts.keepsBad_ret. }
  unfold bind at 1. specialize (Hm1 s).
  destruct (m1 s) as [[wts | e | msg] s1]; simpl in Hm1 |- *;
    [| intros H; inversion H; subst; auto | intros H; inversion H; subst; auto].
  destruct (negb (Defined wts) || (1 <? length chain)%nat);
    [| intros H; inversion H; subst; auto].
  pose proof (SyncerFacts.syncOne_keepsBad RunStateTransition IsHeavier NewWeight
                LoadMessages LoadReceipts GetRecentAncestors AncestorRoundsNeeded
                gp p ts s1) as Hone.
  destruct (syncOne gp p ts s1) as [[u | e | msg] s2]; simpl in Hone |- *;
    intros H; inversion H; subst; clear H.
  - left. congruence.
  - right. exists e. split; [reflexivity |]. simpl. congruence.
  - left. congruence.
Qed.

Lemma syncLoop_bad chain rest : forall i gp p s r s',
  (i + length rest = length chain)%nat ->
  syncLoop chain i rest gp p s = (r, s') ->
  badTipSets s' = badTipSets s \/
  exists e j, r = Err e /\ (j < length chain)%nat /\
              badTipSets s' = AddChain (badTipSets s) (drop j chain).
Proof.
  induction rest as [| ts rest IH]; intros i gp p s r s' Hlen H; simpl in H.
  - inversion H; subst. left. reflexivity.
  - unfold bind in H.
    destruct (syncRound chain i ts gp p s) as [r1 s1] eqn:Hround.
    destruct (syncRound_bad chain i ts gp p s r1 s1 Hround) as [Hsame | (e & He & Hbad)].
    + destruct r1 as [u | e | msg]; [| inversion H; subst; auto | inversion H; subst; auto].
      destruct (IH (S i) p ts s1 r s') as [Hsame' | (e & j & He & Hj & Hbad)];
        [simpl in Hlen; lia | exact H | left; congruence |].
      right. exists e, j. rewrite Hbad, Hsame. auto.
    + subst r1. inversion H; subst.
      right. exists e, i. split; [reflexivity |]. split; [simpl in Hlen; lia | exact Hbad].
Qed.

Lemma HandleNewTipSet_bad ci trusted s r s' :
  HandleNewTipSet ci trusted s = (r, s') ->
  badTipSets s' = badTipSets s \/
  exists e fetched j,
    r = Err e /\
    FetchTipSets (Head ci) (Peer ci) (stopAtKnownParents (chainStore s)) = ExtOk fetched /\
    (j < length (Reverse fetched))%nat /\
    badTipSets s' = AddChain (badTipSets s) (drop j (Reverse fetched)).
Proof.
  intros Hrun.
  unfold Chain.HandleNewTipSet, bind, readStore, lift, ret, fail in Hrun.
  simpl in Hrun.
  destruct (HasTipSetAndState (chainStore s) (Head ci));
    [inversion Hrun; subst; auto |].
  destruct (GetTipSet (chainStore s) (GetHead (chainStore s))) as [curHead | e | msg];
    [| inversion Hrun; subst; auto | inversion Hrun; subst; auto].
  destruct (Height curHead) as [curHeight | e | msg];
    [| inversion Hrun; subst; auto | inversion Hrun; subst; auto].
  destruct (negb trusted && ExceedsUntrustedChainLength curHeight (CIHeight ci));
    [inversion Hrun; subst; auto |].
  destruct (FetchTipSets (Head ci) (Peer ci) (stopAtKnownParents (chainStore s)))
    as [fetched | msg] eqn:Hfetch; simpl in Hrun; [| inversion Hrun; subst; auto].
  destruct (Reverse fetched) as [| first rest] eqn:Hchain;
    [inversion Hrun; subst; auto |].
  pose proof (SyncerFacts.ancestorsFromStore_readonly first s) as Hro.
  destruct (ancestorsFromStore first s) as [[anc | e | msg] s1]; simpl in Hro;
    subst s1; [| inversion Hrun; subst; auto | inversion Hrun; subst; auto].
  destruct (syncLoop_bad (first :: rest) (first :: rest) 0 anc.2 anc.1 s r s'
              eq_refl Hrun)
    as [Hsame | (e & j & He & Hj & Hbad)]; [left; exact Hsame |].
  right. exists e, fetched, j. rewrite Hchain. auto.
Qed.

(** X2.  A call of [HandleNewTipSet] either leaves the bad-tipset cache as
    it was, or it fails and has added to the cache the keys of the fetched
    chain, in height order, from some index on; the added part is not
    empty.  A call that succeeds leaves the cache as it was. *)
Theorem HandleNewTipSet_poisons_a_suffix ci trusted s :
  (badTipSets (HandleNewTipSet ci trusted s).2 = badTipSets s \/
   exists e fetched j,
     (HandleNewTipSet ci trusted s).1 = Err e /\
     FetchTipSets (Head ci) (Peer ci) (stopAtKnownParents (chainStore s)) = ExtOk fetched /\
     (j < length (Reverse fetched))%nat /\
     badTipSets (HandleNewTipSet ci trusted s).2
     = AddChain (badTipSets s) (drop j (Reverse fetched))) /\
  ((HandleNewTipSet ci trusted s).1 = Ok tt ->
   badTipSets (HandleNewTipSet ci trusted s).2 = badTipSets s).
Proof.
  destruct (HandleNewTipSet ci trusted s) as [r s'] eqn:Hrun. simpl.
  pose proof (HandleNewTipSet_bad ci trusted s r s' Hrun) as Hmain.
  split; [exact Hmain |].
  intros Hok. destruct Hmain as [H | (e & _ & _ & He & _)]; [exact H |].
  rewrite Hok in He. discriminate.
Qed.

(** X3.  Only keys of fetched tipsets are ever put in the bad-tipset
    cache, and no key is ever taken out of it. *)
Theorem HandleNewTipSet_cache_only_grows ci trusted s k :
  (k ∈ badTipSets s -> k ∈ badTipSets (HandleNewTipSet ci trusted s).2) /\
  (k ∈ badTipSets (HandleNewTipSet ci trusted s).2 ->
   k ∈ badTipSets s \/
   exists fetched ts,
     FetchTipSets (Head ci) (Peer ci) (stopAtKnownParents (chainStore s)) = ExtOk fetched /\
     ts ∈ fetched /\ Key ts = k).
Proof.
  destruct (HandleNewTipSet ci trusted s) as [r s'] eqn:Hrun. simpl.
  destruct (HandleNewTipSet_bad ci trusted s r s' Hrun) as [Hsame | Hadd].
  - rewrite Hsame. auto.
  - destruct Hadd as (e & fetched & j & _ & Hfetch & _ & Hbad). rewrite Hbad.
    split.
    + intros Hk. apply AddChain_elem. auto.
    + intros Hk. apply AddChain_elem in Hk as [Hk | (ts & Hts & Hkey)]; [auto |].
      right. exists fetched, ts. split; [exact Hfetch |]. split; [| exact Hkey].
      apply list_elem_of_lookup in Hts as [n Hn]. rewrite lookup_drop in Hn.
      apply list_elem_of_lookup_2 in Hn. unfold Reverse in Hn.
      apply list_elem_of_In. apply in_rev. apply list_elem_of_In. exact Hn.
Qed.

(** ** The state root that is stored *)

(** X4.  When [syncOne] succeeds on a tipset that is not the head, the
    store holds that tipset with the state root the state evaluator
    returned for it, computed from the state root stored for its parent,
    from the recent ancestors of the parent, from the messages and receipts
    of its blocks and from the weight the chain selector gives the parent:
    over the undefined CID when there is no grandparent, and otherwise over
    the state root stored for the grandparent. *)
Theorem syncOne_stores_evaluated_root gp p next s s' :
  syncOne gp p next s = (Ok tt, s') ->
  head (chainStore s) <> Key next ->
  exists parentRoot h ancestors gathered parentWeight root,
    GetTipSetStateRoot (chainStore s) (Key p) = Ok parentRoot /\
    Height next = Ok h /\
    GetRecentAncestors p (chainStore s) (Z.of_N h - AncestorRoundsNeeded) = ExtOk ancestors /\
    gatherMessages next = Ok gathered /\
    (if bool_decide (Key gp = Key UndefTipSet)
     then NewWeight p cid_Undef = ExtOk parentWeight
     else exists gpStRoot,
            GetTipSetStateRoot (chainStore s) (Key gp) = Ok gpStRoot /\
            NewWeight p gpStRoot = ExtOk parentWeight) /\
    RunStateTransition next gathered.1 gathered.2 ancestors parentWeight parentRoot
    = ExtOk root /\
    tipSets (chainStore s') !! Key next
    = Some {| TipSetStateRoot := root; TipSetOf := next |} /\
    GetTipSetStateRoot (chainStore s') (Key next) = Ok root.
Proof.
  intros H Hne. unfold Chain.syncOne in H.
  apply SyncerFacts.bind_Ok in H as (hk & s0 & Hk & H).
  apply SyncerFacts.readStore_Ok in Hk as [Hk ->]. inversion Hk; subst hk; clear Hk.
  unfold GetHead in H. rewrite bool_decide_eq_false_2 in H by exact Hne.
  apply SyncerFacts.bind_Ok in H as (parentRoot & s0 & Hroot & H).
  apply SyncerFacts.readStore_Ok in Hroot as [Hroot ->].
  apply SyncerFacts.bind_Ok in H as (h & s0 & Hh & H).
  apply SyncerFacts.lift_Ok in Hh as [Hh ->].
  apply SyncerFacts.bind_Ok in H as (ancestors & s0 & Hanc & H).
  apply SyncerFacts.readStore_Ok in Hanc as [Hanc ->].
  apply SyncerFacts.bind_Ok in H as (gathered & s0 & Hg & H).
  apply SyncerFacts.lift_Ok in Hg as [Hg ->].
  apply SyncerFacts.bind_Ok in H as (parentWeight & s0 & Hw & H).
  apply SyncerFacts.calculateParentWeight_explicit in Hw as [Hs0 Hweight]. subst s0.
  apply SyncerFacts.bind_Ok in H as (u1 & s1 & Hrec & H).
  apply SyncerFacts.record_Ok in Hrec. subst s1.
  apply SyncerFacts.bind_Ok in H as (root & s1 & Hrun & H).
  apply SyncerFacts.lift_Ok in Hrun as [Hrun ->].
  apply SyncerFacts.bind_Ok in H as (u2 & s2 & Hput & H).
  apply SyncerFacts.writeStore_Ok in Hput as (st1 & Hput & ->).
  unfold PutTipSetAndState in Hput. simpl in Hput. inversion Hput; subst st1; clear Hput.
  assert (Hfinal : tipSets (chainStore s') =
                   <[Key next := {| TipSetStateRoot := root; TipSetOf := next |}]>
                     (tipSets (chainStore s))).
  { apply SyncerFacts.bind_Ok in H as (x1 & s3 & H1 & H).
    apply SyncerFacts.readStore_Ok in H1 as [_ ->].
    apply SyncerFacts.bind_Ok in H as (x2 & s3 & H2 & H).
    apply SyncerFacts.readStore_Ok in H2 as [_ ->].
    apply SyncerFacts.bind_Ok in H as (x3 & s3 & H3 & H).
    apply SyncerFacts.lift_Ok in H3 as [_ ->].
    apply SyncerFacts.bind_Ok in H as (x4 & s3 & H4 & H).
    assert (s3 = {| chainStore :=
                      {| tipSets := <[Key next := {| TipSetStateRoot := root;
                                                      TipSetOf := next |}]>
                                      (tipSets (chainStore s));
                         head := head (chainStore s) |};
                    badTipSets := badTipSets s;
                    calls := calls s ++ [CallRunStateTransition next] |}) as ->.
    { destruct (negb (Empty x3)).
      - apply SyncerFacts.readStore_Ok in H4 as [_ ->]. reflexivity.
      - apply SyncerFacts.ret_Ok in H4 as [_ ->]. reflexivity. }
    apply SyncerFacts.bind_Ok in H as (x5 & s4 & H5 & H).
    apply SyncerFacts.lift_Ok in H5 as [_ ->].
    apply SyncerFacts.bind_Ok in H as (u3 & s4 & H6 & H).
    apply SyncerFacts.record_Ok in H6. subst s4.
    destruct x5.
    - apply SyncerFacts.writeStore_Ok in H as (st2 & Hset & ->).
      apply SyncerFacts.SetHead_Ok in Hset as [Hts _]. simpl in *. exact Hts.
    - apply SyncerFacts.ret_Ok in H as [_ ->]. reflexivity. }
  assert (Hlookup : tipSets (chainStore s') !! Key next
                    = Some {| TipSetStateRoot := root; TipSetOf := next |}).
  { rewrite Hfinal. apply lookup_insert_eq. }
  exists parentRoot, h, ancestors, gathered, parentWeight, root.
  repeat split; auto.
  - destruct (GetRecentAncestors p (chainStore s) (Z.of_N h - AncestorRoundsNeeded));
      simpl in Hanc; congruence.
  - destruct (RunStateTransition next gathered.1 gathered.2 ancestors parentWeight
                parentRoot); simpl in Hrun; congruence.
  - unfold GetTipSetStateRoot. rewrite Hlookup. reflexivity.
Qed.

(** ** Trust and the bad-tipset cache *)

(** X5.  As to its result, the chain store, the bad-tipset cache and the
    calls to the state evaluator and to the chain selector, an untrusted
    call does what the trusted call does, unless it returns
    [ErrNewChainTooLong]; then the store, the cache and the calls are left
    as they were.  (The status reporter, which is told whether the call is
    trusted before the length is checked, is not part of the syncer as it
    is modelled here.) *)
Theorem untrusted_differs_only_by_length_check ci s :
  ((HandleNewTipSet ci false s).1 = (HandleNewTipSet ci true s).1 /\
   chainStore (HandleNewTipSet ci false s).2 = chainStore (HandleNewTipSet ci true s).2 /\
   badTipSets (HandleNewTipSet ci false s).2 = badTipSets (HandleNewTipSet ci true s).2 /\
   calls (HandleNewTipSet ci false s).2 = calls (HandleNewTipSet ci true s).2) \/
  ((HandleNewTipSet ci false s).1 = Err ErrNewChainTooLong /\
   chainStore (HandleNewTipSet ci false s).2 = chainStore s /\
   badTipSets (HandleNewTipSet ci false s).2 = badTipSets s /\
   calls (HandleNewTipSet ci false s).2 = calls s).
Proof.
  assert (H : HandleNewTipSet ci false s = HandleNewTipSet ci true s \/
              HandleNewTipSet ci false s = (Err ErrNewChainTooLong, s)).
  { unfold Chain.HandleNewTipSet, bind, readStore, lift, fail, ret. simpl.
    destruct (HasTipSetAndState (chainStore s) (Head ci)); [left; reflexivity |].
    destruct (GetTipSet (chainStore s) (GetHead (chainStore s))) as [curHead | e | msg];
      [| left; reflexivity | left; reflexivity].
    destruct (Height curHead) as [curHeight | e | msg];
      [| left; reflexivity | left; reflexivity].
    destruct (ExceedsUntrustedChainLength curHeight (CIHeight ci));
      [right; reflexivity | left; reflexivity]. }
  destruct H as [H | H]; rewrite H; [left | right]; repeat split; reflexivity.
Qed.

(** X6.  What [HandleNewTipSet] returns, what it leaves in the store and
    what it asks of the state evaluator and of the chain selector are the
    same whatever the bad-tipset cache holds. *)
Theorem bad_cache_is_never_consulted ci trusted s bad :
  (HandleNewTipSet ci trusted (withBadTipSets s bad)).1 = (HandleNewTipSet ci trusted s).1 /\
  chainStore (HandleNewTipSet ci trusted (withBadTipSets s bad)).2
  = chainStore (HandleNewTipSet ci trusted s).2 /\
  calls (HandleNewTipSet ci trusted (withBadTipSets s bad)).2
  = calls (HandleNewTipSet ci trusted s).2.
Proof.
  destruct (SyncerFacts.HandleNewTipSet_blind FetchTipSets RunStateTransition IsHeavier
              NewWeight LoadMessages LoadReceipts GetRecentAncestors
              AncestorRoundsNeeded ci trusted (withBadTipSets s bad) s)
    as (Hr & Hst & Hc).
  - split; reflexivity.
  - auto.
Qed.

(** ** A second announcement of the same head *)

(** X7.  After a successful call whose fetched chain ends in the announced
    head and was synced whole (it has more than one tipset, or widening the
    first gave nothing), the head is in the store: a further call with the
    same head returns success at once and changes nothing. *)
Theorem synced_head_is_known_afterwards ci trusted trusted' s s' fetched :
  HandleNewTipSet ci trusted s = (Ok tt, s') ->
  HasTipSetAndState (chainStore s) (Head ci) = false ->
  StoreConsistent (chainStore s) ->
  FetchTipSets (Head ci) (Peer ci) (stopAtKnownParents (chainStore s)) = ExtOk fetched ->
  (exists t, t ∈ fetched /\ Key t = Head ci) ->
  (forall first rest, Reverse fetched = first :: rest ->
     rest <> [] \/ (widen first s).1 = Ok UndefTipSet) ->
  HasTipSetAndState (chainStore s') (Head ci) = true /\
  HandleNewTipSet ci trusted' s' = (Ok tt, s').
Proof.
  intros H Hknown Hcons Hfetch (t & Ht & Hkey) Hwhole.
  assert (Hstored : HasTipSetAndState (chainStore s') (Head ci) = true).
  { unfold Chain.HandleNewTipSet in H.
    apply SyncerFacts.bind_Ok in H as (known & s0 & Hk & H).
    apply SyncerFacts.readStore_Ok in Hk as [Hk ->]. inversion Hk; subst known; clear Hk.
    rewrite Hknown in H.
    apply SyncerFacts.bind_Ok in H as (curHead & s0 & Hhead & H).
    apply SyncerFacts.readStore_Ok in Hhead as [Hhead ->].
    assert (Hsound : sound s).
    { split; [exact Hcons |]. exact (SyncerFacts.GetTipSet_stored _ _ _ Hhead). }
    apply SyncerFacts.bind_Ok in H as (curHeight & s0 & Hheight & H).
    apply SyncerFacts.lift_Ok in Hheight as [Hheight ->].
    destruct (negb trusted && ExceedsUntrustedChainLength curHeight (CIHeight ci));
      [discriminate |].
    apply SyncerFacts.bind_Ok in H as (fetched' & s0 & Hf & H).
    apply SyncerFacts.readStore_Ok in Hf as [Hf ->]. rewrite Hfetch in Hf.
    inversion Hf; subst fetched'; clear Hf.
    simpl in H. destruct (Reverse fetched) as [| first rest] eqn:Hchain;
      [discriminate |].
    apply SyncerFacts.bind_Ok in H as (anc & s0 & Hanc & H).
    destruct (SyncerFacts.readonly_Ok _ _ _ _
                (SyncerFacts.ancestorsFromStore_readonly first) Hanc) as [-> _].
    destruct (SyncerFacts.syncLoop_first_widens _ _ _ _ _ _ _ _ _ _ _ _ _ _ H)
      as [wts Hw].
    destruct (SyncerFacts.syncLoop_first_Ok _ _ _ _ _ _ _ _ _ _ _ wts _ _ _ Hw H Hsound)
      as (_ & _ & Hall & _).
    apply SyncerFacts.stored_Has. rewrite <- Hkey. apply Hall.
    unfold syncedTipSets. apply elem_of_app. right.
    assert (Hcond : negb (Defined wts) || (1 <? length (first :: rest))%nat = true).
    { destruct (Hwhole first rest eq_refl) as [Hrest | Hundef].
      - apply orb_true_iff. right. apply Nat.ltb_lt.
        destruct rest; [contradiction | simpl; lia].
      - rewrite Hundef in Hw. inversion Hw; subst wts. reflexivity. }
    rewrite Hcond. rewrite <- Hchain. unfold Reverse.
    apply list_elem_of_In. apply -> in_rev. apply list_elem_of_In. exact Ht. }
  split; [exact Hstored |].
  unfold Chain.HandleNewTipSet, bind, readStore. rewrite Hstored. reflexivity.
Qed.

(** ** What is asked of the state evaluator and of the chain selector *)

Lemma asksOnly_silent {A} (P : TipSet -> Prop) (m : M A) :
  (forall s, calls (m s).2 = calls s) -> asksOnly P m.
Proof.
  intros H s. exists []. rewrite app_nil_r. split; [apply H | constructor].
Qed.

Lemma asksOnly_record (P : TipSet -> Prop) c : P (subject c) -> asksOnly P (record c).
Proof.
  intros H s. exists [c]. split; [reflexivity |]. constructor; [exact H | constructor].
Qed.

Lemma asksOnly_writeStore (P : TipSet -> Prop) f : asksOnly P (writeStore f).
Proof.
  apply asksOnly_silent. intros s. unfold writeStore.
  destruct (f (chainStore s)); reflexivity.
Qed.

Lemma asksOnly_bind {A B} (P : TipSet -> Prop) (m : M A) (k : A -> M B) :
  asksOnly P m -> (forall a, asksOnly P (k a)) -> asksOnly P (bind m k).
Proof.
  intros Hm Hk s. unfold bind. destruct (Hm s) as (l1 & Hl1 & HP1).
  destruct (m s) as [[a | e | msg] s1]; simpl in *; eauto.
  destruct (Hk a s1) as (l2 & Hl2 & HP2).
  exists (l1 ++ l2). split.
  - rewrite Hl2, Hl1, app_assoc. reflexivity.
  - apply Forall_app. auto.
Qed.

Lemma asksOnly_weaken {A} (P Q : TipSet -> Prop) (m : M A) :
  (forall t, P t -> Q t) -> asksOnly P m -> asksOnly Q m.
Proof.
  intros HPQ Hm s. destruct (Hm s) as (l & Hl & HP). exists l. split; [exact Hl |].
  eapply Forall_impl; [exact HP |]. intros c. apply HPQ.
Qed.

Ltac asksOnly_tac :=
  repeat first
    [ apply asksOnly_record; reflexivity
    | apply asksOnly_writeStore
    | apply asksOnly_silent; intros ?; reflexivity
    | apply asksOnly_bind; [| intros ?]
    | match goal with
      | |- asksOnly _ (if ?c then _ else _) => destruct c
      | |- asksOnly _ (match ?c with _ => _ end) => destruct c
      end ].

Lemma syncOne_asksOnly gp p next : asksOnly (fun t => t = next) (syncOne gp p next).
Proof. unfold Chain.syncOne, Chain.calculateParentWeight. asksOnly_tac. Qed.

Lemma syncOne_or_poison_asksOnly chain i gp p ts :
  asksOnly (fun t => t = ts)
    (fun s => match syncOne gp p ts s with
              | (Err e, s') => (poison (drop i chain);;; fail e) s'
              | other => other
              end).
Proof.
  intros s. destruct (syncOne_asksOnly gp p ts s) as (l & Hl & HP).
  exists l. destruct (syncOne gp p ts s) as [[u | e | msg] s1]; simpl in *; auto.
Qed.

Lemma syncRound_asks chain i ts gp p s :
  exists l,
    calls (syncRound chain i ts gp p s).2 = calls s ++ l /\
    Forall (fun c => subject c = ts \/
                     (i = 0%nat /\ (widen ts s).1 = Ok (subject c))) l.
Proof.
  unfold Chain.syncRound.
  assert (Htail : forall wts,
    asksOnly (fun t => t = ts)
      (if negb (Defined wts) || (1 <? length chain)%nat
       then fun s => match syncOne gp p ts s with
                     | (Err e, s') => (poison (drop i chain);;; fail e) s'
                     | other => other
                     end
       else ret tt)).
  { intros wts. destruct (negb (Defined wts) || (1 <? length chain)%nat).
    - apply syncOne_or_poison_asksOnly.
    - apply asksOnly_silent. reflexivity. }
  destruct (Nat.eqb_spec i 0) as [-> | Hi].
  - unfold bind at 1. unfold bind at 1.
    pose proof (SyncerFacts.widen_readonly ts s) as Hro.
    destruct (widen ts s) as [[wts | e | msg] s0] eqn:Hw; simpl in Hro; subst s0;
      simpl; try (exists []; rewrite app_nil_r; split; [reflexivity | constructor]).
    assert (Hfirst : asksOnly (fun t => t = wts)
                       (if Defined wts then syncOne gp p wts;;; ret wts else ret wts)).
    { destruct (Defined wts).
      - apply asksOnly_bind; [apply syncOne_asksOnly |].
        intros; apply asksOnly_silent; reflexivity.
      - apply asksOnly_silent. reflexivity. }
    destruct (Hfirst s) as (l1 & Hl1 & HP1).
    destruct ((if Defined wts then syncOne gp p wts;;; ret wts else ret wts) s)
      as [[w | e | msg] s1]; simpl in *.
    + destruct (Htail w s1) as (l2 & Hl2 & HP2).
      exists (l1 ++ l2). split; [rewrite Hl2, Hl1, app_assoc; reflexivity |].
      apply Forall_app. split.
      * eapply Forall_impl; [exact HP1 |]. intros c Hc. right. simpl in Hc.
        split; [reflexivity | congruence].
      * eapply Forall_impl; [exact HP2 |]. intros c Hc. left. exact Hc.
    + exists l1. split; [exact Hl1 |].
      eapply Forall_impl; [exact HP1 |]. intros c Hc. right. simpl in Hc.
      split; [reflexivity | congruence].
    + exists l1. split; [exact Hl1 |].
      eapply Forall_impl; [exact HP1 |]. intros c Hc. right. simpl in Hc.
      split; [reflexivity | congruence].
  - unfold bind at 1. simpl.
    destruct (Htail UndefTipSet s) as (l & Hl & HP).
    exists l. split; [exact Hl |].
    eapply Forall_impl; [exact HP |]. intros c Hc. left. exact Hc.
Qed.

Lemma syncLoop_asks chain rest : forall i gp p s,
  exists l,
    calls (syncLoop chain i rest gp p s).2 = calls s ++ l /\
    Forall (fun c => subject c ∈ rest \/
                     (i = 0%nat /\ exists first rest', rest = first :: rest' /\
                                   (widen first s).1 = Ok (subject c))) l.
Proof.
  induction rest as [| ts rest IH]; intros i gp p s; simpl.
  - exists []. rewrite app_nil_r. split; [reflexivity | constructor].
  - unfold bind. destruct (syncRound_asks chain i ts gp p s) as (l1 & Hl1 & HP1).
    assert (HP1' : Forall (fun c => subject c ∈ ts :: rest \/
                     (i = 0%nat /\ exists first rest', ts :: rest = first :: rest' /\
                                   (widen first s).1 = Ok (subject c))) l1).
    { eapply Forall_impl; [exact HP1 |]. intros c [Hc | [Hi Hc]].
      - left. rewrite Hc. apply list_elem_of_here.
      - right. split; [exact Hi |]. exists ts, rest. auto. }
    destruct (syncRound chain i ts gp p s) as [[u | e | msg] s1]; simpl in *; eauto.
    destruct (IH (S i) p ts s1) as (l2 & Hl2 & HP2).
    exists (l1 ++ l2). split; [rewrite Hl2, Hl1, app_assoc; reflexivity |].
    apply Forall_app. split; [exact HP1' |].
    eapply Forall_impl; [exact HP2 |]. intros c [Hc | [Hi _]]; [| discriminate].
    left. apply list_elem_of_further. exact Hc.
Qed.

(** X8.  During a call of [HandleNewTipSet] the log of calls only grows,
    and every tipset handed to the state evaluator or weighed by the chain
    selector is a tipset of the fetched chain or the tipset that [widen]
    made of the first of them. *)
Theorem HandleNewTipSet_validates_only_fetched ci trusted s :
  exists l,
    calls (HandleNewTipSet ci trusted s).2 = calls s ++ l /\
    Forall (fun c =>
              exists fetched,
                FetchTipSets (Head ci) (Peer ci) (stopAtKnownParents (chainStore s))
                = ExtOk fetched /\
                (subject c ∈ fetched \/
                 exists first rest, Reverse fetched = first :: rest /\
                                    (widen first s).1 = Ok (subject c))) l.
Proof.
  assert (Hnone : exists l,
             calls s = calls s ++ l /\
             Forall (fun c =>
               exists fetched,
                 FetchTipSets (Head ci) (Peer ci) (stopAtKnownParents (chainStore s))
                 = ExtOk fetched /\
                 (subject c ∈ fetched \/
                  exists first rest, Reverse fetched = first :: rest /\
                                     (widen first s).1 = Ok (subject c))) l).
  { exists []. rewrite app_nil_r. split; [reflexivity | constructor]. }
  unfold Chain.HandleNewTipSet, bind, readStore, lift, ret, fail. simpl.
  destruct (HasTipSetAndState (chainStore s) (Head ci)); [apply Hnone |].
  destruct (GetTipSet (chainStore s) (GetHead (chainStore s))) as [curHead | e | msg];
    [| apply Hnone | apply Hnone].
  destruct (Height curHead) as [curHeight | e | msg]; [| apply Hnone | apply Hnone].
  destruct (negb trusted && ExceedsUntrustedChainLength curHeight (CIHeight ci));
    [apply Hnone |].
  destruct (FetchTipSets (Head ci) (Peer ci) (stopAtKnownParents (chainStore s)))
    as [fetched | msg] eqn:Hfetch; simpl; [| apply Hnone].
  destruct (Reverse fetched) as [| first rest] eqn:Hchain; [apply Hnone |].
  pose proof (SyncerFacts.ancestorsFromStore_readonly first s) as Hro.
  destruct (ancestorsFromStore first s) as [[anc | e | msg] s1]; simpl in Hro;
    subst s1; [| apply Hnone | apply Hnone].
  destruct (syncLoop_asks (first :: rest) (first :: rest) 0 anc.2 anc.1 s)
    as (l & Hl & HP).
  exists l. split; [exact Hl |].
  eapply Forall_impl; [exact HP |]. intros c Hc. exists fetched. split; [reflexivity |].
  destruct Hc as [Hc | (_ & f & r & Heq & Hw)].
  - left. rewrite <- Hchain in Hc. unfold Reverse in Hc.
    apply list_elem_of_In. apply in_rev. apply list_elem_of_In. exact Hc.
  - right. exists first, rest. inversion Heq; subst. auto.
Qed.

(** ** Where the head can go *)

Lemma Climbs_weaken l l' h0 h :
  Climbs IsHeavier l h0 h -> (forall c, c ∈ l -> c ∈ l') -> Climbs IsHeavier l' h0 h.
Proof.
  intros H Hsub. induction H as [| h next b a bs _ IH Hb Hin Hh].
  - constructor.
  - eapply Climbs_step; eauto.
Qed.

Lemma Climbs_trans l h0 h1 h2 :
  Climbs IsHeavier l h0 h1 -> Climbs IsHeavier l h1 h2 -> Climbs IsHeavier l h0 h2.
Proof.
  intros H1 H2. induction H2 as [| h next b a bs _ IH Hb Hin Hh].
  - exact H1.
  - eapply Climbs_step; eauto.
Qed.

Lemma climbs_quiet {A} (m : M A) :
  (forall s, head (chainStore (m s).2) = head (chainStore s) /\ calls (m s).2 = calls s) ->
  climbs IsHeavier m.
Proof.
  intros H s _. destruct (H s) as [Hh Hc]. exists []. rewrite app_nil_r, Hh.
  split; [exact Hc | constructor].
Qed.

Lemma climbs_readonly {A} (m : M A) : readonly m -> climbs IsHeavier m.
Proof. intros H. apply climbs_quiet. intros s. rewrite (H s). auto. Qed.

Lemma climbs_bind {A B} (m : M A) (k : A -> M B) :
  preservesStore m -> climbs IsHeavier m -> (forall a, climbs IsHeavier (k a)) ->
  climbs IsHeavier (bind m k).
Proof.
  intros Hpres Hm Hk s Hs. unfold bind.
  destruct (Hm s Hs) as (l1 & Hl1 & Hc1). destruct (Hpres s Hs) as [Hs1 _].
  destruct (m s) as [[a | e | msg] s1]; simpl in *; eauto.
  destruct (Hk a s1 Hs1) as (l2 & Hl2 & Hc2).
  exists (l1 ++ l2). split; [rewrite Hl2, Hl1, app_assoc; reflexivity |].
  eapply Climbs_trans.
  - eapply Climbs_weaken; [exact Hc1 |]. intros c Hc. apply elem_of_app. auto.
  - eapply Climbs_weaken; [exact Hc2 |]. intros c Hc. apply elem_of_app. auto.
Qed.

Lemma syncOne_climbs gp p next : climbs IsHeavier (syncOne gp p next).
Proof.
  intros s Hs. destruct (syncOne gp p next s) as [r s'] eqn:Hrun.
  cbn [snd]. destruct r as [u | e | msg].
  - destruct (decide (head (chainStore s) = Key next)) as [Hsame | Hne].
    + rewrite (SyncerFacts.syncOne_on_head
                 RunStateTransition IsHeavier NewWeight LoadMessages LoadReceipts
                 GetRecentAncestors AncestorRoundsNeeded gp p next s Hsame) in Hrun.
      inversion Hrun; subst s'. exists []. rewrite app_nil_r.
      split; [reflexivity | constructor].
    + destruct (SyncerFacts.syncOne_steps _ _ _ _ _ _ _ _ _ _ _ _ _ Hrun Hne)
        as (root & st1 & a & b & bs & heavier & _ & Hput & Hb & Hasked & _ & Hfinal
            & Hcalls & _).
      eexists. split; [exact Hcalls |].
      apply SyncerFacts.Put_stored in Hput. destruct Hput as (Hhd & _ & _ & Hcons1).
      specialize (Hcons1 (proj1 Hs)).
      pose proof (SyncerFacts.GetTipSet_Key _ _ _ Hcons1 Hb) as Hkey.
      destruct heavier.
      * apply SyncerFacts.SetHead_Ok in Hfinal as [_ Hhd2]. rewrite Hhd2.
        eapply Climbs_step; [constructor | exact Hkey | | exact Hasked].
        apply list_elem_of_further, list_elem_of_here.
      * inversion Hfinal as [Hst]. rewrite <- Hst, Hhd. constructor.
  - destruct (SyncerFacts.syncOne_failure_keeps_head
                RunStateTransition IsHeavier NewWeight LoadMessages LoadReceipts
                GetRecentAncestors AncestorRoundsNeeded gp p next s)
      as [[u Hu] | Hhead]; [rewrite Hrun in Hu; discriminate |].
    destruct (syncOne_asksOnly gp p next s) as (l & Hl & _).
    rewrite Hrun in Hhead, Hl. cbn [snd] in Hhead, Hl.
    exists l. rewrite Hhead. split; [exact Hl | constructor].
  - destruct (SyncerFacts.syncOne_failure_keeps_head
                RunStateTransition IsHeavier NewWeight LoadMessages LoadReceipts
                GetRecentAncestors AncestorRoundsNeeded gp p next s)
      as [[u Hu] | Hhead]; [rewrite Hrun in Hu; discriminate |].
    destruct (syncOne_asksOnly gp p next s) as (l & Hl & _).
    rewrite Hrun in Hhead, Hl. cbn [snd] in Hhead, Hl.
    exists l. rewrite Hhead. split; [exact Hl | constructor].
Qed.

Lemma syncRound_climbs chain i ts gp p : climbs IsHeavier (syncRound chain i ts gp p).
Proof.
  unfold Chain.syncRound. apply climbs_bind.
  - destruct (i =? 0)%nat; [| apply preservesStore_ret].
    apply preservesStore_bind; [apply widen_preservesStore |].
    intros wts. destruct (Defined wts); [| apply preservesStore_ret].
    apply preservesStore_bind; [apply syncOne_preservesStore |].
    intros; apply preservesStore_ret.
  - destruct (i =? 0)%nat; [| apply climbs_readonly; intros s; reflexivity].
    apply climbs_bind;
      [apply widen_preservesStore
      | apply climbs_readonly, SyncerFacts.widen_readonly |].
    intros wts. destruct (Defined wts); [| apply climbs_readonly; intros s; reflexivity].
    apply climbs_bind; [apply syncOne_preservesStore | apply syncOne_climbs |].
    intros; apply climbs_readonly; intros s; reflexivity.
  - intros wts. destruct (negb (Defined wts) || (1 <? length chain)%nat);
      [| apply climbs_readonly; intros s; reflexivity].
    intros s Hs. destruct (syncOne_climbs gp p ts s Hs) as (l & Hl & Hc).
    exists l. destruct (syncOne gp p ts s) as [[u | e | msg] s1]; simpl in *; auto.
Qed.

Lemma syncLoop_climbs chain rest : forall i gp p,
  climbs IsHeavier (syncLoop chain i rest gp p).
Proof.
  induction rest as [| ts rest IH]; intros i gp p; simpl.
  - apply climbs_readonly. intros s. reflexivity.
  - apply climbs_bind;
      [apply syncRound_preservesStore | apply syncRound_climbs | intros _; apply IH].
Qed.

(** X22.  Whatever [HandleNewTipSet] returns, on a store that files every
    tipset under its key and holds its head, the head at the end is reached
    from the head at the start by zero or more moves; each move goes from
    the head at that moment to the key of a tipset that the chain selector,
    asked during the call, deemed heavier than a tipset whose key is the
    head at that moment. *)
Theorem HandleNewTipSet_moves_head_by_weight ci trusted s :
  sound s ->
  exists l,
    calls (HandleNewTipSet ci trusted s).2 = calls s ++ l /\
    Climbs IsHeavier l (head (chainStore s))
           (head (chainStore (HandleNewTipSet ci trusted s).2)).
Proof.
  assert (H : climbs IsHeavier (HandleNewTipSet ci trusted)).
  { unfold Chain.HandleNewTipSet.
    apply climbs_bind;
      [apply preservesStore_readStore | apply climbs_readonly; intros s0; reflexivity |].
    intros known. destruct known; [apply climbs_readonly; intros s0; reflexivity |].
    apply climbs_bind;
      [apply preservesStore_readStore | apply climbs_readonly; intros s0; reflexivity |].
    intros curHead.
    apply climbs_bind;
      [apply preservesStore_lift | apply climbs_readonly; intros s0; reflexivity |].
    intros curHeight.
    destruct (negb trusted && ExceedsUntrustedChainLength curHeight (CIHeight ci));
      [apply climbs_readonly; intros s0; reflexivity |].
    apply climbs_bind;
      [apply preservesStore_readStore | apply climbs_readonly; intros s0; reflexivity |].
    intros fetched.
    simpl. destruct (Reverse fetched) as [| first rest];
      [apply climbs_readonly; intros s0; reflexivity |].
    apply climbs_bind.
    - unfold ancestorsFromStore. preservesStore_tac.
    - apply climbs_readonly, SyncerFacts.ancestorsFromStore_readonly.
    - intros anc. apply syncLoop_climbs. }
  exact (H s).
Qed.

End WithCollaborators.

Lemma syncerWithA_sound : sound syncerWithA.
Proof.
  split; [exact SyncerFacts.storeWithA_consistent |].
  unfold stored. simpl. rewrite lookup_insert_eq. eauto.
Qed.

Lemma HandleNewTipSet_store_only_grows_witness :
  sound (handle fetchB rejectWide announceB true syncerWithA).2 /\
  (forall k, HasTipSetAndState (chainStore syncerWithA) k = true ->
             HasTipSetAndState
               (chainStore (handle fetchB rejectWide announceB true syncerWithA).2) k
             = true).
Proof.
  apply (HandleNewTipSet_store_only_grows fetchB rejectWide moreBlocks weightZero
           noMessages noReceipts noAncestors 1%Z announceB true syncerWithA).
  exact syncerWithA_sound.
Defined.

Lemma syncOne_stores_evaluated_root_witness :
  exists parentRoot h ancestors gathered parentWeight root,
    GetTipSetStateRoot (chainStore syncerGenesis) (Key [genesisBlock]) = Ok parentRoot /\
    Height [blockB] = Ok h /\
    noAncestors [genesisBlock] (chainStore syncerGenesis) (Z.of_N h - 1) = ExtOk ancestors /\
    gatherMessages noMessages noReceipts [blockB] = Ok gathered /\
    (if bool_decide (Key UndefTipSet = Key UndefTipSet)
     then weightZero [genesisBlock] cid_Undef = ExtOk parentWeight
     else exists gpStRoot,
            GetTipSetStateRoot (chainStore syncerGenesis) (Key UndefTipSet)
            = Ok gpStRoot /\
            weightZero [genesisBlock] gpStRoot = ExtOk parentWeight) /\
    acceptAll [blockB] gathered.1 gathered.2 ancestors parentWeight parentRoot
    = ExtOk root /\
    tipSets (chainStore
               (syncOne acceptAll moreBlocks weightZero noMessages noReceipts
                        noAncestors 1 UndefTipSet [genesisBlock] [blockB]
                        syncerGenesis).2) !! Key [blockB]
    = Some {| TipSetStateRoot := root; TipSetOf := [blockB] |} /\
    GetTipSetStateRoot
      (chainStore
         (syncOne acceptAll moreBlocks weightZero noMessages noReceipts
                  noAncestors 1 UndefTipSet [genesisBlock] [blockB]
                  syncerGenesis).2) (Key [blockB]) = Ok root.
Proof.
  apply (syncOne_stores_evaluated_root acceptAll moreBlocks weightZero noMessages
           noReceipts noAncestors 1%Z UndefTipSet [genesisBlock] [blockB] syncerGenesis).
  - apply SyncerFacts.run_pair. vm_compute. reflexivity.
  - vm_compute. discriminate.
Defined.

Lemma synced_head_is_known_afterwards_witness :
  HasTipSetAndState
    (chainStore (handle fetchB acceptAll announceB true syncerGenesis).2)
    (Head announceB) = true /\
  handle fetchB acceptAll announceB false
         (handle fetchB acceptAll announceB true syncerGenesis).2
  = (Ok tt, (handle fetchB acceptAll announceB true syncerGenesis).2).
Proof.
  apply (synced_head_is_known_afterwards fetchB acceptAll moreBlocks weightZero
           noMessages noReceipts noAncestors 1%Z announceB true false syncerGenesis
           (handle fetchB acceptAll announceB true syncerGenesis).2 [[blockB]]).
  - apply (SyncerFacts.run_pair (handle fetchB acceptAll announceB true)).
    vm_compute. reflexivity.
  - vm_compute. reflexivity.
  - exact SyncerFacts.storeGenesis_consistent.
  - reflexivity.
  - exists [blockB]. split; [apply list_elem_of_here | reflexivity].
  - intros first rest H. inversion H; subst. right. vm_compute. reflexivity.
Defined.

Lemma widen_adds_only_stored_siblings_witness :
  (widen [blockB] syncerWithA).2 = syncerWithA /\
  Key [blockA; blockB] <> Key [blockB] /\
  (forall b, b ∈ [blockB] -> b ∈ [blockA; blockB]) /\
  (Len [blockB] <= Len [blockA; blockB])%nat /\
  exists pk h k c,
    Parents [blockB] = Ok pk /\ Height [blockB] = Ok h /\
    tipSets (chainStore syncerWithA) !! k = Some c /\
    hasParentsAndHeight pk h c = true /\
    Key [blockA; blockB] <> Key (TipSetOf c) /\
    forall b, b ∈ [blockA; blockB] -> b ∈ [blockB] \/ b ∈ TipSetOf c.
Proof.
  apply (widen_adds_only_stored_siblings [blockB] syncerWithA [blockA; blockB]).
  - vm_compute. reflexivity.
  - reflexivity.
Defined.

Lemma ancestorsFromStore_returns_stored_ancestors_witness :
  (ancestorsFromStore [blockB] syncerWithA).2 = syncerWithA /\
  Parents [blockB] = Ok (Key [genesisBlock]) /\
  GetTipSet (chainStore syncerWithA) (Key [genesisBlock]) = Ok [genesisBlock] /\
  exists gpk,
    Parents [genesisBlock] = Ok gpk /\
    if Empty gpk then UndefTipSet = UndefTipSet
    else Key UndefTipSet = gpk /\ GetTipSet (chainStore syncerWithA) gpk = Ok UndefTipSet.
Proof.
  apply (ancestorsFromStore_returns_stored_ancestors [blockB] syncerWithA
           [genesisBlock] UndefTipSet).
  - exact SyncerFacts.storeWithA_consistent.
  - vm_compute. reflexivity.
Defined.

(** The announced tipset of [blockB] is widened to the tipset of both
    blocks, which the chain selector deems heavier than the head. *)
Lemma HandleNewTipSet_moves_head_by_weight_witness :
  exists l,
    calls (handle fetchB acceptAll announceB true syncerWithA).2
    = calls syncerWithA ++ l /\
    Climbs moreBlocks l (head (chainStore syncerWithA))
           (head (chainStore (handle fetchB acceptAll announceB true syncerWithA).2)).
Proof.
  apply (HandleNewTipSet_moves_head_by_weight fetchB acceptAll moreBlocks weightZero
           noMessages noReceipts noAncestors 1%Z announceB true syncerWithA).
  exact syncerWithA_sound.
Defined.

End SyncerMore.

(** * Properties of the chain builder *)

Module BuilderFacts.
Import Builder.

(** ** Tickets *)

Lemma byte_of_shift v k :
  N.land (N.shiftr v k) 255 = (v / 2 ^ k) mod 256.
Proof.
  change 255 with (N.ones 8). rewrite N.land_ones, N.shiftr_div_pow2. reflexivity.
Qed.

Lemma next_byte v k k' :
  k' = k + 8 ->
  v / 2 ^ k = 256 * (v / 2 ^ k') + (v / 2 ^ k) mod 256.
Proof.
  intros ->. rewrite N.pow_add_r, <- N.Div0.div_div. change (2 ^ 8) with 256.
  apply N.div_mod. discriminate.
Qed.

Lemma PutUint64_value x : beValue (PutUint64 x) = x mod 2 ^ 64.
Proof.
  unfold PutUint64, beValue. simpl. rewrite !byte_of_shift.
  assert (Hlast : N.land x 255 = x mod 256).
  { change 255 with (N.ones 8). rewrite N.land_ones. reflexivity. }
  rewrite Hlast. clear Hlast.
  pose proof (next_byte x 0 8 eq_refl) as E0.
  pose proof (next_byte x 8 16 eq_refl) as E1.
  pose proof (next_byte x 16 24 eq_refl) as E2.
  pose proof (next_byte x 24 32 eq_refl) as E3.
  pose proof (next_byte x 32 40 eq_refl) as E4.
  pose proof (next_byte x 40 48 eq_refl) as E5.
  pose proof (next_byte x 48 56 eq_refl) as E6.
  pose proof (next_byte x 56 64 eq_refl) as E7.
  rewrite N.pow_0_r, N.div_1_r in E0.
  assert (B0 : x mod 256 < 256) by (apply N.mod_lt; discriminate).
  assert (B1 : (x / 2 ^ 8) mod 256 < 256) by (apply N.mod_lt; discriminate).
  assert (B2 : (x / 2 ^ 16) mod 256 < 256) by (apply N.mod_lt; discriminate).
  assert (B3 : (x / 2 ^ 24) mod 256 < 256) by (apply N.mod_lt; discriminate).
  assert (B4 : (x / 2 ^ 32) mod 256 < 256) by (apply N.mod_lt; discriminate).
  assert (B5 : (x / 2 ^ 40) mod 256 < 256) by (apply N.mod_lt; discriminate).
  assert (B6 : (x / 2 ^ 48) mod 256 < 256) by (apply N.mod_lt; discriminate).
  assert (B7 : (x / 2 ^ 56) mod 256 < 256) by (apply N.mod_lt; discriminate).
  set (d0 := x mod 256) in *. set (d1 := (x / 2 ^ 8) mod 256) in *.
  set (d2 := (x / 2 ^ 16) mod 256) in *. set (d3 := (x / 2 ^ 24) mod 256) in *.
  set (d4 := (x / 2 ^ 32) mod 256) in *. set (d5 := (x / 2 ^ 40) mod 256) in *.
  set (d6 := (x / 2 ^ 48) mod 256) in *. set (d7 := (x / 2 ^ 56) mod 256) in *.
  set (q1 := x / 2 ^ 8) in *. set (q2 := x / 2 ^ 16) in *.
  set (q3 := x / 2 ^ 24) in *. set (q4 := x / 2 ^ 32) in *.
  set (q5 := x / 2 ^ 40) in *. set (q6 := x / 2 ^ 48) in *.
  set (q7 := x / 2 ^ 56) in *. set (q8 := x / 2 ^ 64) in *.
  clearbody d0 d1 d2 d3 d4 d5 d6 d7 q1 q2 q3 q4 q5 q6 q7 q8.
  apply (N.mod_unique x (2 ^ 64) q8).
  - change (2 ^ 64) with 18446744073709551616. lia.
  - change (2 ^ 64) with 18446744073709551616. lia.
Qed.

Lemma PutUint64_inj v w :
  v < 2 ^ 64 -> w < 2 ^ 64 -> PutUint64 v = PutUint64 w -> v = w.
Proof.
  intros Hv Hw Heq.
  rewrite <- (N.mod_small v (2 ^ 64) Hv), <- (N.mod_small w (2 ^ 64) Hw).
  rewrite <- !PutUint64_value, Heq. reflexivity.
Qed.

(** X11.  [PutUint64] writes eight bytes, most significant first, that
    spell the value on 64 bits; so two values below [2^64] with the same
    bytes are equal. *)
Theorem PutUint64_spells_the_value v :
  length (PutUint64 v) = 8%nat /\
  Forall (fun b => b < 256) (PutUint64 v) /\
  beValue (PutUint64 v) = v mod 2 ^ 64 /\
  (forall w, v < 2 ^ 64 -> w < 2 ^ 64 -> PutUint64 v = PutUint64 w -> v = w).
Proof.
  split; [reflexivity |]. split.
  - unfold PutUint64. repeat constructor;
      (change 255 with (N.ones 8); rewrite N.land_ones; apply N.mod_lt; discriminate).
  - split; [apply PutUint64_value |]. intros w. apply PutUint64_inj.
Qed.

Section WithHashes.

Variable Cid : Block -> Types.Cid.
Variable ComputeStateRoot : Block -> ext Types.Cid.

Local Abbreviation BuildToTip := (BuildToTip Cid ComputeStateRoot).
Local Abbreviation BuildTo := (BuildTo Cid ComputeStateRoot).
Local Abbreviation buildEach := (buildEach Cid ComputeStateRoot).
Local Abbreviation buildLine := (buildLine Cid ComputeStateRoot).

(** What [BuildToTip] gives when no [build] function is passed. *)
Lemma BuildToTip_plain f parent b f' :
  BuildToTip f parent None = Some (b, f') ->
  Ticket b = PutUint64 (seq f) /\
  seq f' = uint64 (seq f + 1) /\
  Miner b = minerAddress f /\
  ParentWeight b = sumParentWeight parent /\
  Parents b = Key Cid parent /\
  Height b = match parent with [] => 0 | p0 :: _ => uint64 (Height p0 + 1) end /\
  Messages b = [] /\
  blocks f' = <[Cid b := b]> (blocks f).
Proof.
  unfold Builder.BuildToTip. destruct (ComputeStateRoot _) as [root | msg];
    [| discriminate].
  intros H. inversion H; subst; clear H. simpl. repeat split; reflexivity.
Qed.

Lemma buildEach_tickets parents : forall f bs f',
  buildEach f parents = Some (bs, f') ->
  seq f + N.of_nat (length parents) <= 2 ^ 64 ->
  forall b, b ∈ bs ->
    exists v, seq f <= v /\ v < seq f + N.of_nat (length parents) /\
              Ticket b = PutUint64 v.
Proof.
  induction parents as [| parent rest IH]; intros f bs f' H Hlen b Hb; simpl in H.
  - inversion H; subst. inversion Hb.
  - destruct (BuildToTip f parent None) as [[b0 f0] |] eqn:Hb0; [| discriminate].
    destruct (buildEach f0 rest) as [[bs0 f1] |] eqn:Hrest; [| discriminate].
    inversion H; subst; clear H.
    apply BuildToTip_plain in Hb0 as (Ht & Hseq & _).
    simpl length in *.
    apply elem_of_cons in Hb as [-> | Hb].
    + exists (seq f). repeat split; [lia | lia | exact Ht].
    + assert (Hseq' : seq f0 = seq f + 1).
      { rewrite Hseq. unfold uint64. apply N.mod_small.
        destruct rest; [inversion Hrest; subst; inversion Hb |]. simpl length in Hlen. lia. }
      destruct (IH f0 bs0 f' Hrest) with (b := b) as (v & Hv1 & Hv2 & Hv3);
        [lia | exact Hb |].
      exists v. repeat split; [lia | lia | exact Hv3].
Qed.

(** X12.  The blocks that successive calls of [BuildToTip] build, without
    a [build] function, have pairwise distinct tickets as long as the
    counter does not wrap around. *)
Theorem built_tickets_are_unique f parents bs f' :
  buildEach f parents = Some (bs, f') ->
  seq f + N.of_nat (length parents) <= 2 ^ 64 ->
  NoDup (map Ticket bs).
Proof.
  revert f bs f'. induction parents as [| parent rest IH]; intros f bs f' H Hlen.
  - simpl in H. inversion H; subst. constructor.
  - pose proof (buildEach_tickets (parent :: rest) f bs f' H Hlen) as Hall.
    simpl in H.
    destruct (BuildToTip f parent None) as [[b0 f0] |] eqn:Hb0; [| discriminate].
    destruct (buildEach f0 rest) as [[bs0 f1] |] eqn:Hrest; [| discriminate].
    inversion H; subst; clear H. simpl.
    apply BuildToTip_plain in Hb0 as (Ht & Hseq & _).
    simpl length in Hlen.
    destruct rest as [| parent' rest'].
    + simpl in Hrest. inversion Hrest; subst. simpl. apply NoDup_singleton.
    + assert (Hseq' : seq f0 = seq f + 1).
      { rewrite Hseq. unfold uint64. apply N.mod_small. simpl length in Hlen. lia. }
      apply NoDup_cons. split.
      * intros Hin. apply list_elem_of_fmap in Hin as (b & Hb & Hin).
        destruct (buildEach_tickets (parent' :: rest') f0 bs0 f' Hrest) with (b := b)
          as (v & Hv1 & Hv2 & Hv3); [lia | exact Hin |].
        rewrite Ht, Hv3 in Hb.
        apply PutUint64_inj in Hb; [lia | lia | lia].
      * apply (IH f0 bs0 f' Hrest). lia.
Qed.

(** ** Heights and weights *)

Lemma uint64_idemp n : uint64 (uint64 n) = uint64 n.
Proof. unfold uint64. apply N.Div0.mod_mod. Qed.

Lemma uint64_add_l a b : uint64 (uint64 a + b) = uint64 (a + b).
Proof. unfold uint64. apply N.Div0.add_mod_idemp_l. Qed.

Lemma uint64_add_r a b : uint64 (a + uint64 b) = uint64 (a + b).
Proof. unfold uint64. apply N.Div0.add_mod_idemp_r. Qed.

Lemma uint64_add_mid a b c : uint64 (a + uint64 b + c) = uint64 (a + b + c).
Proof.
  replace (a + uint64 b + c) with (uint64 b + (a + c)) by lia.
  rewrite uint64_add_l. f_equal. lia.
Qed.

Lemma uint64_add_l2 a b c : uint64 (uint64 a + b + c) = uint64 (a + b + c).
Proof. rewrite <- !N.add_assoc. apply uint64_add_l. Qed.

Lemma sumParentWeight_loop parent : forall acc,
  uint64 (foldl (fun parentWeight p => uint64 (parentWeight + uint64 (ParentWeight p + 1)))
                acc parent)
  = uint64 (acc + foldr N.add 0 (map ParentWeight parent) + N.of_nat (length parent)).
Proof.
  induction parent as [| p rest IH]; intros acc; simpl foldl; simpl foldr; simpl length.
  - change (N.of_nat 0) with 0. rewrite !N.add_0_r. reflexivity.
  - rewrite IH.
    set (X := foldr N.add 0 (map ParentWeight rest)).
    set (Y := N.of_nat (length rest)).
    rewrite <- (N.add_assoc (uint64 _) X Y), uint64_add_l, uint64_add_mid.
    f_equal. lia.
Qed.

Lemma sumParentWeight_closed parent :
  sumParentWeight parent
  = uint64 (foldr N.add 0 (map ParentWeight parent) + N.of_nat (length parent)).
Proof.
  pose proof (sumParentWeight_loop parent 0) as H. rewrite N.add_0_l in H.
  rewrite <- H. unfold sumParentWeight.
  destruct parent as [| p rest _] using rev_ind; [reflexivity |].
  rewrite foldl_snoc, uint64_idemp. reflexivity.
Qed.

Lemma applyOp_keeps b op :
  Miner (applyOp b op) = Miner b /\
  ParentWeight (applyOp b op) = ParentWeight b /\
  Parents (applyOp b op) = Parents b /\
  StateRoot (applyOp b op) = StateRoot b /\
  (length (Messages b) = length (MessageReceipts b) ->
   length (Messages (applyOp b op)) = length (MessageReceipts (applyOp b op))).
Proof.
  destruct op; simpl; repeat split; auto.
  intros H. rewrite !length_app, H. reflexivity.
Qed.

Lemma foldl_applyOp_keeps ops : forall b,
  Miner (foldl applyOp b ops) = Miner b /\
  ParentWeight (foldl applyOp b ops) = ParentWeight b /\
  Parents (foldl applyOp b ops) = Parents b /\
  (length (Messages b) = length (MessageReceipts b) ->
   length (Messages (foldl applyOp b ops))
   = length (MessageReceipts (foldl applyOp b ops))).
Proof.
  induction ops as [| op ops IH]; intros b; simpl; [auto |].
  destruct (IH (applyOp b op)) as (H1 & H2 & H3 & H4).
  destruct (applyOp_keeps b op) as (K1 & K2 & K3 & _ & K5).
  rewrite H1, H2, H3, K1, K2, K3. repeat split; try reflexivity.
  intros H. apply H4, K5, H.
Qed.

(** X13.  Whatever the [build] function does through the [BlockBuilder],
    the block that [BuildToTip] returns has the miner of the builder, the
    key of the parent tipset as parents, as parent weight the sum of the
    parent weights of the parents plus one for each parent (on 64 bits), as
    many receipts as messages, and is stored in the builder under its CID;
    the counter of the builder is one more. *)
Theorem BuildToTip_fixes_parents_and_weight f parent build b f' :
  BuildToTip f parent build = Some (b, f') ->
  Miner b = minerAddress f /\
  Parents b = Key Cid parent /\
  ParentWeight b
  = uint64 (foldr N.add 0 (map ParentWeight parent) + N.of_nat (length parent)) /\
  length (Messages b) = length (MessageReceipts b) /\
  blocks f' !! Cid b = Some b /\
  seq f' = uint64 (seq f + 1) /\
  minerAddress f' = minerAddress f.
Proof.
  unfold Builder.BuildToTip.
  set (b0 := {| Ticket := PutUint64 (seq f); Miner := minerAddress f;
                ParentWeight := sumParentWeight parent; Parents := Key Cid parent;
                Height := match parent with
                          | [] => 0
                          | p0 :: _ => uint64 (Height p0 + 1)
                          end;
                Messages := []; MessageReceipts := [];
                StateRoot := Types.cid_Undef; Timestamp := 0 |}).
  set (b1 := match build with Some ops => foldl applyOp b0 ops | None => b0 end).
  assert (Hb1 : Miner b1 = minerAddress f /\
                ParentWeight b1 = sumParentWeight parent /\
                Parents b1 = Key Cid parent /\
                length (Messages b1) = length (MessageReceipts b1)).
  { unfold b1. destruct build as [ops |]; [| repeat split; reflexivity].
    destruct (foldl_applyOp_keeps ops b0) as (H1 & H2 & H3 & H4).
    rewrite H1, H2, H3. repeat split; auto. }
  destruct Hb1 as (H1 & H2 & H3 & H4).
  destruct (ComputeStateRoot b1) as [root | msg]; [| discriminate].
  intros H. inversion H; subst; clear H. simpl.
  rewrite lookup_insert_eq, <- sumParentWeight_closed. repeat split; auto.
Qed.

Lemma BuildTo_plain f last b f' :
  BuildTo f last None = Some (b, f') ->
  Height b = match last with None => 0 | Some p => uint64 (Height p + 1) end /\
  ParentWeight b = match last with None => 0 | Some p => uint64 (ParentWeight p + 1) end /\
  Parents b = match last with None => [] | Some p => [Cid p] end.
Proof.
  unfold Builder.BuildTo. intros H. apply BuildToTip_plain in H.
  destruct H as (_ & _ & _ & Hw & Hp & Hh & _).
  rewrite Hw, Hp, Hh. destruct last as [p |]; [| repeat split; reflexivity].
  split; [reflexivity |]. split; [| reflexivity].
  rewrite sumParentWeight_closed. simpl foldr. simpl length. f_equal. lia.
Qed.

Lemma buildLine_from n : forall f p bs f',
  buildLine f (Some p) n = Some (bs, f') ->
  forall k b, bs !! k = Some b ->
    Height b = uint64 (Height p + 1 + N.of_nat k) /\
    ParentWeight b = uint64 (ParentWeight p + 1 + N.of_nat k) /\
    Parents b = [Cid (default p (last (take k bs)))].
Proof.
  induction n as [| n IH]; intros f p bs f' H k b Hk; simpl in H.
  - inversion H; subst. inversion Hk.
  - destruct (BuildTo f (Some p) None) as [[b0 f0] |] eqn:Hb0; [| discriminate].
    destruct (buildLine f0 (Some b0) n) as [[bs0 f1] |] eqn:Hrest; [| discriminate].
    inversion H; subst; clear H.
    apply BuildTo_plain in Hb0 as (Hh & Hw & Hp).
    destruct k as [| k]; simpl in Hk.
    + inversion Hk; subst b. rewrite Hh, Hw, Hp. simpl.
      rewrite !N.add_0_r. auto.
    + destruct (IH f0 b0 bs0 f' Hrest k b Hk) as (Hh' & Hw' & Hp').
      rewrite Hh', Hw', Hp', Hh, Hw, !uint64_add_l2.
      split; [f_equal; lia |]. split; [f_equal; lia |].
      simpl take. rewrite last_cons. destruct (last (take k bs0)); reflexivity.
Qed.

(** X14.  In a line of blocks built with [BuildTo] from no parent, each on
    the one before and without a [build] function, the block at position
    [k] has height [k] and parent weight [k] (on 64 bits), the first has
    no parents and each other one has for parents the CID of the block
    before it. *)
Theorem line_heights_and_weights f n bs f' k b :
  buildLine f None n = Some (bs, f') ->
  bs !! k = Some b ->
  Height b = uint64 (N.of_nat k) /\
  ParentWeight b = uint64 (N.of_nat k) /\
  Parents b = match k with
              | O => []
              | S k' => match bs !! k' with Some prev => [Cid prev] | None => [] end
              end.
Proof.
  intros H Hk. destruct n as [| n]; simpl in H; [inversion H; subst; inversion Hk |].
  destruct (BuildTo f None None) as [[b0 f0] |] eqn:Hb0; [| discriminate].
  destruct (buildLine f0 (Some b0) n) as [[bs0 f1] |] eqn:Hrest; [| discriminate].
  inversion H; subst; clear H.
  apply BuildTo_plain in Hb0 as (Hh & Hw & Hp).
  destruct k as [| k]; simpl in Hk.
  - inversion Hk; subst b. rewrite Hh, Hw, Hp. auto.
  - destruct (buildLine_from n f0 b0 bs0 f' Hrest k b Hk) as (Hh' & Hw' & Hp').
    rewrite Hh', Hw', Hp', Hh, Hw. simpl uint64 at 2 4.
    split; [f_equal; lia |]. split; [f_equal; lia |].
    destruct k as [| k]; [reflexivity |].
    assert (Hlt : (k < length bs0)%nat).
    { apply lookup_lt_Some in Hk. lia. }
    destruct (lookup_lt_is_Some_2 bs0 k Hlt) as [prev Hprev].
    simpl. rewrite Hprev.
    rewrite (take_S_r bs0 k prev Hprev), last_snoc. reflexivity.
Qed.

(** ** The blocks of the builder *)

Lemma GetBlocks_inr f cids : forall bs,
  GetBlocks f cids = inr bs <->
  Forall2 (fun c b => blocks f !! c = Some b) cids bs.
Proof.
  induction cids as [| c0 cids IH]; intros bs; simpl.
  - split; intros H; inversion H; [constructor | reflexivity].
  - split.
    + intros H. destruct (blocks f !! c0) as [b0 |] eqn:Hc0; [| discriminate].
      destruct (GetBlocks f cids) as [missing | ret] eqn:Hr; [discriminate |].
      inversion H; subst. constructor; [exact Hc0 |]. apply IH. reflexivity.
    + intros H. inversion H as [| ? b ? bs' Hb Htail]; subst.
      rewrite Hb. apply IH in Htail. rewrite Htail. reflexivity.
Qed.

Lemma GetBlocks_inl f cids : forall c,
  GetBlocks f cids = inl c <->
  exists known rest, cids = known ++ c :: rest /\
                     blocks f !! c = None /\
                     Forall (fun c' => is_Some (blocks f !! c')) known.
Proof.
  induction cids as [| c0 cids IH]; intros c; simpl.
  - split; [discriminate |].
    intros (known & rest & H & _). destruct known; discriminate.
  - split.
    + intros H. destruct (blocks f !! c0) as [b0 |] eqn:Hc0.
      * destruct (GetBlocks f cids) as [missing | ret] eqn:Hr; [| discriminate].
        inversion H; subst missing.
        destruct (proj1 (IH c) eq_refl) as (known & rest & Heq & Hm & Hk).
        exists (c0 :: known), rest. rewrite Heq. repeat split; auto.
      * inversion H; subst c. exists [], cids. repeat split; auto.
    + intros (known & rest & Heq & Hm & Hk).
      destruct known as [| k0 known]; simpl in Heq; inversion Heq; subst.
      * rewrite Hm. reflexivity.
      * inversion Hk as [| ? ? [x Hx] Hk']; subst. rewrite Hx.
        rewrite (proj2 (IH c)); [reflexivity |]. exists known, rest. auto.
Qed.

(** X15.  [GetBlocks] returns the blocks of the given CIDs, in their
    order, exactly when every CID is known to the builder; otherwise it
    fails on the first CID that is not known. *)
Theorem GetBlocks_all_or_first_missing f cids :
  (forall bs, GetBlocks f cids = inr bs <->
              Forall2 (fun c b => blocks f !! c = Some b) cids bs) /\
  (forall c, GetBlocks f cids = inl c <->
             exists known rest, cids = known ++ c :: rest /\
                                blocks f !! c = None /\
                                Forall (fun c' => is_Some (blocks f !! c')) known).
Proof.
  split; [apply GetBlocks_inr | apply GetBlocks_inl].
Qed.

(** X16.  A block that [BuildToTip] returns can be got back from the
    builder by its CID, and the blocks that could be got before the call
    still can, unless one of them has the CID of the new block. *)
Theorem built_block_can_be_got f parent build b f' cids bs :
  BuildToTip f parent build = Some (b, f') ->
  GetBlocks f cids = inr bs ->
  Cid b ∉ cids ->
  GetBlocks f' [Cid b] = inr [b] /\
  GetBlocks f' cids = inr bs.
Proof.
  intros Hbuild Hget Hfresh.
  assert (Hblocks : blocks f' = <[Cid b := b]> (blocks f)).
  { unfold Builder.BuildToTip in Hbuild.
    destruct (ComputeStateRoot _) as [root | msg]; [| discriminate].
    inversion Hbuild; subst. reflexivity. }
  split.
  - simpl. rewrite Hblocks, lookup_insert_eq. reflexivity.
  - apply GetBlocks_inr. apply GetBlocks_inr in Hget.
    clear Hbuild. induction Hget as [| c b0 cids bs Hc Htail IH]; [constructor |].
    constructor.
    + rewrite Hblocks, lookup_insert_ne; [exact Hc |].
      intros Heq. apply Hfresh. rewrite Heq. left.
    + apply IH. intros Hin. apply Hfresh. right. exact Hin.
Qed.

End WithHashes.

Import BuilderScenario.

Lemma built_tickets_are_unique_witness : NoDup (map Ticket siblingBlocks).
Proof.
  apply (built_tickets_are_unique cidOf fakeRoot (NewBuilder miner) [[]; []]
           siblingBlocks siblingBuilder).
  - vm_compute. reflexivity.
  - vm_compute. discriminate.
Defined.

Lemma BuildToTip_fixes_parents_and_weight_witness :
  Miner childBlock = minerAddress siblingBuilder /\
  Parents childBlock = Key cidOf siblingBlocks /\
  ParentWeight childBlock
  = uint64 (foldr N.add 0 (map ParentWeight siblingBlocks)
            + N.of_nat (length siblingBlocks)) /\
  length (Messages childBlock) = length (MessageReceipts childBlock) /\
  blocks childBuilder !! cidOf childBlock = Some childBlock /\
  seq childBuilder = uint64 (seq siblingBuilder + 1) /\
  minerAddress childBuilder = minerAddress siblingBuilder.
Proof.
  apply (BuildToTip_fixes_parents_and_weight cidOf fakeRoot siblingBuilder
           siblingBlocks (Some childOps) childBlock childBuilder).
  vm_compute. reflexivity.
Defined.

Lemma line_heights_and_weights_witness :
  Height lineThird = uint64 (N.of_nat 2) /\
  ParentWeight lineThird = uint64 (N.of_nat 2) /\
  Parents lineThird
  = match lineBlocks !! 1%nat with Some prev => [cidOf prev] | None => [] end.
Proof.
  apply (line_heights_and_weights cidOf fakeRoot (NewBuilder miner) 3 lineBlocks
           lineBuilder 2 lineThird).
  - vm_compute. reflexivity.
  - vm_compute. reflexivity.
Defined.

Lemma built_block_can_be_got_witness :
  GetBlocks childBuilder [cidOf childBlock] = inr [childBlock] /\
  GetBlocks childBuilder (map cidOf siblingBlocks) = inr siblingBlocks.
Proof.
  apply (built_block_can_be_got cidOf fakeRoot siblingBuilder siblingBlocks
           (Some childOps) childBlock childBuilder (map cidOf siblingBlocks)
           siblingBlocks).
  - vm_compute. reflexivity.
  - vm_compute. reflexivity.
  - intros H. vm_compute in H.
    repeat (apply elem_of_cons in H as [H | H]; [discriminate H |]).
    inversion H.
Defined.

End BuilderFacts.

(** * More properties of the journal *)

Module JournalMore.
Import Journal JournalNotions.

(** ** The keys and values of an entry *)

Lemma extractKeyValues_loop args : extractKeyValues args = extractLoop args ∅.
Proof. destruct args as [| k [| v rest]]; reflexivity. Qed.

Lemma extractLoop_pairs pairs : forall tail out,
  extractLoop (keyValues pairs ++ tail) out
  = extractLoop tail (foldl (fun m p => <[p.1 := p.2]> m) out pairs).
Proof.
  induction pairs as [| [k v] pairs IH]; intros tail out; simpl; [reflexivity |].
  apply IH.
Qed.

Lemma extractLoop_inr n : forall args out m,
  (length args <= n)%nat ->
  extractLoop args out = inr m ->
  exists pairs, args = keyValues pairs.
Proof.
  induction n as [| n IH]; intros args out m Hlen H;
    destruct args as [| k [| v rest]]; simpl in *; try lia; try discriminate.
  - exists []. reflexivity.
  - exists []. reflexivity.
  - destruct k as [keyStr | z | tag]; try discriminate.
    apply IH in H as (pairs & ->); [| lia].
    exists ((keyStr, v) :: pairs). reflexivity.
Qed.

Lemma last_binding pairs k v :
  foldl (fun (m : gmap string value) p => <[p.1 := p.2]> m) ∅ pairs !! k = Some v <->
  exists before after, pairs = before ++ (k, v) :: after /\ k ∉ after.*1.
Proof.
  induction pairs as [| [k0 v0] pairs IH] using rev_ind.
  - simpl. rewrite lookup_empty. split; [discriminate |].
    intros (b & a & H & _). destruct b; discriminate.
  - rewrite foldl_snoc. cbn [fst snd]. destruct (decide (k = k0)) as [-> | Hne].
    + rewrite lookup_insert_eq. split.
      * intros H. inversion H; subst. exists pairs, []. split; [reflexivity |].
        simpl. apply not_elem_of_nil.
      * intros (b & a & H & Hk). destruct a as [| x a _] using rev_ind.
        -- apply app_inj_tail in H as [_ H]. inversion H. reflexivity.
        -- exfalso. rewrite app_comm_cons, app_assoc in H.
           apply app_inj_tail in H as [_ H]. subst x. apply Hk.
           rewrite fmap_app. apply elem_of_app. right. simpl. apply list_elem_of_here.
    + rewrite lookup_insert_ne by congruence. rewrite IH. split.
      * intros (b & a & -> & Hk). exists b, (a ++ [(k0, v0)]). split.
        { rewrite <- app_assoc. reflexivity. }
        rewrite fmap_app. intros Hin. apply elem_of_app in Hin as [Hin | Hin]; [auto |].
        simpl in Hin. apply list_elem_of_singleton in Hin. congruence.
      * intros (b & a & H & Hk). destruct a as [| x a _] using rev_ind.
        -- apply app_inj_tail in H as [_ H]. inversion H. congruence.
        -- rewrite app_comm_cons, app_assoc in H. apply app_inj_tail in H as [H Hx].
           exists b, a. split; [exact H |].
           intros Hin. apply Hk. rewrite fmap_app. apply elem_of_app. left. exact Hin.
Qed.

Lemma extractKeyValues_pairs pairs :
  extractKeyValues (keyValues pairs)
  = inr (foldl (fun (m : gmap string value) p => <[p.1 := p.2]> m) ∅ pairs).
Proof.
  rewrite extractKeyValues_loop, <- (app_nil_r (keyValues pairs)), extractLoop_pairs.
  reflexivity.
Qed.

(** X17.  On arguments that are keys and values in turn, the keys being
    strings, [extractKeyValues] succeeds, and the map it returns binds each
    key to the value that follows its last occurrence, and binds nothing
    else. *)
Theorem extractKeyValues_keeps_last_binding pairs :
  exists m,
    extractKeyValues (keyValues pairs) = inr m /\
    forall k v, m !! k = Some v <->
                exists before after, pairs = before ++ (k, v) :: after /\ k ∉ after.*1.
Proof.
  exists (foldl (fun (m : gmap string value) p => <[p.1 := p.2]> m) ∅ pairs).
  split; [apply extractKeyValues_pairs | apply last_binding].
Qed.

(** X18.  [extractKeyValues] succeeds on no other arguments: it fails with
    "dangling field" on the last argument when string keys and values in
    turn are followed by one more argument, whatever its type, and with
    "key is not of type string" at the first key that is not a string,
    whatever follows. *)
Theorem extractKeyValues_reports_first_fault args :
  ((exists m, extractKeyValues args = inr m) <-> exists pairs, args = keyValues pairs) /\
  (forall pairs x, args = keyValues pairs ++ [x] ->
                   extractKeyValues args = inl (DanglingField x)) /\
  (forall pairs k v rest, args = keyValues pairs ++ k :: v :: rest ->
                          isString k = false ->
                          extractKeyValues args = inl KeyNotString).
Proof.
  split; [| split].
  - split.
    + intros [m H]. rewrite extractKeyValues_loop in H.
      exact (extractLoop_inr (length args) args ∅ m (le_n _) H).
    + intros [pairs ->]. eexists. apply extractKeyValues_pairs.
  - intros pairs x ->. rewrite extractKeyValues_loop, extractLoop_pairs. reflexivity.
  - intros pairs k v rest -> Hk. rewrite extractKeyValues_loop, extractLoop_pairs.
    destruct k; [discriminate | reflexivity | reflexivity].
Qed.

(** ** Writing *)

(** X19.  [Write] either panics and leaves the journal as it was, which it
    does exactly when [extractKeyValues] fails on the arguments (or the
    writer is none of the journal), or it adds one entry, with the event,
    the time of the clock and the extracted map, at the end of the entries
    of its writer and changes no other writer. *)
Theorem Write_adds_one_entry_or_nothing mj w ev args :
  ((Write mj w ev args).1 = Ok tt /\
   exists mw extracted,
     writers mj !! w = Some mw /\
     extractKeyValues args = inr extracted /\
     writers (Write mj w ev args).2 !! w
     = Some {| wclock := wclock mw; topic := topic mw;
               entries := entries mw ++
                 [{| time := Now (wclock mw); event := ev; kvs := extracted |}] |} /\
     (forall w', w' <> w ->
                 writers (Write mj w ev args).2 !! w' = writers mj !! w') /\
     length (writers (Write mj w ev args).2) = length (writers mj) /\
     topics (Write mj w ev args).2 = topics mj)
  \/
  ((exists msg, (Write mj w ev args).1 = Panic msg) /\
   (Write mj w ev args).2 = mj /\
   (writers mj !! w = None \/ exists e, extractKeyValues args = inl e)).
Proof.
  unfold Write. destruct (writers mj !! w) as [mw |] eqn:Hw.
  - destruct (extractKeyValues args) as [e | extracted] eqn:He.
    + right. simpl. split; [eauto | split; [reflexivity | eauto]].
    + left. simpl. split; [reflexivity |]. exists mw, extracted.
      split; [reflexivity |]. split; [reflexivity |]. split.
      { apply list_lookup_insert_eq. apply lookup_lt_Some in Hw. exact Hw. }
      split.
      { intros w' Hne. apply list_lookup_insert_ne. congruence. }
      split; [apply length_insert | reflexivity].
  - right. simpl. split; [eauto | split; [reflexivity | eauto]].
Qed.

(** ** The journal over time *)

Lemma Topic_keeps_writers mj t w mw :
  writers mj !! w = Some mw -> writers (Topic mj t).2 !! w = Some mw.
Proof.
  intros H. unfold Topic. destruct (bool_decide (t ∈ topics mj)); simpl; [exact H |].
  apply lookup_app_l_Some. exact H.
Qed.

Lemma Write_keeps_entries mj w0 ev args w mw :
  writers mj !! w = Some mw ->
  exists mw', writers (Write mj w0 ev args).2 !! w = Some mw' /\
              topic mw' = topic mw /\ wclock mw' = wclock mw /\
              entries mw `prefix_of` entries mw'.
Proof.
  intros H. unfold Write. destruct (writers mj !! w0) as [mw0 |] eqn:Hw0.
  - destruct (extractKeyValues args) as [e | extracted]; simpl.
    + exists mw. repeat split; auto.
    + destruct (decide (w0 = w)) as [-> | Hne].
      * rewrite list_lookup_insert_eq by (apply lookup_lt_Some in H; exact H).
        eexists. split; [reflexivity |]. simpl.
        rewrite H in Hw0. inversion Hw0; subst mw0.
        repeat split; auto. eexists. reflexivity.
      * rewrite list_lookup_insert_ne by exact Hne.
        exists mw. repeat split; auto.
  - simpl. exists mw. repeat split; auto.
Qed.

(** X20.  The journal only grows: whatever calls of [Topic] and [Write]
    follow, a writer of the journal stays where it is, with its topic and
    its clock, and the entries it had are still the first of its entries,
    in the same order. *)
Theorem journal_is_append_only mj mj' w mw :
  later mj mj' ->
  writers mj !! w = Some mw ->
  exists mw', writers mj' !! w = Some mw' /\
              topic mw' = topic mw /\ wclock mw' = wclock mw /\
              entries mw `prefix_of` entries mw'.
Proof.
  intros Hlater Hw. induction Hlater as [mj | mj mj' t _ IH | mj mj' w0 ev args _ IH].
  - exists mw. repeat split; auto.
  - destruct (IH Hw) as (mw1 & H1 & Ht & Hc & Hp).
    exists mw1. split; [apply Topic_keeps_writers; exact H1 | auto].
  - destruct (IH Hw) as (mw1 & H1 & Ht & Hc & Hp).
    destruct (Write_keeps_entries mj' w0 ev args w mw1 H1) as (mw2 & H2 & Ht2 & Hc2 & Hp2).
    exists mw2. split; [exact H2 |]. split; [congruence |]. split; [congruence |].
    etransitivity; eassumption.
Qed.

Lemma journal_is_append_only_witness :
  let mj := (Topic (NewInMemoryJournal {| Now := 1234567890 |}) "testing").2 in
  let mj' := (Write mj 0 "event1" [VString "foo"; VString "bar"]).2 in
  exists mw', writers mj' !! 0%nat = Some mw' /\
              topic mw' = "testing"%string /\ wclock mw' = {| Now := 1234567890 |} /\
              [] `prefix_of` entries mw'.
Proof.
  apply (journal_is_append_only
           (Topic (NewInMemoryJournal {| Now := 1234567890 |}) "testing").2
           (Write (Topic (NewInMemoryJournal {| Now := 1234567890 |}) "testing").2
                  0 "event1" [VString "foo"; VString "bar"]).2
           0 {| wclock := {| Now := 1234567890 |}; topic := "testing"; entries := [] |}).
  - apply later_write. apply later_refl.
  - vm_compute. reflexivity.
Defined.

End JournalMore.
